(** * node-tar: the unpack state machine and the path reservation scheduler

    A shallow embedding of [src/unpack.ts] (classes [Unpack], [UnpackSync],
    the helpers [uint32], [getDirs], and the class [PathReservations]) and
    the properties of the extraction core that were checked against it.

    Conventions.
    - A JavaScript [number | undefined] that holds an integer is an
      [option Z]; 32-bit coercions ([>>> 0], [|], [&]) are written out.
    - A [Map] is a [gmap]; a [Set] whose iteration order the code relies on
      is a duplicate-free list in insertion order; the set [#running] is
      only tested, extended and shrunk, and is a [gset].
    - Code that talks to the file system is embedded as the sequence of
      calls it issues, given the outcome of each call. *)

From Stdlib Require Import ZArith Lia Bool Ascii.
From stdpp Require Import base option list gmap strings fin_maps fin_sets
  sorting.

Local Open Scope Z_scope.

(* ================================================================== *)
(** * Part I. Definitions *)
(* ================================================================== *)

(** ** JavaScript integers *)

Module JS.

(** [ToUint32]: the value of [a >>> 0] on an integral number. *)
Definition ToUint32 (a : Z) : Z := a mod 2 ^ 32.

(** [ToInt32]: the operand coercion of [|] and [&]. *)
Definition ToInt32 (a : Z) : Z :=
  let u := a mod 2 ^ 32 in
  if u <? 2 ^ 31 then u else u - 2 ^ 32.

(** [a | b] and [a & b]. *)
Definition bitor (a b : Z) : Z := ToInt32 (Z.lor (ToInt32 a) (ToInt32 b)).
Definition bitand (a b : Z) : Z := ToInt32 (Z.land (ToInt32 a) (ToInt32 b)).

(** Truthiness of a [number | undefined]. *)
Definition truthy (a : option Z) : bool :=
  match a with
  | Some v => negb (v =? 0)
  | None => false
  end.

(** [Array.prototype.slice(start)] on a list, negative [start] counting
    from the end. *)
Definition slice_from {A} (start : Z) (l : list A) : list A :=
  let n := Z.of_nat (length l) in
  let k := if start <? 0 then Z.max (n + start) 0 else Z.min start n in
  drop (Z.to_nat k) l.

(** [Array.prototype.splice(0, count)]: what is left of the array. *)
Definition splice0 {A} (count : Z) (l : list A) : list A :=
  let n := Z.of_nat (length l) in
  drop (Z.to_nat (Z.min (Z.max count 0) n)) l.

(** [String.prototype.split(sep)] for a one-character separator: never
    empty, [''.split('/')] is [['']]. *)
Fixpoint split (sep : ascii) (s : string) : list string :=
  match s with
  | EmptyString => [EmptyString]
  | String c rest =>
      if Ascii.eqb c sep then EmptyString :: split sep rest
      else
        match split sep rest with
        | seg :: segs => String c seg :: segs
        | [] => [String c EmptyString]
        end
  end.

(** [Array.prototype.join(sep)]. *)
Fixpoint join (sep : string) (l : list string) : string :=
  match l with
  | [] => ""
  | [s] => s
  | s :: rest => s +:+ sep +:+ join sep rest
  end.

(** [s.indexOf(t) === 0]. *)
Definition starts_with (t s : string) : bool := String.prefix t s.

Fixpoint ends_with_char (c : ascii) (s : string) : bool :=
  match s with
  | EmptyString => false
  | String d EmptyString => Ascii.eqb d c
  | String _ rest => ends_with_char c rest
  end.

End JS.

Definition slash : ascii := "/"%char.


(** [String(x)] of a [string | undefined]. *)
Definition String_ (x : option string) : string := default "undefined" x.

(** ** Node's [path.posix]

    [join] and [normalize] belong to the platform library, not to the
    repository; this is its documented algorithm, segment by segment:
    empty and [.] segments are dropped, [..] removes the segment before it
    (or is kept, in a relative path that has nothing left to remove). *)

Module NodePath.

Definition normalizeString (allowAboveRoot : bool) (segs : list string)
  : list string :=
  foldl
    (fun res seg =>
       if String.eqb seg "" || String.eqb seg "." then res
       else if String.eqb seg ".." then
         match last res with
         | Some l =>
             if String.eqb l ".." then
               if allowAboveRoot then res ++ [".."] else res
             else removelast res
         | None => if allowAboveRoot then [".."] else []
         end
       else res ++ [seg])
    [] segs.

Definition normalize (path : string) : string :=
  if String.eqb path "" then "."
  else
    let isAbsolute := JS.starts_with "/" path in
    let trailingSeparator := JS.ends_with_char slash path in
    let p :=
      JS.join "/" (normalizeString (negb isAbsolute) (JS.split slash path)) in
    if String.eqb p "" then
      if isAbsolute then "/" else if trailingSeparator then "./" else "."
    else
      let p := if trailingSeparator then p +:+ "/" else p in
      if isAbsolute then "/" +:+ p else p.

Definition join (args : list string) : string :=
  match List.filter (fun a => negb (String.eqb a "")) args with
  | [] => "."
  | parts => normalize (JS.join "/" parts)
  end.

End NodePath.

(** ** The host: platform and helper modules the code imports

    [normalizeWindowsPath], [stripAbsolutePath], [normalizeUnicode],
    [stripTrailingSlashes] and [wc.encode] live in sibling modules,
    [path.resolve], [path.dirname], [path.isAbsolute], [path.win32.parse]
    and [toLowerCase] in the platform.  The code under study only calls
    them, so they are taken as given. *)

Record Host := {
  isWindows : bool;
  normalizeWindowsPath : string -> string;
  stripAbsolutePath : string -> string * string;
  normalizeUnicode : string -> string;
  stripTrailingSlashes : string -> string;
  toLowerCase : string -> string;
  wc_encode : string -> string;
  path_isAbsolute : string -> bool;
  path_resolve : list string -> string;
  path_dirname : string -> string;
  win32_root : string -> string;
}.

(** ** Entries *)

Inductive EntryType :=
| File | OldFile | ContiguousFile | Directory | GNUDumpDir
| Link | SymbolicLink | CharacterDevice | BlockDevice | FIFO
| OtherType (name : string).

Definition type_name (ty : EntryType) : string :=
  match ty with
  | File => "File"
  | OldFile => "OldFile"
  | ContiguousFile => "ContiguousFile"
  | Directory => "Directory"
  | GNUDumpDir => "GNUDumpDir"
  | Link => "Link"
  | SymbolicLink => "SymbolicLink"
  | CharacterDevice => "CharacterDevice"
  | BlockDevice => "BlockDevice"
  | FIFO => "FIFO"
  | OtherType name => name
  end.

#[global] Instance EntryType_eq_dec : EqDecision EntryType.
Proof. solve_decision. Defined.

Module ReadEntry.

Record t := mk {
  type : EntryType;
  path : string;
  linkpath : option string;
  mode : option Z;
  uid : option Z;
  gid : option Z;
  mtime : option Z;
  atime : option Z;
  size : Z;
  absolute : option string;
  unsupported : bool;
}.

Definition set_path (v : string) (e : t) : t :=
  mk (type e) v (linkpath e) (mode e) (uid e) (gid e) (mtime e) (atime e)
     (size e) (absolute e) (unsupported e).
Definition set_linkpath (v : option string) (e : t) : t :=
  mk (type e) (path e) v (mode e) (uid e) (gid e) (mtime e) (atime e)
     (size e) (absolute e) (unsupported e).
Definition set_mode (v : option Z) (e : t) : t :=
  mk (type e) (path e) (linkpath e) v (uid e) (gid e) (mtime e) (atime e)
     (size e) (absolute e) (unsupported e).
Definition set_absolute (v : option string) (e : t) : t :=
  mk (type e) (path e) (linkpath e) (mode e) (uid e) (gid e) (mtime e)
     (atime e) (size e) v (unsupported e).
Definition set_unsupported (v : bool) (e : t) : t :=
  mk (type e) (path e) (linkpath e) (mode e) (uid e) (gid e) (mtime e)
     (atime e) (size e) (absolute e) v.

End ReadEntry.

(** [fs.Stats], as far as the code reads it. *)
Inductive StatKind := StFile | StDirectory | StSymlink | StOther.

#[global] Instance StatKind_eq_dec : EqDecision StatKind.
Proof. solve_decision. Defined.

Record Stats := {
  st_kind : StatKind;
  st_nlink : Z;
  st_mode : Z;
  st_mtime : Z;
}.

Definition isFile (st : Stats) : bool := bool_decide (st_kind st = StFile).
Definition isDirectory (st : Stats) : bool :=
  bool_decide (st_kind st = StDirectory).

Record JsError := { er_name : string; er_message : string }.

(** What the file system answers to the calls of one entry's
    reconciliation: [None] is success (for [lstat]: [None] is the error). *)
Record FsOutcome := {
  on_mkdir_cwd : option JsError;
  on_mkdir_parent : option JsError;
  on_lstat : option Stats;
  on_chmod : option JsError;
  on_rmdir : option JsError;
  on_unlink : option JsError;
}.

(** The materializer [MAKEFS] dispatches to. *)
Inductive Materializer :=
| MFile (abs : string) (mode : Z)
| MDirectory (abs : string) (mode : Z)
| MHardlink (linkpath abs : string)
| MSymlink (linkpath abs : string).

(** Observable actions, in the order the code performs them. *)
Inductive Event :=
| Warn (code message : string)
| Emit (ev : string)
| Resume
| Reserve (paths : list string)
| Release
| PruneCache
| Mkdir (dir : string) (mode : Z)
| Lstat (p : string)
| Chmod (p : string) (mode : Z)
| Rmdir (p : string)
| UnlinkFile (p : string)
| Materialize (m : Materializer).

#[global] Instance Materializer_eq_dec : EqDecision Materializer.
Proof. solve_decision. Defined.
#[global] Instance Event_eq_dec : EqDecision Event.
Proof. solve_decision. Defined.

Inductive DepthLimit := Finite (n : Z) | Infinity.

(** ** The class [Unpack] *)

Module Unpack.

Record t := mk {
  ENDED : bool;
  CHECKED_CWD : bool;
  PENDING : Z;
  uid : option Z;
  gid : option Z;
  preserveOwner : bool;
  processUid : option Z;
  processGid : option Z;
  maxDepth : DepthLimit;
  forceChown : bool;
  win32 : bool;
  newer : bool;
  keep : bool;
  noMtime : bool;
  preservePaths : bool;
  unlink : bool;
  cwd : string;
  strip : Z;
  dmode : Z;
  fmode : Z;
  noChmod : bool;
}.

Definition set_CHECKED_CWD (v : bool) (u : t) : t :=
  mk (ENDED u) v (PENDING u) (uid u) (gid u) (preserveOwner u)
     (processUid u) (processGid u) (maxDepth u) (forceChown u) (win32 u)
     (newer u) (keep u) (noMtime u) (preservePaths u) (unlink u) (cwd u)
     (strip u) (dmode u) (fmode u) (noChmod u).
Definition set_PENDING (v : Z) (u : t) : t :=
  mk (ENDED u) (CHECKED_CWD u) v (uid u) (gid u) (preserveOwner u)
     (processUid u) (processGid u) (maxDepth u) (forceChown u) (win32 u)
     (newer u) (keep u) (noMtime u) (preservePaths u) (unlink u) (cwd u)
     (strip u) (dmode u) (fmode u) (noChmod u).

(** Methods run on the instance and leave a trace of actions. *)
Definition M (A : Type) : Type := t -> A * t * list Event.

#[global] Instance M_ret : MRet M := fun A (a : A) u => (a, u, []).
#[global] Instance M_bind : MBind M := fun A B (k : A -> M B) (m : M A) u =>
  let '(a, u1, tr1) := m u in
  let '(b, u2, tr2) := k a u1 in
  (b, u2, tr1 ++ tr2).
Definition this : M t := fun u => (u, u, []).
Definition assign (f : t -> t) : M unit := fun u => (tt, f u, []).
Definition act (e : Event) : M unit := fun u => (tt, u, [e]).

Definition trace {A} (m : M A) (u : t) : list Event := (m u).2.
Definition after {A} (m : M A) (u : t) : t := (m u).1.2.

(** [uint32(a, b, c)]: [a] if it is a number that [>>> 0] leaves
    unchanged, else [b] on the same test, else [c] as it is. *)
Definition uint32 (a b c : option Z) : option Z :=
  match a with
  | Some av =>
      if av =? JS.ToUint32 av then a
      else
        match b with
        | Some bv => if bv =? JS.ToUint32 bv then b else c
        | None => c
        end
  | None =>
      match b with
      | Some bv => if bv =? JS.ToUint32 bv then b else c
      | None => c
      end
  end.

Definition UID (u : t) (entry : ReadEntry.t) : option Z :=
  uint32 (uid u) (ReadEntry.uid entry) (processUid u).

Definition GID (u : t) (entry : ReadEntry.t) : option Z :=
  uint32 (gid u) (ReadEntry.gid entry) (processGid u).

(** [typeof x === 'number' && x !== y]. *)
Definition number_differs (x y : option Z) : bool :=
  match x with
  | Some _ => negb (bool_decide (x = y))
  | None => false
  end.

Definition DOCHOWN (u : t) (entry : ReadEntry.t) : bool :=
  forceChown u
  || (preserveOwner u
      && (number_differs (ReadEntry.uid entry) (processUid u)
          || number_differs (ReadEntry.gid entry) (processGid u)))
  || number_differs (uid u) (processUid u)
  || number_differs (gid u) (processGid u).

Definition MAYBECLOSE : M unit :=
  u ← this;
  if ENDED u && (PENDING u =? 0) then
    act (Emit "prefinish");; act (Emit "finish");; act (Emit "end")
  else mret tt.

Definition PEND : M unit :=
  assign (fun u => set_PENDING (PENDING u + 1) u).

Definition UNPEND : M unit :=
  assign (fun u => set_PENDING (PENDING u - 1) u);; MAYBECLOSE.


Definition SKIP : M unit := UNPEND;; act Resume.

Definition ONERROR (er : JsError) : M unit :=
  if String.eqb (er_name er) "CwdError" then act (Emit "error")
  else act (Warn "TAR_ENTRY_ERROR" (er_message er));; UNPEND;; act Resume.

Definition UNSUPPORTED (entry : ReadEntry.t) : M ReadEntry.t :=
  act (Warn "TAR_ENTRY_UNSUPPORTED"
         ("unsupported entry type: " +:+ type_name (ReadEntry.type entry)));;
  act Resume;;
  mret (ReadEntry.set_unsupported true entry).

(** *** The entry sanitizer, [CHECKPATH] *)

(** [/^[a-z]:\.\.$/i.test(s)]. *)
Definition is_drive_dotdot (s : string) : bool :=
  match s with
  | String c (String ":" (String "." (String "." EmptyString))) =>
      let n := nat_of_ascii c in
      ((65 <=? n)%nat && (n <=? 90)%nat) || ((97 <=? n)%nat && (n <=? 122)%nat)
  | _ => false
  end.

(** [s.slice(n)] on a string. *)
Fixpoint str_drop (n : nat) (s : string) : string :=
  match n, s with
  | O, _ => s
  | S n', String _ rest => str_drop n' rest
  | S _, EmptyString => EmptyString
  end.

(** The [if (this.strip)] block: [None] is its [return false]. *)
Definition strip_parts (h : Host) (u : t) (entry : ReadEntry.t)
    (parts : list string) : option (ReadEntry.t * list string) :=
  if strip u =? 0 then Some (entry, parts)
  else if Z.of_nat (length parts) <? strip u then None
  else
    let linked :=
      if decide (ReadEntry.type entry = Link) then
        let linkparts :=
          JS.split slash
            (normalizeWindowsPath h (String_ (ReadEntry.linkpath entry))) in
        if strip u <=? Z.of_nat (length linkparts) then
          Some (ReadEntry.set_linkpath
                  (Some (JS.join "/" (JS.slice_from (strip u) linkparts)))
                  entry)
        else None
      else Some entry in
    match linked with
    | None => None
    | Some entry =>
        let parts := JS.splice0 (strip u) parts in
        Some (ReadEntry.set_path (JS.join "/" parts) entry, parts)
    end.

(** [isFinite(this.maxDepth) && parts.length > this.maxDepth]. *)
Definition too_deep (u : t) (parts : list string) : bool :=
  match maxDepth u with
  | Finite n => n <? Z.of_nat (length parts)
  | Infinity => false
  end.

Definition has_dotdot (h : Host) (parts : list string) : bool :=
  bool_decide (".." ∈ parts)
  || (isWindows h && is_drive_dotdot (default "" (head parts))).

Definition resolve_absolute (h : Host) (u : t) (entry : ReadEntry.t)
  : ReadEntry.t :=
  let p := ReadEntry.path entry in
  let abs :=
    if path_isAbsolute h p then normalizeWindowsPath h (path_resolve h [p])
    else normalizeWindowsPath h (path_resolve h [cwd u; p]) in
  ReadEntry.set_absolute (Some abs) entry.

Definition escapes (u : t) (entry : ReadEntry.t) : bool :=
  negb (preservePaths u)
  && negb (JS.starts_with (cwd u +:+ "/") (String_ (ReadEntry.absolute entry)))
  && negb (bool_decide (ReadEntry.absolute entry = Some (cwd u))).

Definition is_dir_type (ty : EntryType) : bool :=
  match ty with
  | Directory | GNUDumpDir => true
  | _ => false
  end.

Definition encode_win32 (h : Host) (u : t) (entry : ReadEntry.t)
  : ReadEntry.t :=
  if win32 u then
    let a := String_ (ReadEntry.absolute entry) in
    let aRoot := win32_root h a in
    let entry :=
      ReadEntry.set_absolute
        (Some (aRoot +:+ wc_encode h (str_drop (String.length aRoot) a)))
        entry in
    let pRoot := win32_root h (ReadEntry.path entry) in
    ReadEntry.set_path
      (pRoot +:+
       wc_encode h (str_drop (String.length pRoot) (ReadEntry.path entry)))
      entry
  else entry.

Definition CHECKPATH (h : Host) (entry : ReadEntry.t)
  : M (bool * ReadEntry.t) :=
  u ← this;
  let p := normalizeWindowsPath h (ReadEntry.path entry) in
  match strip_parts h u entry (JS.split slash p) with
  | None => mret (false, entry)
  | Some (entry, parts) =>
      if too_deep u parts then
        act (Warn "TAR_ENTRY_ERROR" "path excessively deep");;
        mret (false, entry)
      else
        stripped ←
          (if preservePaths u then mret (Some entry)
           else if has_dotdot h parts then
             act (Warn "TAR_ENTRY_ERROR" "path contains '..'");;
             mret None
           else
             let '(root, rest) := stripAbsolutePath h p in
             if String.eqb root "" then mret (Some entry)
             else
               act (Warn "TAR_ENTRY_INFO"
                      ("stripping " +:+ root +:+ " from absolute path"));;
               mret (Some (ReadEntry.set_path rest entry)));
        match stripped with
        | None => mret (false, entry)
        | Some entry =>
            let entry := resolve_absolute h u entry in
            if escapes u entry then
              act (Warn "TAR_ENTRY_ERROR" "path escaped extraction target");;
              mret (false, entry)
            else if bool_decide (ReadEntry.absolute entry = Some (cwd u))
                    && negb (is_dir_type (ReadEntry.type entry))
            then mret (false, entry)
            else mret (true, encode_win32 h u entry)
        end
  end.

(** *** [ONENTRY]

    [CHECKFS] is the method the two profiles override. *)
Definition ONENTRY (h : Host) (CHECKFS : ReadEntry.t -> M unit)
    (entry : ReadEntry.t) : M unit :=
  '(ok, entry) ← CHECKPATH h entry;
  if negb ok then act Resume
  else
    match ReadEntry.type entry with
    | Directory | GNUDumpDir =>
        let entry :=
          match ReadEntry.mode entry with
          | Some m =>
              if JS.truthy (Some m) then
                ReadEntry.set_mode (Some (JS.bitor m 448)) entry
              else entry
          | None => entry
          end in
        CHECKFS entry
    | File | OldFile | ContiguousFile | Link | SymbolicLink => CHECKFS entry
    | CharacterDevice | BlockDevice | FIFO | OtherType _ =>
        UNSUPPORTED entry;; mret tt
    end.

(** *** The materializer, [MAKEFS] *)

Definition file_mode (u : t) (entry : ReadEntry.t) : Z :=
  match ReadEntry.mode entry with
  | Some m => JS.bitand m 4095
  | None => fmode u
  end.

(** The [mode] constant of [DIRECTORY]. *)
Definition directory_mode (u : t) (entry : ReadEntry.t) : Z :=
  match ReadEntry.mode entry with
  | Some m => JS.bitand m 4095
  | None => dmode u
  end.

Definition MAKEFS (h : Host) (er : option JsError) (entry : ReadEntry.t)
    (done : M unit) : M unit :=
  match er with
  | Some er => ONERROR er;; done
  | None =>
      u ← this;
      let abs := String_ (ReadEntry.absolute entry) in
      match ReadEntry.type entry with
      | File | OldFile | ContiguousFile =>
          act (Materialize (MFile abs (file_mode u entry)))
      | Link =>
          act (Materialize
                 (MHardlink
                    (normalizeWindowsPath h
                       (path_resolve h
                          [cwd u; String_ (ReadEntry.linkpath entry)]))
                    abs))
      | SymbolicLink =>
          act (Materialize (MSymlink (String_ (ReadEntry.linkpath entry)) abs))
      | Directory | GNUDumpDir =>
          act (Materialize (MDirectory abs (directory_mode u entry)))
      | _ => mret tt
      end
  end.

(** *** The reconciler of the parallel profile: [CHECKFS], [CHECKFS2] *)

Definition ISREUSABLE (h : Host) (u : t) (entry : ReadEntry.t) (st : Stats)
  : bool :=
  bool_decide (ReadEntry.type entry = File)
  && negb (unlink u)
  && isFile st
  && (st_nlink st <=? 1)
  && negb (isWindows h).

Definition MKDIR (h : Host) (dir : string) (mode : Z) : M unit :=
  act (Mkdir (normalizeWindowsPath h dir) mode).

Definition CHECKFS (entry : ReadEntry.t) : M unit :=
  PEND;;
  let paths :=
    ReadEntry.path entry ::
    match ReadEntry.linkpath entry with
    | Some l => if String.eqb l "" then [] else [l]
    | None => []
    end in
  act (Reserve paths).

(** [st && (this.keep || (this.newer && st.mtime > (entry.mtime ?? st.mtime)))]. *)
Definition keep_existing (u : t) (entry : ReadEntry.t) (st : Stats) : bool :=
  keep u
  || (newer u && (default (st_mtime st) (ReadEntry.mtime entry) <? st_mtime st)).

Definition needChmod (u : t) (entry : ReadEntry.t) (st : Stats) : bool :=
  negb (noChmod u)
  && JS.truthy (ReadEntry.mode entry)
  && negb (bool_decide (Some (JS.bitand (st_mode st) 4095) = ReadEntry.mode entry)).

Definition is_cwd (u : t) (entry : ReadEntry.t) : bool :=
  bool_decide (ReadEntry.absolute entry = Some (cwd u)).

(** [CHECKFS2] and its closures [done], [afterMakeParent], [start] and
    [checkCwd], each callback run with the outcome of the call it waits
    for; [fullyDone], which releases the reservation, is [Release]. *)
Definition CHECKFS2_done : M unit := act PruneCache;; act Release.

Definition afterMakeParent (h : Host) (fs : FsOutcome) (entry : ReadEntry.t)
  : M unit :=
  let abs := String_ (ReadEntry.absolute entry) in
  act (Lstat abs);;
  u ← this;
  let remove_file : M unit :=
    if is_cwd u entry then MAKEFS h None entry CHECKFS2_done
    else act (UnlinkFile abs);; MAKEFS h (on_unlink fs) entry CHECKFS2_done in
  match on_lstat fs with
  | None => MAKEFS h None entry CHECKFS2_done
  | Some st =>
      if keep_existing u entry st then SKIP;; CHECKFS2_done
      else if ISREUSABLE h u entry st then MAKEFS h None entry CHECKFS2_done
      else if isDirectory st then
        if bool_decide (ReadEntry.type entry = Directory) then
          if needChmod u entry st then
            act (Chmod abs (default 0 (ReadEntry.mode entry)));;
            MAKEFS h (on_chmod fs) entry CHECKFS2_done
          else MAKEFS h None entry CHECKFS2_done
        else if negb (is_cwd u entry) then
          act (Rmdir abs);; MAKEFS h (on_rmdir fs) entry CHECKFS2_done
        else remove_file
      else remove_file
  end.

Definition start (h : Host) (fs : FsOutcome) (entry : ReadEntry.t) : M unit :=
  u ← this;
  if negb (is_cwd u entry) then
    let parent :=
      normalizeWindowsPath h
        (path_dirname h (String_ (ReadEntry.absolute entry))) in
    if negb (String.eqb parent (cwd u)) then
      MKDIR h parent (dmode u);;
      match on_mkdir_parent fs with
      | Some er => ONERROR er;; CHECKFS2_done
      | None => afterMakeParent h fs entry
      end
    else afterMakeParent h fs entry
  else afterMakeParent h fs entry.

Definition checkCwd (h : Host) (fs : FsOutcome) (entry : ReadEntry.t)
  : M unit :=
  u ← this;
  MKDIR h (cwd u) (dmode u);;
  match on_mkdir_cwd fs with
  | Some er => ONERROR er;; CHECKFS2_done
  | None => assign (set_CHECKED_CWD true);; start h fs entry
  end.

Definition CHECKFS2 (h : Host) (fs : FsOutcome) (entry : ReadEntry.t)
  : M unit :=
  act PruneCache;;
  u ← this;
  if CHECKED_CWD u then start h fs entry else checkCwd h fs entry.

End Unpack.

(** ** The class [UnpackSync] *)

Module UnpackSync.
Import Unpack.

Definition MAKEFS (h : Host) (er : option JsError) (entry : ReadEntry.t)
  : M unit :=
  Unpack.MAKEFS h er entry (mret tt).

(** [CHECKFS] is one straight run; it is cut here at the calls it makes:
    from [lstatSync] on, from the parent's [mkdirSync] on, and whole. *)
Definition reconcile (h : Host) (fs : FsOutcome) (entry : ReadEntry.t)
  : M unit :=
  let abs := String_ (ReadEntry.absolute entry) in
  act (Lstat abs);;
  u ← this;
  let remove_file : M unit :=
    if is_cwd u entry then MAKEFS h None entry
    else act (UnlinkFile abs);; MAKEFS h (on_unlink fs) entry in
  match on_lstat fs with
  | None => MAKEFS h None entry
  | Some st =>
      if keep_existing u entry st then SKIP
      else if ISREUSABLE h u entry st then MAKEFS h None entry
      else if isDirectory st then
        if bool_decide (ReadEntry.type entry = Directory) then
          if needChmod u entry st then
            act (Chmod abs (default 0 (ReadEntry.mode entry)));;
            MAKEFS h (on_chmod fs) entry
          else MAKEFS h None entry
        else
          (* no [return] on this path: control leaves the [if] and goes on *)
          act (Rmdir abs);; MAKEFS h (on_rmdir fs) entry;; remove_file
      else remove_file
  end.

Definition makeParent (h : Host) (fs : FsOutcome) (entry : ReadEntry.t)
  : M unit :=
  u ← this;
  if negb (is_cwd u entry) then
    let parent :=
      normalizeWindowsPath h
        (path_dirname h (String_ (ReadEntry.absolute entry))) in
    if negb (String.eqb parent (cwd u)) then
      MKDIR h parent (dmode u);;
      match on_mkdir_parent fs with
      | Some er => ONERROR er
      | None => reconcile h fs entry
      end
    else reconcile h fs entry
  else reconcile h fs entry.

Definition CHECKFS (h : Host) (fs : FsOutcome) (entry : ReadEntry.t)
  : M unit :=
  act PruneCache;;
  u ← this;
  if CHECKED_CWD u then makeParent h fs entry
  else
    MKDIR h (cwd u) (dmode u);;
    match on_mkdir_cwd fs with
    | Some er => ONERROR er
    | None => assign (set_CHECKED_CWD true);; makeParent h fs entry
    end.

End UnpackSync.

(** ** The path reservation scheduler, [PathReservations] *)

(** [getDirs]: the directories above a path, outermost first; and the
    callback of its [reduce]. *)
Definition getDirs_step (set : list string) (path : string) : list string :=
  let path :=
    match last set with
    | Some s => NodePath.join [s; path]
    | None => path
    end in
  set ++ [if String.eqb path "" then "/" else path].

Definition getDirs (path : string) : list string :=
  foldl getDirs_step [] (removelast (JS.split slash path)).

Module PathReservations.

(** A handler is known to the scheduler by its identity alone. *)
Definition Handler := nat.

(** An entry of a queue: [Handler | Set<Handler>]. *)
Inductive Slot :=
| Fn (fn : Handler)
| Dirs (fns : list Handler).

Record Reservation := { paths : list string; dirs : list string }.

Record t := mk {
  queues : gmap string (list Slot);
  reservations : gmap Handler Reservation;
  running : gset Handler;
}.

Definition empty : t := mk ∅ ∅ ∅.

(** [Set.prototype.add], [new Set(array)], [Set.prototype.delete] on a
    set kept in insertion order. *)
Definition Set_add {A} `{EqDecision A} (x : A) (l : list A) : list A :=
  if decide (x ∈ l) then l else l ++ [x].
Definition Set_from {A} `{EqDecision A} (l : list A) : list A :=
  foldl (fun acc x => Set_add x acc) [] l.
Definition Set_delete {A} `{EqDecision A} (x : A) (l : list A) : list A :=
  filter (fun y => y ≠ x) l.

(** The key of a path in [#queues]. *)
Definition canon (h : Host) (p : string) : string :=
  toLowerCase h (stripTrailingSlashes h (NodePath.join [normalizeUnicode h p])).

Definition push_path (fn : Handler) (qs : gmap string (list Slot))
    (p : string) : gmap string (list Slot) :=
  match qs !! p with
  | None => <[p := [Fn fn]]> qs
  | Some q => <[p := q ++ [Fn fn]]> qs
  end.

Definition push_dir (fn : Handler) (qs : gmap string (list Slot))
    (dir : string) : gmap string (list Slot) :=
  match qs !! dir with
  | None => <[dir := [Dirs [fn]]]> qs
  | Some q =>
      match last q with
      | Some (Dirs l) => <[dir := removelast q ++ [Dirs (Set_add fn l)]]> qs
      | _ => <[dir := q ++ [Dirs [fn]]]> qs
      end
  end.

(** [check]: [None] is the exception of [#getQueues]. *)
Definition first_is (fn : Handler) (q : option (list Slot)) : bool :=
  match q with
  | Some (Fn f :: _) => bool_decide (f = fn)
  | _ => false
  end.

Definition first_has (fn : Handler) (q : option (list Slot)) : bool :=
  match q with
  | Some (Dirs l :: _) => bool_decide (fn ∈ l)
  | _ => false
  end.

Definition check (s : t) (fn : Handler) : option bool :=
  res ← reservations s !! fn;
  Some (forallb (fun p => first_is fn (queues s !! p)) (paths res)
        && forallb (fun d => first_has fn (queues s !! d)) (dirs res)).

(** [#run]: the handler is started, which the scheduler sees as one more
    member of [#running]; its body runs outside the scheduler and calls
    back through [clear]. *)
Definition run (s : t) (fn : Handler) : option (bool * t) :=
  if bool_decide (fn ∈ running s) then Some (false, s)
  else
    ok ← check s fn;
    if ok : bool then
      Some (true, mk (queues s) (reservations s) ({[fn]} ∪ running s))
    else Some (false, s).

(** [reserve]: [None] is an exception ([reduce] of an empty array). *)
Definition reserve (h : Host) (ps : list string) (fn : Handler) (s : t)
  : option (bool * t) :=
  let ps :=
    if isWindows h then ["win32 parallelization disabled"]
    else map (canon h) ps in
  match ps with
  | [] => None
  | _ =>
      let ds := Set_from (concat (map getDirs ps)) in
      let rs := <[fn := {| paths := ps; dirs := ds |}]> (reservations s) in
      let qs := foldl (push_path fn) (queues s) ps in
      let qs := foldl (push_dir fn) qs ds in
      run (mk qs rs (running s)) fn
  end.

(** One turn of the first loop of [#clear]. *)
Definition clear_path (fn : Handler)
    (acc : gmap string (list Slot) * list Handler) (path : string)
  : gmap string (list Slot) * list Handler :=
  let '(qs, next) := acc in
  match qs !! path with
  | Some (Fn f :: rest) =>
      if bool_decide (f = fn) then
        match rest with
        | [] => (delete path qs, next)
        | Fn g :: _ => (<[path := rest]> qs, Set_add g next)
        | Dirs l :: _ =>
            (<[path := rest]> qs, foldl (fun acc f => Set_add f acc) next l)
        end
      else acc
  | _ => acc
  end.

(** One turn of its second loop. *)
Definition clear_dir (fn : Handler)
    (acc : gmap string (list Slot) * list Handler) (dir : string)
  : gmap string (list Slot) * list Handler :=
  let '(qs, next) := acc in
  match qs !! dir with
  | Some (Dirs l :: rest) =>
      if (length l =? 1)%nat then
        match rest with
        | [] => (delete dir qs, next)
        | Fn g :: _ => (<[dir := rest]> qs, Set_add g next)
        | Dirs _ :: _ => (<[dir := rest]> qs, next)
        end
      else (<[dir := Dirs (Set_delete fn l) :: rest]> qs, next)
  | _ => acc
  end.

(** [next.forEach(fn => this.#run(fn))]. *)
Definition run_all (s : t) (next : list Handler) : option t :=
  foldl (fun acc f => s ← acc; r ← run s f; Some r.2) (Some s) next.

Definition clear (fn : Handler) (s : t) : option (bool * t) :=
  if negb (bool_decide (fn ∈ running s)) then Some (false, s)
  else
    res ← reservations s !! fn;
    let acc := foldl (clear_path fn) (queues s, []) (paths res) in
    let '(qs, next) := foldl (clear_dir fn) acc (dirs res) in
    s' ← run_all (mk qs (reservations s) (running s ∖ {[fn]})) next;
    Some (true, s').

(** The states the scheduler reaches when every [reserve] is given a
    handler of its own, as [Unpack.CHECKFS] does with a new closure per
    entry. *)
Inductive reachable (h : Host) : t -> Prop :=
| reach_empty : reachable h empty
| reach_reserve s ps fn b s' :
    reachable h s ->
    reservations s !! fn = None ->
    reserve h ps fn s = Some (b, s') ->
    reachable h s'
| reach_clear s fn b s' :
    reachable h s ->
    clear fn s = Some (b, s') ->
    reachable h s'.

End PathReservations.

(** A sample host for the examples; it is not the helpers themselves.
    It is not Windows; [normalizeWindowsPath], [normalizeUnicode],
    [toLowerCase] and [wc.encode] leave a string as it is; [path.resolve]
    is [path.join] of its arguments, without the working directory of the
    process and without starting again at an absolute argument;
    [stripTrailingSlashes] rebuilds a path that ends in a slash from its
    segments that are not empty, which drops a leading slash too;
    [stripAbsolutePath] knows no root but a leading [/].  On the paths of
    the examples (in lower case, without a trailing slash, relative or
    below [/x]) it agrees with the helpers; the theorems that hold for
    every host do not depend on it. *)
Definition strip_slashes (s : string) : string :=
  JS.join "/" (List.filter (fun a => negb (String.eqb a "")) (JS.split slash s)).

Definition posix : Host := {|
  isWindows := false;
  normalizeWindowsPath := fun p => p;
  stripAbsolutePath := fun p =>
    if JS.starts_with "/" p then ("/", strip_slashes p) else ("", p);
  normalizeUnicode := fun p => p;
  stripTrailingSlashes := fun p =>
    if JS.ends_with_char slash p then strip_slashes p else p;
  toLowerCase := fun p => p;
  wc_encode := fun p => p;
  path_isAbsolute := JS.starts_with "/";
  path_resolve := fun args =>
    let p := NodePath.join args in
    if String.eqb p "/" then p
    else if JS.ends_with_char slash p then "/" +:+ strip_slashes p else p;
  path_dirname := fun p => JS.join "/" (removelast (JS.split slash p));
  win32_root := fun _ => "";
|}.


(** ** Paths as [reserve] hands them to [getDirs]

    A path goes through [path.join] and loses its trailing slashes
    before [getDirs] sees it: its segments are joined by single slashes,
    after a leading slash or none; no segment is empty or [.]; in a
    relative path [..] segments may lead, as in the [linkpath] of a link
    that points above its directory, and an absolute path has none. *)

(** A segment that [normalize] leaves alone. *)
Definition plain (seg : string) : bool :=
  negb (String.eqb seg "") && negb (String.eqb seg ".")
  && negb (String.eqb seg "..").

(** The segments after the leading [..] ones. *)
Fixpoint drop_ups (l : list string) : list string :=
  match l with
  | seg :: rest => if String.eqb seg ".." then drop_ups rest else l
  | [] => []
  end.

(** A path as [reserve] hands it to [getDirs]; [.] is what [path.join]
    makes of the empty path, and the empty string is the root without its
    slash. *)
Definition handed (p : string) : bool :=
  String.eqb p "." || String.eqb p ""
  || match JS.split slash p with
     | "" :: seg :: segs => forallb plain (seg :: segs)
     | segs => forallb plain (drop_ups segs)
     end.

(** [d] is a proper prefix of [q]. *)
Definition above (d q : string) : Prop :=
  String.prefix d q = true /\ (String.length d < String.length q)%nat.

Fixpoint no_slash (s : string) : bool :=
  match s with
  | EmptyString => true
  | String c rest => negb (Ascii.eqb c slash) && no_slash rest
  end.

(** [p] is one segment below [d]. *)
Definition sits_in (d p : string) : Prop :=
  exists seg,
    seg <> "" /\ seg <> "." /\ no_slash seg = true
    /\ p = (if String.eqb d "/" then d else d +:+ "/") +:+ seg.

(** The paths of the prefixes of [rest] below [seen], shortest first. *)
Fixpoint chain (pth : list string -> string) (seen rest : list string)
  : list string :=
  match rest with
  | [] => []
  | seg :: rest' => pth (seen ++ [seg]) :: chain pth (seen ++ [seg]) rest'
  end.

Definition absolute_path (segs : list string) : string :=
  String slash (JS.join "/" segs).

Definition relative_path (segs : list string) : string := JS.join "/" segs.

(** The ancestors of [p] as the specification has them: the chain of the
    directories above [p], outermost first, [p] itself left out. *)
Definition ancestors (p : string) : list string :=
  match JS.split slash p with
  | "" :: seg :: segs => "/" :: chain absolute_path [] (removelast (seg :: segs))
  | segs => chain relative_path [] (removelast segs)
  end.

Definition good (seg : string) : Prop := plain seg = true /\ no_slash seg = true.

(** Leading [..] segments, then segments that are neither empty nor dots. *)
Definition climbs (l : list string) : Prop := Forall good (drop_ups l).

(** A segment that is not empty and has no slash. *)
Definition seg_ok (seg : string) : Prop := seg <> "" /\ no_slash seg = true.

(** ** The invariant of the scheduler *)

Section SchedulerInvariant.
Import PathReservations.
Implicit Types (qs : gmap string (list Slot)).
Implicit Types (rs : gmap Handler Reservation).
Implicit Types (fn f g : Handler) (k p d : string) (q : list Slot).

#[global] Instance Slot_eq_dec : EqDecision Slot.
Proof. solve_decision. Defined.

(** Occurrences of [x] in [l]. *)
Definition occ {A} `{EqDecision A} (x : A) (l : list A) : nat :=
  length (filter (fun y => y = x) l).

(** How often [fn] stands in the queue of [k] as an exclusive entry. *)
Definition qcount (fn : Handler) (qs : gmap string (list Slot)) (k : string) : nat :=
  occ (Fn fn) (default [] (qs !! k)).

Definition known (rs : gmap Handler Reservation) (x : Slot) : Prop :=
  match x with
  | Fn f => is_Some (rs !! f)
  | Dirs l => forall f, f ∈ l -> is_Some (rs !! f)
  end.

Record Inv (s : t) : Prop := {
  inv_running : forall f, f ∈ running s -> check s f = Some true;
  inv_known : forall k q x, queues s !! k = Some q -> x ∈ q -> known (reservations s) x;
  inv_count : forall f r k, reservations s !! f = Some r ->
      (qcount f (queues s) k <= occ k (paths r))%nat;
  inv_paths : forall f r, reservations s !! f = Some r -> paths r <> [];
  inv_dirs : forall f r, reservations s !! f = Some r -> NoDup (dirs r);
}.

(** What [push_dir] makes of the queue of the directory. *)
Definition dir_pushed fn (o : option (list Slot)) : list Slot :=
  match o with
  | None => [Dirs [fn]]
  | Some q =>
      match last q with
      | Some (Dirs l) => removelast q ++ [Dirs (Set_add fn l)]
      | _ => q ++ [Dirs [fn]]
      end
  end.

Definition path_pushed fn (o : option (list Slot)) : option (list Slot) :=
  Some (default [] o ++ [Fn fn]).

Definition all_known rs (o : option (list Slot)) : Prop :=
  forall q x, o = Some q -> x ∈ q -> known rs x.

Definition popped (rest : list Slot) : option (list Slot) :=
  match rest with
  | [] => None
  | _ => Some rest
  end.

Definition path_cleared fn (o : option (list Slot)) : option (list Slot) :=
  match o with
  | Some (Fn f :: rest) => if bool_decide (f = fn) then popped rest else o
  | _ => o
  end.

Definition dir_cleared fn (o : option (list Slot)) : option (list Slot) :=
  match o with
  | Some (Dirs l :: rest) =>
      if (length l =? 1)%nat then popped rest
      else Some (Dirs (Set_delete fn l) :: rest)
  | _ => o
  end.

(** The queues once [fn] has left them. *)
Definition cleared fn (r : Reservation) (qs : gmap string (list Slot))
  : gmap string (list Slot) :=
  (foldl (clear_dir fn) (foldl (clear_path fn) (qs, []) (paths r)) (dirs r)).1.

(** What the release loops carry: the queues and the handlers to start. *)
Definition acc_known rs (acc : gmap string (list Slot) * list Handler) : Prop :=
  (forall k, all_known rs (acc.1 !! k))
  /\ (forall f, f ∈ acc.2 -> is_Some (rs !! f)).

End SchedulerInvariant.

(** The scheduler after a call, for building examples. *)
Definition reserved (h : Host) (ps : list string)
    (fn : PathReservations.Handler) (s : PathReservations.t)
  : PathReservations.t :=
  match PathReservations.reserve h ps fn s with
  | Some (_, s') => s'
  | None => s
  end.

Definition released (fn : PathReservations.Handler) (s : PathReservations.t)
  : PathReservations.t :=
  match PathReservations.clear fn s with
  | Some (_, s') => s'
  | None => s
  end.

(** ** One entry through a profile

    [ONENTRY] with the profile's [CHECKFS]; in the parallel profile the
    reservation is taken to be granted at once, so that the handler
    [CHECKFS2] follows. *)
Definition extract (h : Host) (fs : FsOutcome) (entry : ReadEntry.t)
  : Unpack.M unit :=
  Unpack.ONENTRY h
    (fun e => Unpack.CHECKFS e;; Unpack.CHECKFS2 h fs e) entry.

Definition extractSync (h : Host) (fs : FsOutcome) (entry : ReadEntry.t)
  : Unpack.M unit :=
  Unpack.ONENTRY h (UnpackSync.CHECKFS h fs) entry.

(** ** Reading a trace *)

Definition is_removal (e : Event) : bool :=
  match e with
  | Rmdir _ | UnlinkFile _ => true
  | _ => false
  end.

(** The calls on the file system and the warnings, without the
    bookkeeping of the profile (cache pruning, reservation, counters). *)
Definition is_fs_action (e : Event) : bool :=
  match e with
  | Warn _ _ | Mkdir _ _ | Lstat _ | Chmod _ _ | Rmdir _ | UnlinkFile _
  | Materialize _ => true
  | _ => false
  end.

Definition fs_actions (tr : list Event) : list Event :=
  List.filter is_fs_action tr.

(** A trace that removes nothing. *)
Definition spares (tr : list Event) : Prop :=
  forallb (fun e => negb (is_removal e)) tr = true.

(** Directory creation, the only calls before [lstat]. *)
Definition is_setup (e : Event) : Prop :=
  e = PruneCache \/ exists dir mode, e = Mkdir dir mode.

(** The reconciler's trace on an entry it reuses. *)
Definition reuses (tr : list Event) (u : Unpack.t) (entry : ReadEntry.t) : Prop :=
  exists pre,
    tr = pre ++ [Lstat (String_ (ReadEntry.absolute entry));
                 Materialize
                   (MFile (String_ (ReadEntry.absolute entry))
                      (Unpack.file_mode u entry))]
    /\ Forall is_setup pre.

(** The reconciler finds a directory where the entry is not of type
    [Directory], and is to remove it. *)
Definition removal_branch (h : Host) (fs : FsOutcome) (u : Unpack.t)
    (entry : ReadEntry.t) : bool :=
  match on_lstat fs with
  | Some st =>
      negb (Unpack.keep_existing u entry st)
      && negb (Unpack.ISREUSABLE h u entry st)
      && isDirectory st
      && negb (bool_decide (ReadEntry.type entry = Directory))
  | None => false
  end.

(** What the sanitizer leaves untouched. *)
Definition same_kind (e e' : ReadEntry.t) : Prop :=
  ReadEntry.type e' = ReadEntry.type e /\ ReadEntry.mode e' = ReadEntry.mode e.

(** ** The completion tracker as a machine *)

Inductive TrackerOp := OpPend | OpUnpend | OpDone.

#[global] Instance TrackerOp_eq_dec : EqDecision TrackerOp.
Proof. solve_decision. Defined.



Definition terminal : list Event := [Emit "prefinish"; Emit "finish"; Emit "end"].


(** ** The owner rule as the specification words it

    "The first defined of configured, entry and process id, coerced to an
    unsigned 32-bit value"; compared below with [Unpack.uint32]. *)
Definition first_defined (a b c : option Z) : option Z :=
  match a, b with
  | Some _, _ => a
  | None, Some _ => b
  | None, None => c
  end.

Definition spec_owner (a b c : option Z) : option Z :=
  JS.ToUint32 <$> first_defined a b c.

(** A number that [>>> 0] leaves as it is. *)
Definition is_uint32 (a : option Z) : bool :=
  match a with
  | Some v => (0 <=? v) && (v <? 2 ^ 32)
  | None => false
  end.

Definition first_valid (a b c : option Z) : option Z :=
  if is_uint32 a then a else if is_uint32 b then b else c.

(** ** Sample instances *)

(** [new Unpack({ cwd })] run by an ordinary user with umask 0o22. *)
Definition unpack_at (cwd : string) : Unpack.t := {|
  Unpack.ENDED := false;
  Unpack.CHECKED_CWD := false;
  Unpack.PENDING := 0;
  Unpack.uid := None;
  Unpack.gid := None;
  Unpack.preserveOwner := false;
  Unpack.processUid := None;
  Unpack.processGid := None;
  Unpack.maxDepth := Finite 1024;
  Unpack.forceChown := false;
  Unpack.win32 := false;
  Unpack.newer := false;
  Unpack.keep := false;
  Unpack.noMtime := false;
  Unpack.preservePaths := false;
  Unpack.unlink := false;
  Unpack.cwd := cwd;
  Unpack.strip := 0;
  Unpack.dmode := 493;
  Unpack.fmode := 420;
  Unpack.noChmod := false;
|}.

Definition entry_of (ty : EntryType) (path : string) (mode : option Z)
  : ReadEntry.t := {|
  ReadEntry.type := ty;
  ReadEntry.path := path;
  ReadEntry.linkpath := None;
  ReadEntry.mode := mode;
  ReadEntry.uid := None;
  ReadEntry.gid := None;
  ReadEntry.mtime := None;
  ReadEntry.atime := None;
  ReadEntry.size := 0;
  ReadEntry.absolute := None;
  ReadEntry.unsupported := false;
|}.

(** A file system on which every call succeeds and [lstat] finds [st]. *)
Definition fs_with (st : option Stats) : FsOutcome := {|
  on_mkdir_cwd := None;
  on_mkdir_parent := None;
  on_lstat := st;
  on_chmod := None;
  on_rmdir := None;
  on_unlink := None;
|}.

(** [new Unpack({ cwd, maxDepth })]. *)
Definition capped_at (cwd : string) (depth : Z) : Unpack.t := {|
  Unpack.ENDED := false;
  Unpack.CHECKED_CWD := false;
  Unpack.PENDING := 0;
  Unpack.uid := None;
  Unpack.gid := None;
  Unpack.preserveOwner := false;
  Unpack.processUid := None;
  Unpack.processGid := None;
  Unpack.maxDepth := Finite depth;
  Unpack.forceChown := false;
  Unpack.win32 := false;
  Unpack.newer := false;
  Unpack.keep := false;
  Unpack.noMtime := false;
  Unpack.preservePaths := false;
  Unpack.unlink := false;
  Unpack.cwd := cwd;
  Unpack.strip := 0;
  Unpack.dmode := 493;
  Unpack.fmode := 420;
  Unpack.noChmod := false;
|}.

(** An extraction that preserves owners, run by user 1000. *)
Definition preserving_at (cwd : string) : Unpack.t := {|
  Unpack.ENDED := false;
  Unpack.CHECKED_CWD := false;
  Unpack.PENDING := 0;
  Unpack.uid := None;
  Unpack.gid := None;
  Unpack.preserveOwner := true;
  Unpack.processUid := Some 1000;
  Unpack.processGid := Some 1000;
  Unpack.maxDepth := Finite 1024;
  Unpack.forceChown := false;
  Unpack.win32 := false;
  Unpack.newer := false;
  Unpack.keep := false;
  Unpack.noMtime := false;
  Unpack.preservePaths := false;
  Unpack.unlink := false;
  Unpack.cwd := cwd;
  Unpack.strip := 0;
  Unpack.dmode := 493;
  Unpack.fmode := 420;
  Unpack.noChmod := false;
|}.

(** An entry whose uid, 2^32 + 5, does not fit 32 bits. *)
Definition far_owner : ReadEntry.t := {|
  ReadEntry.type := File;
  ReadEntry.path := "a";
  ReadEntry.linkpath := None;
  ReadEntry.mode := Some 420;
  ReadEntry.uid := Some 4294967301;
  ReadEntry.gid := Some 0;
  ReadEntry.mtime := None;
  ReadEntry.atime := None;
  ReadEntry.size := 0;
  ReadEntry.absolute := None;
  ReadEntry.unsupported := false;
|}.

Definition a_file : Stats :=
  {| st_kind := StFile; st_nlink := 1; st_mode := 420; st_mtime := 0 |}.

(** The entry [a], sanitized, to go over that file. *)
Definition a_again : ReadEntry.t :=
  ReadEntry.set_absolute (Some "/x/a") (entry_of File "a" (Some 420)).

Definition a_directory : Stats :=
  {| st_kind := StDirectory; st_nlink := 2; st_mode := 493; st_mtime := 0 |}.

(** Two entries of one directory, reserved in turn: both handlers run. *)
Definition siblings : PathReservations.t :=
  reserved posix ["d/b"] 2%nat
    (reserved posix ["d/a"] 1%nat PathReservations.empty).

(** ** What the [strip] stage lets through *)

(** The [strip] stage keeps the entry: [strip] is 0, or the path has at
    least [strip] segments and, for a [Link], the linkpath has too. *)
Definition survives_strip (h : Host) (u : Unpack.t) (entry : ReadEntry.t)
  : Prop :=
  Unpack.strip u = 0
  \/ (Unpack.strip u
        <= Z.of_nat
             (length
                (JS.split slash (normalizeWindowsPath h (ReadEntry.path entry))))
      /\ (ReadEntry.type entry = Link ->
          Unpack.strip u
            <= Z.of_nat
                 (length
                    (JS.split slash
                       (normalizeWindowsPath h
                          (String_ (ReadEntry.linkpath entry))))))).

(** The segments of the path that [strip] leaves. *)
Definition stripped_parts (h : Host) (u : Unpack.t) (entry : ReadEntry.t)
  : list string :=
  JS.splice0 (Unpack.strip u)
    (JS.split slash (normalizeWindowsPath h (ReadEntry.path entry))).

(** [new Unpack({ cwd, strip, maxDepth })]. *)
Definition stripping_capped_at (cwd : string) (n depth : Z) : Unpack.t := {|
  Unpack.ENDED := false;
  Unpack.CHECKED_CWD := false;
  Unpack.PENDING := 0;
  Unpack.uid := None;
  Unpack.gid := None;
  Unpack.preserveOwner := false;
  Unpack.processUid := None;
  Unpack.processGid := None;
  Unpack.maxDepth := Finite depth;
  Unpack.forceChown := false;
  Unpack.win32 := false;
  Unpack.newer := false;
  Unpack.keep := false;
  Unpack.noMtime := false;
  Unpack.preservePaths := false;
  Unpack.unlink := false;
  Unpack.cwd := cwd;
  Unpack.strip := n;
  Unpack.dmode := 493;
  Unpack.fmode := 420;
  Unpack.noChmod := false;
|}.

(** A hard link seven directories deep, to [x]. *)
Definition deep_link : ReadEntry.t := {|
  ReadEntry.type := Link;
  ReadEntry.path := "a/b/c/d/e/f/g";
  ReadEntry.linkpath := Some "x";
  ReadEntry.mode := Some 420;
  ReadEntry.uid := None;
  ReadEntry.gid := None;
  ReadEntry.mtime := None;
  ReadEntry.atime := None;
  ReadEntry.size := 0;
  ReadEntry.absolute := None;
  ReadEntry.unsupported := false;
|}.

(** ** More on the scheduler *)

(** No two sets of handlers stand next to each other in a queue. *)
Fixpoint separated (q : list PathReservations.Slot) : bool :=
  match q with
  | [] => true
  | x :: rest =>
      match x, rest with
      | PathReservations.Dirs _, PathReservations.Dirs _ :: _ => false
      | _, _ => separated rest
      end
  end.

(** The scheduler serves whoever is first in line: no queue has two sets
    in a row, and a handler that passes [check] is running. *)
Record Eager (s : PathReservations.t) : Prop := {
  eager_separated : forall k q,
      PathReservations.queues s !! k = Some q -> separated q = true;
  eager_running : forall f,
      PathReservations.check s f = Some true -> f ∈ PathReservations.running s;
}.

(** The states that follow a state: further [reserve]s, each with a
    handler of its own, and releases. *)
Inductive later (h : Host) (s : PathReservations.t)
  : PathReservations.t -> Prop :=
| later_now : later h s s
| later_reserve s1 ps fn b s2 :
    later h s s1 ->
    PathReservations.reservations s1 !! fn = None ->
    PathReservations.reserve h ps fn s1 = Some (b, s2) ->
    later h s s2
| later_clear s1 fn b s2 :
    later h s s1 ->
    PathReservations.clear fn s1 = Some (b, s2) ->
    later h s s2.

(** The states that follow a state by any [reserve]s and releases, with
    the handlers that were reserved on the way, the last one first. *)
Inductive follows (h : Host) (s : PathReservations.t)
  : list PathReservations.Handler -> PathReservations.t -> Prop :=
| follows_now : follows h s [] s
| follows_reserve s1 fns ps fn b s2 :
    follows h s fns s1 ->
    PathReservations.reserve h ps fn s1 = Some (b, s2) ->
    follows h s (fn :: fns) s2
| follows_clear s1 fns fn b s2 :
    follows h s fns s1 ->
    PathReservations.clear fn s1 = Some (b, s2) ->
    follows h s fns s2.

(** A Windows host, as far as the scheduler looks at it. *)
Definition windows : Host := {|
  isWindows := true;
  normalizeWindowsPath := normalizeWindowsPath posix;
  stripAbsolutePath := stripAbsolutePath posix;
  normalizeUnicode := normalizeUnicode posix;
  stripTrailingSlashes := stripTrailingSlashes posix;
  toLowerCase := toLowerCase posix;
  wc_encode := wc_encode posix;
  path_isAbsolute := path_isAbsolute posix;
  path_resolve := path_resolve posix;
  path_dirname := path_dirname posix;
  win32_root := win32_root posix;
|}.

(** A queue, or none, with no two sets in a row. *)
Definition sep (o : option (list PathReservations.Slot)) : Prop :=
  separated (default [] o) = true.

(** What the release loops hand on: whoever they put first in a line is
    among the handlers to start. *)
Definition gains (acc acc' : gmap string (list PathReservations.Slot)
                       * list PathReservations.Handler) : Prop :=
  (forall f, f ∈ acc.2 -> f ∈ acc'.2)
  /\ (forall f k, PathReservations.first_is f (acc'.1 !! k) = true ->
                  PathReservations.first_is f (acc.1 !! k) = true \/ f ∈ acc'.2)
  /\ (forall f k, PathReservations.first_has f (acc'.1 !! k) = true ->
                  PathReservations.first_has f (acc.1 !! k) = true \/ f ∈ acc'.2).

(** ** More on the sanitizer and the reconciler *)

Definition is_warning (e : Event) : Prop := exists code msg, e = Warn code msg.

(** [new Unpack({ cwd, strip })]. *)
Definition stripping_at (cwd : string) (n : Z) : Unpack.t := {|
  Unpack.ENDED := false;
  Unpack.CHECKED_CWD := false;
  Unpack.PENDING := 0;
  Unpack.uid := None;
  Unpack.gid := None;
  Unpack.preserveOwner := false;
  Unpack.processUid := None;
  Unpack.processGid := None;
  Unpack.maxDepth := Finite 1024;
  Unpack.forceChown := false;
  Unpack.win32 := false;
  Unpack.newer := false;
  Unpack.keep := false;
  Unpack.noMtime := false;
  Unpack.preservePaths := false;
  Unpack.unlink := false;
  Unpack.cwd := cwd;
  Unpack.strip := n;
  Unpack.dmode := 493;
  Unpack.fmode := 420;
  Unpack.noChmod := false;
|}.

(** A call that changes what is on the disk at the entry's path. *)
Definition alters (e : Event) : bool :=
  match e with
  | Chmod _ _ | Rmdir _ | UnlinkFile _ | Materialize _ => true
  | _ => false
  end.

Definition is_materialize (e : Event) : bool :=
  match e with
  | Materialize _ => true
  | _ => false
  end.

(** How often a trace hands the entry to a materializer. *)
Definition materializations (tr : list Event) : Z :=
  Z.of_nat (length (List.filter is_materialize tr)).

(** The types [ONENTRY] passes on to [CHECKFS]. *)
Definition supported (ty : EntryType) : bool :=
  match ty with
  | File | OldFile | ContiguousFile | Link | SymbolicLink | Directory
  | GNUDumpDir => true
  | _ => false
  end.

(** No call of the reconciliation fails with a [CwdError]. *)
Definition recoverable (fs : FsOutcome) : Prop :=
  forall er,
    Some er ∈ [on_mkdir_cwd fs; on_mkdir_parent fs; on_chmod fs; on_rmdir fs;
               on_unlink fs] ->
    er_name er <> "CwdError".

(** The reconciliation from the point where the directories are made:
    [afterMakeParent], or the report of a failed [mkdir]. *)
Definition reconciled (h : Host) (fs : FsOutcome) (entry : ReadEntry.t)
    (k : Unpack.M unit) : Prop :=
  k = Unpack.afterMakeParent h fs entry
  \/ exists er,
       (on_mkdir_cwd fs = Some er \/ on_mkdir_parent fs = Some er)
       /\ k = (Unpack.ONERROR er;; Unpack.CHECKFS2_done).

Definition ENOTEMPTY : JsError :=
  {| er_name := "Error"; er_message := "ENOTEMPTY: directory not empty" |}.

(** The entry [d], sanitized, to go to [/x/d]. *)
Definition d_file : ReadEntry.t :=
  ReadEntry.set_absolute (Some "/x/d") (entry_of File "d" (Some 420)).

(** [new Unpack({ cwd, keep: true })]. *)
Definition keeping_at (cwd : string) : Unpack.t := {|
  Unpack.ENDED := false;
  Unpack.CHECKED_CWD := false;
  Unpack.PENDING := 0;
  Unpack.uid := None;
  Unpack.gid := None;
  Unpack.preserveOwner := false;
  Unpack.processUid := None;
  Unpack.processGid := None;
  Unpack.maxDepth := Finite 1024;
  Unpack.forceChown := false;
  Unpack.win32 := false;
  Unpack.newer := false;
  Unpack.keep := true;
  Unpack.noMtime := false;
  Unpack.preservePaths := false;
  Unpack.unlink := false;
  Unpack.cwd := cwd;
  Unpack.strip := 0;
  Unpack.dmode := 493;
  Unpack.fmode := 420;
  Unpack.noChmod := false;
|}.

(** An outcome in which [rmdir] fails. *)
Definition fs_rmdir_fails (st : Stats) (er : JsError) : FsOutcome := {|
  on_mkdir_cwd := None;
  on_mkdir_parent := None;
  on_lstat := Some st;
  on_chmod := None;
  on_rmdir := Some er;
  on_unlink := None;
|}.

(** What [afterMakeParent] does between [lstat] and [MAKEFS]: the call it
    makes on the existing object, if any, and the error it hands on. *)
Definition decided (fs : FsOutcome) (entry : ReadEntry.t) (u : Unpack.t)
    (call : list Event) (er : option JsError) : Prop :=
  let abs := String_ (ReadEntry.absolute entry) in
  (call = [] /\ er = None)
  \/ (exists st,
        on_lstat fs = Some st /\ isDirectory st = true
        /\ ReadEntry.type entry = Directory
        /\ call = [Chmod abs (default 0 (ReadEntry.mode entry))]
        /\ er = on_chmod fs)
  \/ (exists st,
        on_lstat fs = Some st /\ isDirectory st = true
        /\ ReadEntry.type entry <> Directory
        /\ Unpack.is_cwd u entry = false
        /\ call = [Rmdir abs] /\ er = on_rmdir fs)
  \/ (exists st,
        on_lstat fs = Some st
        /\ (isDirectory st = true -> ReadEntry.type entry <> Directory)
        /\ Unpack.is_cwd u entry = false
        /\ call = [UnlinkFile abs] /\ er = on_unlink fs).

(** The entry has gone to a materializer, which will complete it. *)
Definition handed_over (k : Unpack.M unit) (u : Unpack.t) : Prop :=
  materializations (Unpack.trace k u) = 1
  /\ Unpack.PENDING (Unpack.after k u) = Unpack.PENDING u
  /\ occ Release (Unpack.trace k u) = 0%nat.

(** The entry is completed: counted off and its reservation released. *)
Definition closed (k : Unpack.M unit) (u : Unpack.t) : Prop :=
  materializations (Unpack.trace k u) = 0
  /\ Unpack.PENDING (Unpack.after k u) = Unpack.PENDING u - 1
  /\ occ Release (Unpack.trace k u) = 1%nat.

(** ** The constructor of [Unpack]

    [TarOptions] as far as the constructor reads them, and what it asks of
    [process]; a missing [process.getuid] (as on Windows) is [None]. *)

Module Options.

Record t := mk {
  uid : option Z;
  gid : option Z;
  preserveOwner : option bool;
  maxDepth : option DepthLimit;
  forceChown : option bool;
  win32 : option bool;
  newer : option bool;
  keep : option bool;
  noMtime : option bool;
  preservePaths : option bool;
  unlink : option bool;
  noChmod : option bool;
  cwd : option string;
  strip : option Z;
  umask : option Z;
  dmode : option Z;
  fmode : option Z;
}.

(** [{}]. *)
Definition none : t :=
  mk None None None None None None None None None None None None None None
     None None None.

End Options.

Record Process := {
  getuid : option Z;
  getgid : option Z;
  process_umask : Z;
  process_cwd : string;
}.

Inductive Thrown := TypeError (message : string).

(** [!!x] of a [boolean | undefined]. *)
Definition truthy_bool (x : option bool) : bool := default false x.

(** [x || y] on numbers and on strings. *)
Definition or_number (x : option Z) (y : Z) : Z :=
  match x with
  | Some v => if v =? 0 then y else v
  | None => y
  end.

Definition or_string (x : option string) (y : string) : string :=
  match x with
  | Some v => if String.eqb v "" then y else v
  | None => y
  end.

(** [~x]. *)
Definition bitnot (x : Z) : Z := Z.lnot (JS.ToInt32 x).

Definition is_number (x : option Z) : bool :=
  match x with
  | Some _ => true
  | None => false
  end.

(** [new Unpack(opt)]; the fields [setOwner], [processUmask] and [umask],
    which only the constructor reads back, are local here. *)
Definition new_Unpack (h : Host) (process : Process) (opt : Options.t)
  : Thrown + Unpack.t :=
  let owner : Thrown + (option Z * option Z * bool) :=
    if is_number (Options.uid opt) || is_number (Options.gid opt) then
      if negb (is_number (Options.uid opt)) || negb (is_number (Options.gid opt))
      then inl (TypeError "cannot set owner without number uid and gid")
      else if truthy_bool (Options.preserveOwner opt) then
        inl (TypeError
               "cannot preserve owner in archive and also set owner explicitly")
      else inr (Options.uid opt, Options.gid opt, true)
    else inr (None, None, false) in
  match owner with
  | inl e => inl e
  | inr (uid, gid, setOwner) =>
      let preserveOwner :=
        match Options.preserveOwner opt, Options.uid opt with
        | None, None => bool_decide (getuid process = Some 0)
        | _, _ => truthy_bool (Options.preserveOwner opt)
        end in
      let processUid :=
        if preserveOwner || setOwner then getuid process else None in
      let processGid :=
        if preserveOwner || setOwner then getgid process else None in
      let processUmask :=
        if truthy_bool (Options.noChmod opt) then 0 else process_umask process in
      let umask := default processUmask (Options.umask opt) in
      inr {|
        Unpack.ENDED := false;
        Unpack.CHECKED_CWD := false;
        Unpack.PENDING := 0;
        Unpack.uid := uid;
        Unpack.gid := gid;
        Unpack.preserveOwner := preserveOwner;
        Unpack.processUid := processUid;
        Unpack.processGid := processGid;
        Unpack.maxDepth := default (Finite 1024) (Options.maxDepth opt);
        Unpack.forceChown := bool_decide (Options.forceChown opt = Some true);
        Unpack.win32 := truthy_bool (Options.win32 opt) || isWindows h;
        Unpack.newer := truthy_bool (Options.newer opt);
        Unpack.keep := truthy_bool (Options.keep opt);
        Unpack.noMtime := truthy_bool (Options.noMtime opt);
        Unpack.preservePaths := truthy_bool (Options.preservePaths opt);
        Unpack.unlink := truthy_bool (Options.unlink opt);
        Unpack.cwd :=
          normalizeWindowsPath h
            (path_resolve h
               [or_string (Options.cwd opt) (process_cwd process)]);
        Unpack.strip := or_number (Options.strip opt) 0;
        Unpack.dmode :=
          or_number (Options.dmode opt) (JS.bitand 511 (bitnot umask));
        Unpack.fmode :=
          or_number (Options.fmode opt) (JS.bitand 438 (bitnot umask));
        Unpack.noChmod := truthy_bool (Options.noChmod opt);
      |}
  end.

(** An ordinary user with umask 0o22, in [/x]. *)
Definition user_process : Process :=
  {| getuid := Some 1000; getgid := Some 1000; process_umask := 18;
     process_cwd := "/x" |}.

(** [{ uid: 33, gid: 33 }]. *)
Definition owner_options : Options.t :=
  Options.mk (Some 33) (Some 33) None None None None None None None None None
    None None None None None None.

(** What the constructor makes of [{ uid, gid }] for the ordinary user. *)
Definition unpack_at_as (cwd : string) (id : Z) : Unpack.t := {|
  Unpack.ENDED := false;
  Unpack.CHECKED_CWD := false;
  Unpack.PENDING := 0;
  Unpack.uid := Some id;
  Unpack.gid := Some id;
  Unpack.preserveOwner := false;
  Unpack.processUid := Some 1000;
  Unpack.processGid := Some 1000;
  Unpack.maxDepth := Finite 1024;
  Unpack.forceChown := false;
  Unpack.win32 := false;
  Unpack.newer := false;
  Unpack.keep := false;
  Unpack.noMtime := false;
  Unpack.preservePaths := false;
  Unpack.unlink := false;
  Unpack.cwd := cwd;
  Unpack.strip := 0;
  Unpack.dmode := 493;
  Unpack.fmode := 420;
  Unpack.noChmod := false;
|}.

(** ** The directory cache: [cacheKeyNormalize], [pruneCache],
    [dropCache], [PRUNECACHE]

    The cache is a [Map<string, boolean>]; the loops delete from it while
    they go over its keys, which in a [Map] reaches every key that was
    there. *)

Definition cacheKeyNormalize (h : Host) (path : string) : string :=
  toLowerCase h
    (stripTrailingSlashes h (normalizeWindowsPath h (normalizeUnicode h path))).

(** [pnorm === abs || pnorm.indexOf(abs + '/') === 0]. *)
Definition at_or_under (abs pnorm : string) : bool :=
  String.eqb pnorm abs || JS.starts_with (abs +:+ "/") pnorm.

Definition pruneCache (h : Host) (cache : gmap string bool) (abs : string)
  : gmap string bool :=
  let abs := cacheKeyNormalize h abs in
  filter (fun kv => at_or_under abs (cacheKeyNormalize h kv.1) = false) cache.

Definition dropCache (cache : gmap string bool) : gmap string bool :=
  filter (fun _ => False) cache.

Definition PRUNECACHE (h : Host) (entry : ReadEntry.t)
    (dirCache : gmap string bool) : gmap string bool :=
  if decide (ReadEntry.type entry = SymbolicLink) then dropCache dirCache
  else if decide (ReadEntry.type entry <> Directory) then
    pruneCache h dirCache (String_ (ReadEntry.absolute entry))
  else dirCache.

(** ** The materializers: [FILE], [DIRECTORY], [LINK]

    What [MAKEFS] dispatches to, in both profiles, from the point where
    the data has been written: the calls on the file system, given their
    outcomes, and the completion of the entry.  [FsMkdir] is the call of
    [MKDIR], which hands the directory and the mode to [mkdir.js]; the
    write stream, its ['error'] handler and the transform are not part of
    it.  The callbacks of [fs] run one at a time, each to its end, as on
    the event loop. *)

Module Materializers.
Import Unpack.

(** How the calls of one materialization end; [now] is [new Date()]. *)
Record Outcome := {
  on_mkdir : option JsError;
  on_utimes : option JsError;
  on_chown : option JsError;
  on_futimes : option JsError;
  on_fchown : option JsError;
  on_close : option JsError;
  on_link : option JsError;
  now : Z;
}.

(** A call on [fs] (an owner id that is not a number is [None]), the
    callback [done] or [fullyDone], or what [ONERROR], [UNPEND] and
    [entry.resume()] do.  [FsChownThrows] is a call of [fs.chown] with an
    id that is not a number: [Number(undefined)] is [NaN], which
    [fs.chown] refuses with an exception before it starts anything. *)
Inductive Call :=
| FsMkdir (dir : string) (mode : Z)
| FsUtimes (p : string) (atime mtime : Z)
| FsFutimes (fd : Z) (atime mtime : Z)
| FsChown (p : string) (uid gid : option Z)
| FsChownThrows (p : string) (uid gid : option Z)
| FsFchown (fd : Z) (uid gid : option Z)
| FsClose (fd : Z)
| FsLink (link : string) (linkpath abs : string)
| Done
| Did (e : Event).

#[global] Instance Call_eq_dec : EqDecision Call.
Proof. solve_decision. Defined.

Definition K (A : Type) : Type := Unpack.t -> A * Unpack.t * list Call.

#[global] Instance K_ret : MRet K := fun A (a : A) u => (a, u, []).
#[global] Instance K_bind : MBind K := fun A B (k : A -> K B) (m : K A) u =>
  let '(a, u1, tr1) := m u in
  let '(b, u2, tr2) := k a u1 in
  (b, u2, tr1 ++ tr2).

Definition self : K Unpack.t := fun u => (u, u, []).
Definition call (c : Call) : K unit := fun u => (tt, u, [c]).
Definition lift {A} (m : M A) : K A := fun u =>
  let '(a, u1, tr) := m u in (a, u1, Did <$> tr).

Definition calls {A} (k : K A) (u : Unpack.t) : list Call := (k u).2.
Definition leaves {A} (k : K A) (u : Unpack.t) : Unpack.t := (k u).1.2.

(** A callback handed to [fs], waiting with the counter [actions]. *)
Definition Callback : Type := Z -> K Z.

(** The callbacks come back one after the other. *)
Fixpoint fire (cbs : list Callback) (actions : Z) : K Z :=
  match cbs with
  | [] => mret actions
  | cb :: rest => a ← cb actions; fire rest a
  end.

(** [entry.mtime && !this.noMtime]; a [Date] is truthy. *)
Definition sets_times (u : Unpack.t) (entry : ReadEntry.t) : option Z :=
  if noMtime u then None else ReadEntry.mtime entry.

(** [entry.atime || new Date()]. *)
Definition atime_of (o : Outcome) (entry : ReadEntry.t) : Z :=
  default (now o) (ReadEntry.atime entry).

(** *** [Unpack[DIRECTORY]] *)

(** Its closure [done]. *)
Definition DIRECTORY_done : Callback := fun actions =>
  let actions := actions - 1 in
  if actions =? 0 then
    call Done;; lift UNPEND;; lift (act Resume);; mret actions
  else mret actions.

(** Up to the return of the callback of [MKDIR]: the counter, and the
    callbacks that are out.  [fs.chown] is called with [Number] of the
    ids, with no test that they are numbers: when one is not, the call
    throws, and the [done()] that ends the callback is not reached. *)
Definition DIRECTORY (h : Host) (o : Outcome) (entry : ReadEntry.t)
  : K (Z * list Callback) :=
  u ← self;
  let abs := String_ (ReadEntry.absolute entry) in
  call (FsMkdir (normalizeWindowsPath h abs) (directory_mode u entry));;
  match on_mkdir o with
  | Some er => lift (ONERROR er);; call Done;; mret (0, [])
  | None =>
      let actions := 1 in
      '(actions, cbs) ←
        match sets_times u entry with
        | Some mtime =>
            call (FsUtimes abs (atime_of o entry) mtime);;
            mret (actions + 1, [DIRECTORY_done])
        | None => mret (actions, [])
        end;
      '(actions, cbs, thrown) ←
        (if DOCHOWN u entry then
           let actions := actions + 1 in
           match UID u entry, GID u entry with
           | Some uid, Some gid =>
               call (FsChown abs (Some uid) (Some gid));;
               mret (actions, cbs ++ [DIRECTORY_done], false)
           | uid, gid =>
               call (FsChownThrows abs uid gid);;
               mret (actions, cbs, true)
           end
         else mret (actions, cbs, false));
      if thrown : bool then mret (actions, cbs)
      else
        actions ← DIRECTORY_done actions;
        mret (actions, cbs)
  end.

(** The materialization to its end. *)
Definition DIRECTORY_run (h : Host) (o : Outcome) (entry : ReadEntry.t)
  : K Z :=
  '(actions, cbs) ← DIRECTORY h o entry;
  fire cbs actions.

(** *** [Unpack[LINK]], [SYMLINK], [HARDLINK] *)

Definition LINK (o : Outcome) (entry : ReadEntry.t) (linkpath link : string)
  : K unit :=
  call (FsLink link linkpath (String_ (ReadEntry.absolute entry)));;
  match on_link o with
  | Some er => lift (ONERROR er)
  | None => lift UNPEND;; lift (act Resume)
  end;;
  call Done.

Definition SYMLINK (o : Outcome) (entry : ReadEntry.t) : K unit :=
  LINK o entry (String_ (ReadEntry.linkpath entry)) "symlink".

Definition HARDLINK (h : Host) (o : Outcome) (entry : ReadEntry.t) : K unit :=
  u ← self;
  LINK o entry
    (normalizeWindowsPath h
       (path_resolve h [cwd u; String_ (ReadEntry.linkpath entry)]))
    "link".

(** *** [Unpack[FILE]], from the ['finish'] of the write stream

    [fd] is [stream.fd]. *)

(** Its closure [done]. *)
Definition FILE_done (o : Outcome) (fd : option Z) (er : option JsError)
  : Callback := fun actions =>
  match er with
  | Some er =>
      match fd with
      | Some n => if n =? 0 then mret tt else call (FsClose n)
      | None => mret tt
      end;;
      lift (ONERROR er);; call Done;; mret actions
  | None =>
      let actions := actions - 1 in
      if actions =? 0 then
        match fd with
        | Some n =>
            call (FsClose n);;
            match on_close o with
            | Some er => lift (ONERROR er)
            | None => lift UNPEND
            end;;
            call Done;; mret actions
        | None => mret actions
        end
      else mret actions
  end.

(** The callback of [fs.futimes], which falls back on [fs.utimes], and
    that of [fs.fchown], which falls back on [fs.chown]. *)
Definition FILE_after_futimes (o : Outcome) (entry : ReadEntry.t)
    (fd : option Z) (atime mtime : Z) : Callback := fun actions =>
  match on_futimes o with
  | Some er =>
      call (FsUtimes (String_ (ReadEntry.absolute entry)) atime mtime);;
      FILE_done o fd (match on_utimes o with Some _ => Some er | None => None end)
        actions
  | None => FILE_done o fd None actions
  end.

Definition FILE_after_fchown (o : Outcome) (entry : ReadEntry.t)
    (fd : option Z) (uid gid : Z) : Callback := fun actions =>
  match on_fchown o with
  | Some er =>
      call (FsChown (String_ (ReadEntry.absolute entry)) (Some uid) (Some gid));;
      FILE_done o fd (match on_chown o with Some _ => Some er | None => None end)
        actions
  | None => FILE_done o fd None actions
  end.

(** The handler of ['finish']. *)
Definition FILE_finish (o : Outcome) (entry : ReadEntry.t) (fd : option Z)
  : K (Z * list Callback) :=
  u ← self;
  let actions := 1 in
  '(actions, cbs) ←
    match fd, sets_times u entry with
    | Some n, Some mtime =>
        call (FsFutimes n (atime_of o entry) mtime);;
        mret (actions + 1,
              [FILE_after_futimes o entry fd (atime_of o entry) mtime])
    | _, _ => mret (actions, [])
    end;
  '(actions, cbs) ←
    match fd with
    | Some n =>
        if DOCHOWN u entry then
          let actions := actions + 1 in
          match UID u entry, GID u entry with
          | Some uid, Some gid =>
              call (FsFchown n (Some uid) (Some gid));;
              mret (actions, cbs ++ [FILE_after_fchown o entry fd uid gid])
          | _, _ => mret (actions, cbs)
          end
        else mret (actions, cbs)
    | None => mret (actions, cbs)
    end;
  actions ← FILE_done o fd None actions;
  mret (actions, cbs).

(** From ['finish'] to the end, the callbacks coming back in the order
    they went out, or in the other. *)
Definition FILE_run (o : Outcome) (entry : ReadEntry.t) (fd : option Z)
    (swapped : bool) : K Z :=
  '(actions, cbs) ← FILE_finish o entry fd;
  fire (if swapped then reverse cbs else cbs) actions.

End Materializers.

(** *** The materializers of [UnpackSync] *)

Module MaterializersSync.
Import Unpack Materializers.

Definition DIRECTORY (h : Host) (o : Outcome) (entry : ReadEntry.t) : K unit :=
  u ← self;
  let abs := String_ (ReadEntry.absolute entry) in
  call (FsMkdir (normalizeWindowsPath h abs) (directory_mode u entry));;
  match on_mkdir o with
  | Some er => lift (ONERROR er);; call Done
  | None =>
      match sets_times u entry with
      | Some mtime => call (FsUtimes abs (atime_of o entry) mtime)
      | None => mret tt
      end;;
      (if DOCHOWN u entry then call (FsChown abs (UID u entry) (GID u entry))
       else mret tt);;
      call Done;;
      lift (act Resume)
  end.

Definition LINK (o : Outcome) (entry : ReadEntry.t) (linkpath link : string)
  : K unit :=
  call (FsLink (link +:+ "Sync") linkpath (String_ (ReadEntry.absolute entry)));;
  match on_link o with
  | Some er => lift (ONERROR er)
  | None => call Done;; lift (act Resume)
  end.

(** [oner], the closure of [FILE]. *)
Definition FILE_oner (o : Outcome) (fd : Z) (er : option JsError) : K unit :=
  call (FsClose fd);;
  match er, on_close o with
  | Some e, _ => lift (ONERROR e)
  | None, Some closeError => lift (ONERROR closeError)
  | None, None => mret tt
  end;;
  call Done.

(** The handler of ['end'], with the file open at [fd]. *)
Definition FILE_end (o : Outcome) (entry : ReadEntry.t) (fd : Z) : K unit :=
  u ← self;
  let abs := String_ (ReadEntry.absolute entry) in
  er ←
    match sets_times u entry with
    | Some mtime =>
        call (FsFutimes fd (atime_of o entry) mtime);;
        match on_futimes o with
        | Some futimeser =>
            call (FsUtimes abs (atime_of o entry) mtime);;
            mret (match on_utimes o with
                  | Some _ => Some futimeser
                  | None => None
                  end)
        | None => mret None
        end
    | None => mret None
    end;
  er ←
    (if DOCHOWN u entry then
       call (FsFchown fd (UID u entry) (GID u entry));;
       match on_fchown o with
       | Some fchowner =>
           call (FsChown abs (UID u entry) (GID u entry));;
           mret (match on_chown o with
                 | Some _ => match er with Some _ => er | None => Some fchowner end
                 | None => er
                 end)
       | None => mret er
       end
     else mret er);
  FILE_oner o fd er.

End MaterializersSync.

(** ** Reading what a materializer did *)

Definition is_done (c : Materializers.Call) : bool :=
  match c with
  | Materializers.Done => true
  | _ => false
  end.

(** How often the callback [done] (or [fullyDone]) was called. *)
Definition completions (tr : list Materializers.Call) : nat :=
  length (List.filter is_done tr).

(** No call of the materialization fails with a [CwdError]. *)
Definition materializable (o : Materializers.Outcome) : Prop :=
  forall er,
    Some er ∈ [Materializers.on_mkdir o; Materializers.on_utimes o;
               Materializers.on_chown o; Materializers.on_futimes o;
               Materializers.on_fchown o; Materializers.on_close o;
               Materializers.on_link o] ->
    er_name er <> "CwdError".

(** Every call succeeds, at time 1000. *)
Definition all_well : Materializers.Outcome := {|
  Materializers.on_mkdir := None;
  Materializers.on_utimes := None;
  Materializers.on_chown := None;
  Materializers.on_futimes := None;
  Materializers.on_fchown := None;
  Materializers.on_close := None;
  Materializers.on_link := None;
  Materializers.now := 1000;
|}.

Definition EPERM : JsError :=
  {| er_name := "Error"; er_message := "EPERM: operation not permitted" |}.

(** Setting the time and the owner both fail, with their fallbacks. *)
Definition all_refused : Materializers.Outcome := {|
  Materializers.on_mkdir := None;
  Materializers.on_utimes := Some EPERM;
  Materializers.on_chown := Some EPERM;
  Materializers.on_futimes := Some EPERM;
  Materializers.on_fchown := Some EPERM;
  Materializers.on_close := None;
  Materializers.on_link := None;
  Materializers.now := 1000;
|}.

(** The file [a] of user 33, last modified at time 500. *)
Definition dated_file : ReadEntry.t := {|
  ReadEntry.type := File;
  ReadEntry.path := "a";
  ReadEntry.linkpath := None;
  ReadEntry.mode := Some 420;
  ReadEntry.uid := Some 33;
  ReadEntry.gid := Some 33;
  ReadEntry.mtime := Some 500;
  ReadEntry.atime := None;
  ReadEntry.size := 0;
  ReadEntry.absolute := Some "/x/a";
  ReadEntry.unsupported := false;
|}.

(** The same without owner ids. *)
Definition ownerless_file : ReadEntry.t := {|
  ReadEntry.type := File;
  ReadEntry.path := "a";
  ReadEntry.linkpath := None;
  ReadEntry.mode := Some 420;
  ReadEntry.uid := None;
  ReadEntry.gid := None;
  ReadEntry.mtime := None;
  ReadEntry.atime := None;
  ReadEntry.size := 0;
  ReadEntry.absolute := Some "/x/a";
  ReadEntry.unsupported := false;
|}.

(** A directory [d], last modified at time 500, without owner ids. *)
Definition ownerless_dir : ReadEntry.t := {|
  ReadEntry.type := Directory;
  ReadEntry.path := "d";
  ReadEntry.linkpath := None;
  ReadEntry.mode := Some 493;
  ReadEntry.uid := None;
  ReadEntry.gid := None;
  ReadEntry.mtime := Some 500;
  ReadEntry.atime := None;
  ReadEntry.size := 0;
  ReadEntry.absolute := Some "/x/d";
  ReadEntry.unsupported := false;
|}.

(** [new Unpack({ cwd, forceChown: true })] run by an ordinary user. *)
Definition forcing_at (cwd : string) : Unpack.t := {|
  Unpack.ENDED := false;
  Unpack.CHECKED_CWD := false;
  Unpack.PENDING := 0;
  Unpack.uid := None;
  Unpack.gid := None;
  Unpack.preserveOwner := false;
  Unpack.processUid := None;
  Unpack.processGid := None;
  Unpack.maxDepth := Finite 1024;
  Unpack.forceChown := true;
  Unpack.win32 := false;
  Unpack.newer := false;
  Unpack.keep := false;
  Unpack.noMtime := false;
  Unpack.preservePaths := false;
  Unpack.unlink := false;
  Unpack.cwd := cwd;
  Unpack.strip := 0;
  Unpack.dmode := 493;
  Unpack.fmode := 420;
  Unpack.noChmod := false;
|}.

(** Setting the times through the descriptor fails, by the path it
    works; the owner is set at once. *)
Definition late_utimes : Materializers.Outcome := {|
  Materializers.on_mkdir := None;
  Materializers.on_utimes := None;
  Materializers.on_chown := None;
  Materializers.on_futimes := Some EPERM;
  Materializers.on_fchown := None;
  Materializers.on_close := None;
  Materializers.on_link := None;
  Materializers.now := 1000;
|}.

(** The link [l] to [a]. *)
Definition a_link : ReadEntry.t := {|
  ReadEntry.type := SymbolicLink;
  ReadEntry.path := "l";
  ReadEntry.linkpath := Some "a";
  ReadEntry.mode := Some 511;
  ReadEntry.uid := Some 33;
  ReadEntry.gid := Some 33;
  ReadEntry.mtime := Some 500;
  ReadEntry.atime := None;
  ReadEntry.size := 0;
  ReadEntry.absolute := Some "/x/l";
  ReadEntry.unsupported := false;
|}.

(** A chain fails when the call on the descriptor and its fallback on
    the path both fail: [done(er2 && er)]. *)
Definition chain_fails (first fallback : option JsError) : bool :=
  match first, fallback with
  | Some _, Some _ => true
  | _, _ => false
  end.

(** How often [Unpack[FILE]] reports the entry, by the calls it makes and
    the chains that fail. *)
Definition FILE_reports (u : Unpack.t) (entry : ReadEntry.t)
    (o : Materializers.Outcome) : nat :=
  let times :=
    chain_fails (Materializers.on_futimes o) (Materializers.on_utimes o) in
  let owner :=
    chain_fails (Materializers.on_fchown o) (Materializers.on_chown o) in
  match Materializers.sets_times u entry, Unpack.DOCHOWN u entry with
  | None, false => 1
  | Some _, false => 1
  | None, true =>
      match Unpack.UID u entry, Unpack.GID u entry with
      | Some _, Some _ => 1
      | _, _ => 0
      end
  | Some _, true =>
      match Unpack.UID u entry, Unpack.GID u entry with
      | Some _, Some _ => if times && owner then 2 else 1
      | _, _ => if times then 1 else 0
      end
  end.

(** What a run of a materializer comes to: how often it calls [done],
    by how much it lowers [PENDING], and what it returns. *)
Definition comes_to {A} (k : Materializers.K A) (u : Unpack.t) (dones : nat)
    (drop : Z) (r : A) : Prop :=
  completions (Materializers.calls k u) = dones
  /\ Unpack.PENDING (Materializers.leaves k u) = Unpack.PENDING u - drop
  /\ (k u).1.1 = r.

(* ================================================================== *)
(** * Part II. Properties *)
(* ================================================================== *)

Example split_demo : JS.split slash "a/b//c/" = ["a"; "b"; ""; "c"; ""].
Proof. reflexivity. Qed.

Example getDirs_of_spec : getDirs "/a/b/c" = ["/"; "/a"; "/a/b"].
Proof. vm_compute. reflexivity. Qed.


(** ** Owner ids: [uint32], [UID], [GID] *)

Lemma ToUint32_fixed v : (v =? JS.ToUint32 v) = (0 <=? v) && (v <? 2 ^ 32).
Proof.
  unfold JS.ToUint32.
  destruct (Z.eqb_spec v (v mod 2 ^ 32)) as [E | E].
  - symmetry. apply andb_true_iff.
    pose proof (Z.mod_pos_bound v (2 ^ 32) ltac:(lia)).
    split; [apply Z.leb_le | apply Z.ltb_lt]; lia.
  - symmetry. apply andb_false_iff.
    destruct (Z.leb_spec 0 v); [right | left; reflexivity].
    apply Z.ltb_ge. destruct (Z.lt_ge_cases v (2 ^ 32)); [| lia].
    exfalso. apply E. symmetry. apply Z.mod_small. lia.
Qed.

Lemma uint32_first_valid a b c : Unpack.uint32 a b c = first_valid a b c.
Proof.
  unfold Unpack.uint32, first_valid, is_uint32.
  destruct a as [av |], b as [bv |]; rewrite ?ToUint32_fixed;
    repeat case_match; reflexivity.
Qed.

(** C7, as the code has it: the id applied is the configured id when that
    is a number in the unsigned 32-bit range, else the entry's id on the
    same test, else the process id as it is.  An id that is out of range
    is passed over, never coerced. *)
Theorem UID_GID_first_valid (u : Unpack.t) (entry : ReadEntry.t) :
  Unpack.UID u entry
    = first_valid (Unpack.uid u) (ReadEntry.uid entry) (Unpack.processUid u)
  /\ Unpack.GID u entry
    = first_valid (Unpack.gid u) (ReadEntry.gid entry) (Unpack.processGid u).
Proof. split; apply uint32_first_valid. Qed.

(** C7, as stated, fails: an entry uid of 2^32 + 5 is passed over for the
    process uid 1000, where the first defined id coerced to 32 bits is 5. *)
Lemma UID_is_not_first_defined_coerced :
  Unpack.UID (preserving_at "/x") far_owner = Some 1000
  /\ spec_owner (Unpack.uid (preserving_at "/x")) (ReadEntry.uid far_owner)
       (Unpack.processUid (preserving_at "/x"))
     = Some 5.
Proof. split; reflexivity. Qed.

(** ** Running a method: traces and states *)

Section Running.
Import Unpack.

Lemma trace_bind {A B} (m : M A) (k : A -> M B) u :
  trace (m ≫= k) u = trace m u ++ trace (k (m u).1.1) (after m u).
Proof.
  unfold trace, after, mbind, M_bind.
  destruct (m u) as [[a u1] tr1]. simpl.
  destruct (k a u1) as [[b u2] tr2]. reflexivity.
Qed.

Lemma after_bind {A B} (m : M A) (k : A -> M B) u :
  after (m ≫= k) u = after (k (m u).1.1) (after m u).
Proof.
  unfold trace, after, mbind, M_bind.
  destruct (m u) as [[a u1] tr1]. simpl.
  destruct (k a u1) as [[b u2] tr2]. reflexivity.
Qed.

Lemma after_this u : after this u = u.
Proof. reflexivity. Qed.
Lemma result_this u : (this u).1.1 = u.
Proof. reflexivity. Qed.
Lemma trace_this u : trace this u = [].
Proof. reflexivity. Qed.
Lemma after_act e u : after (act e) u = u.
Proof. reflexivity. Qed.
Lemma trace_act e u : trace (act e) u = [e].
Proof. reflexivity. Qed.
Lemma after_assign f u : after (assign f) u = f u.
Proof. reflexivity. Qed.
Lemma trace_assign f u : trace (assign f) u = [].
Proof. reflexivity. Qed.

Lemma fs_actions_app tr1 tr2 :
  fs_actions (tr1 ++ tr2) = fs_actions tr1 ++ fs_actions tr2.
Proof. apply List.filter_app. Qed.

Lemma fs_actions_done u : fs_actions (trace CHECKFS2_done u) = [].
Proof. reflexivity. Qed.

Lemma spares_app tr1 tr2 : spares tr1 -> spares tr2 -> spares (tr1 ++ tr2).
Proof. unfold spares. rewrite forallb_app. intros -> ->. reflexivity. Qed.

End Running.

Create Rewrite HintDb unpack.
#[local] Hint Rewrite @trace_bind @after_bind after_this result_this
  trace_this after_act trace_act after_assign trace_assign fs_actions_app
  fs_actions_done app_nil_r app_nil_l : unpack.

Tactic Notation "norm_M" := autorewrite with unpack; cbv beta zeta.

(** ** The completion tracker *)

Section Tracker.
Import Unpack.

Lemma MAYBECLOSE_spec u :
  after MAYBECLOSE u = u
  /\ trace MAYBECLOSE u
     = if ENDED u && (PENDING u =? 0) then terminal else [].
Proof.
  unfold after, trace, MAYBECLOSE, mbind, M_bind, this, act, mret, M_ret.
  simpl. destruct (ENDED u && _); split; reflexivity.
Qed.


Lemma UNPEND_spec u :
  after UNPEND u = set_PENDING (PENDING u - 1) u
  /\ trace UNPEND u
     = if ENDED u && (PENDING u - 1 =? 0) then terminal else [].
Proof.
  unfold UNPEND. rewrite after_bind, trace_bind.
  change (after (assign _) u) with (set_PENDING (PENDING u - 1) u).
  destruct (MAYBECLOSE_spec (set_PENDING (PENDING u - 1) u)) as [-> ->].
  split; reflexivity.
Qed.










End Tracker.

(** ** The entry sanitizer *)

Section Sanitizer.
Import Unpack.

Lemma strip_parts_keeps h u entry parts entry' parts' :
  strip_parts h u entry parts = Some (entry', parts') ->
  same_kind entry entry' /\ parts' = JS.splice0 (strip u) parts.
Proof.
  unfold strip_parts, same_kind. intros H.
  destruct (Z.eqb_spec (strip u) 0) as [-> | Hs].
  - simplify_eq. repeat split. unfold JS.splice0.
    rewrite Z.max_id, Z.min_l by lia. reflexivity.
  - repeat case_match; simplify_eq/=; auto.
Qed.

Lemma resolve_absolute_keeps h u entry :
  same_kind entry (resolve_absolute h u entry).
Proof. split; reflexivity. Qed.

Lemma encode_win32_keeps h u entry :
  same_kind entry (encode_win32 h u entry).
Proof. unfold encode_win32. destruct (win32 u); split; reflexivity. Qed.

Lemma same_kind_trans e1 e2 e3 :
  same_kind e1 e2 -> same_kind e2 e3 -> same_kind e1 e3.
Proof. unfold same_kind. intros [-> ->] [-> ->]. auto. Qed.

(** An accepted entry keeps its type and mode; the instance is not
    touched. *)
Lemma CHECKPATH_keeps h entry u entry' u' tr :
  CHECKPATH h entry u = ((true, entry'), u', tr) ->
  same_kind entry entry' /\ u' = u.
Proof.
  unfold CHECKPATH.
  unfold mbind, M_bind, mret, M_ret, this, act.
  destruct (strip_parts _ _ _ _) as [[e1 parts] |] eqn:Hs;
    [| intros; simplify_eq].
  apply strip_parts_keeps in Hs as [Hs _].
  destruct (too_deep u parts); [intros; simplify_eq |].
  assert (K : forall e2, same_kind e1 e2 ->
            same_kind entry (encode_win32 h u (resolve_absolute h u e2))).
  { intros e2 H2. eapply same_kind_trans; [exact Hs |].
    eapply same_kind_trans; [exact H2 |].
    eapply same_kind_trans;
      [apply resolve_absolute_keeps | apply encode_win32_keeps]. }
  destruct (preservePaths u).
  - destruct (escapes _ _); [intros; simplify_eq |].
    destruct (_ && _); intros; simplify_eq.
    split; [apply K; split; reflexivity | done].
  - destruct (has_dotdot h parts); [intros; simplify_eq |].
    destruct (stripAbsolutePath h _) as [root rest].
    destruct (String.eqb root "").
    + destruct (escapes _ _); [intros; simplify_eq |].
      destruct (_ && _); intros; simplify_eq.
      split; [apply K; split; reflexivity | done].
    + destruct (escapes _ _); [intros; simplify_eq |].
      destruct (_ && _); intros; simplify_eq.
      split; [apply K; split; reflexivity | done].
Qed.

(** An entry that the [strip] stage keeps goes on with the segments of
    its path less the first [strip]. *)
Lemma strip_parts_survives h u entry :
  survives_strip h u entry ->
  exists entry',
    strip_parts h u entry
      (JS.split slash (normalizeWindowsPath h (ReadEntry.path entry)))
    = Some (entry', stripped_parts h u entry).
Proof.
  unfold survives_strip, stripped_parts, strip_parts. intros Hs.
  destruct (Z.eqb_spec (strip u) 0) as [E | E].
  - eexists. rewrite E. unfold JS.splice0.
    rewrite Z.max_id, Z.min_l by lia. reflexivity.
  - destruct Hs as [Hs | [Hp Hl]]; [contradiction |].
    destruct (Z.ltb_spec
                (Z.of_nat (length (JS.split slash
                   (normalizeWindowsPath h (ReadEntry.path entry)))))
                (strip u)); [lia |].
    destruct (decide (ReadEntry.type entry = Link)) as [Ht | Ht].
    + specialize (Hl Ht).
      destruct (Z.leb_spec (strip u)
                  (Z.of_nat (length (JS.split slash
                     (normalizeWindowsPath h
                        (String_ (ReadEntry.linkpath entry))))))); [| lia].
      eexists. reflexivity.
    + eexists. reflexivity.
Qed.

(** C8, as the code has it.  An entry that the [strip] stage keeps ([strip]
    is 0, or its path has at least [strip] segments and, for a [Link], its
    linkpath has too) and whose path has, less the first [strip], more
    segments than a finite [maxDepth]: [ONENTRY] warns "path excessively
    deep" and resumes the entry; the profile's [CHECKFS], which alone
    takes a reservation, is not called, and the instance is left as it
    was.  With an infinite [maxDepth] the sanitizer never gives this
    warning. *)
Theorem ONENTRY_too_deep h u entry :
  (forall (CHECKFS : ReadEntry.t -> M unit) n,
     maxDepth u = Finite n ->
     survives_strip h u entry ->
     n < Z.of_nat (length (stripped_parts h u entry)) ->
     ONENTRY h CHECKFS entry u
     = (tt, u, [Warn "TAR_ENTRY_ERROR" "path excessively deep"; Resume]))
  /\ (maxDepth u = Infinity ->
      Warn "TAR_ENTRY_ERROR" "path excessively deep"
        ∉ trace (CHECKPATH h entry) u).
Proof.
  split.
  - intros CHECKFS n Hmax Hstrip Hdeep.
    destruct (strip_parts_survives h u entry Hstrip) as [entry' Hs].
    unfold ONENTRY, CHECKPATH.
    unfold mbind, M_bind, mret, M_ret, this, act.
    rewrite Hs. unfold too_deep. rewrite Hmax.
    destruct (Z.ltb_spec n (Z.of_nat (length (stripped_parts h u entry))));
      [| lia].
    reflexivity.
  - intros Hmax. unfold trace, CHECKPATH.
    unfold mbind, M_bind, mret, M_ret, this, act.
    destruct (strip_parts _ _ _ _) as [[e1 parts] |];
      [| apply not_elem_of_nil].
    unfold too_deep. rewrite Hmax.
    assert (Hone : forall m,
              m <> "path excessively deep" ->
              Warn "TAR_ENTRY_ERROR" "path excessively deep"
                ∉ [Warn "TAR_ENTRY_ERROR" m]).
    { intros m Hm [H | H]%elem_of_cons; [congruence | inversion H]. }
    assert (Hinfo : forall m tl,
              Warn "TAR_ENTRY_ERROR" "path excessively deep" ∉ tl ->
              Warn "TAR_ENTRY_ERROR" "path excessively deep"
                ∉ Warn "TAR_ENTRY_INFO" m :: tl).
    { intros m tl Hn [H | H]%elem_of_cons; [discriminate H | contradiction]. }
    destruct (preservePaths u); simpl.
    + destruct (escapes _ _); simpl; [apply Hone; discriminate |].
      destruct (_ && _); apply not_elem_of_nil.
    + destruct (has_dotdot h parts); simpl; [apply Hone; discriminate |].
      destruct (stripAbsolutePath h _) as [root rest].
      destruct (String.eqb root ""); simpl.
      * destruct (escapes _ _); simpl; [apply Hone; discriminate |].
        destruct (_ && _); apply not_elem_of_nil.
      * destruct (escapes _ _); simpl;
          [apply Hinfo, Hone; discriminate |].
        destruct (_ && _); apply Hinfo, not_elem_of_nil.
Qed.

(** Scenario S5: [maxDepth] 3 and the path [a/b/c/d/e]. *)
Lemma ONENTRY_too_deep_witness :
  ONENTRY posix Unpack.CHECKFS (entry_of File "a/b/c/d/e" (Some 420))
    (capped_at "/x" 3)
  = (tt, capped_at "/x" 3,
     [Warn "TAR_ENTRY_ERROR" "path excessively deep"; Resume]).
Proof.
  apply (proj1 (ONENTRY_too_deep posix (capped_at "/x" 3)
                  (entry_of File "a/b/c/d/e" (Some 420)))
           Unpack.CHECKFS 3).
  - reflexivity.
  - left. reflexivity.
  - vm_compute. reflexivity.
Defined.

(** C8, as stated, fails: with [strip], a [Link] whose linkpath has fewer
    segments than [strip] is dropped before the depth test.  Here the
    path keeps five segments after [strip] 2, more than [maxDepth] 3, and
    the entry is resumed without a warning. *)
Lemma deep_link_is_dropped_silently :
  stripped_parts posix (stripping_capped_at "/x" 2 3) deep_link
  = ["c"; "d"; "e"; "f"; "g"]
  /\ maxDepth (stripping_capped_at "/x" 2 3) = Finite 3
  /\ ONENTRY posix Unpack.CHECKFS deep_link (stripping_capped_at "/x" 2 3)
     = (tt, stripping_capped_at "/x" 2 3, [Resume]).
Proof. repeat split. Qed.

(** *** The mode of a directory entry *)

Lemma ToInt32_testbit x i :
  0 <= i < 32 -> Z.testbit (JS.ToInt32 x) i = Z.testbit x i.
Proof.
  intros Hi. unfold JS.ToInt32. cbv zeta.
  rewrite <- (Z.mod_pow2_bits_low x 32 i) by lia.
  destruct (_ <? _); [reflexivity |].
  rewrite <- (Z.mod_pow2_bits_low (_ - _) 32 i) by lia.
  f_equal.
  replace (x mod 2 ^ 32 - 2 ^ 32) with (x mod 2 ^ 32 + (-1) * 2 ^ 32) by lia.
  rewrite Z.mod_add by lia. apply Z.mod_mod. lia.
Qed.

(** 0o700 has the bits 6, 7 and 8. *)
Lemma testbit_448 i : 0 <= i -> Z.testbit 448 i = true -> 6 <= i <= 8.
Proof.
  intros Hi H.
  destruct (Z.lt_ge_cases i 9) as [Hlt | Hge].
  - assert (i = 0 \/ i = 1 \/ i = 2 \/ i = 3 \/ i = 4 \/ i = 5 \/ 6 <= i <= 8)
      as Hc by lia.
    repeat (destruct Hc as [-> | Hc]; [discriminate H |]). exact Hc.
  - rewrite Z.bits_above_log2 in H; [discriminate | lia |].
    change (Z.log2 448) with 8. lia.
Qed.

Lemma owner_bits_forced m :
  Z.land (JS.bitand (JS.bitor m 448) 4095) 448 = 448.
Proof.
  apply Z.bits_inj'. intros i Hi.
  rewrite Z.land_spec.
  destruct (Z.testbit 448 i) eqn:Hb; [| apply andb_false_r].
  apply testbit_448 in Hb; [| exact Hi].
  rewrite andb_true_r.
  unfold JS.bitand, JS.bitor.
  rewrite !ToInt32_testbit, Z.land_spec, !ToInt32_testbit, Z.lor_spec,
    !ToInt32_testbit by lia.
  assert (i = 6 \/ i = 7 \/ i = 8) as [-> | [-> | ->]] by lia;
    rewrite orb_true_r; reflexivity.
Qed.

(** C9.  An accepted [Directory] or [GNUDumpDir] entry with a nonzero mode
    [m] reaches the profile's [CHECKFS] with mode [m | 0o700]; the
    materializer then creates the directory with [(m | 0o700) & 0o7777],
    in which the owner's three bits are set whatever [m] was: a mode 0o500
    in the archive gives a directory of mode 0o700. *)
Theorem ONENTRY_directory_mode h (CHECKFS : ReadEntry.t -> M unit) u entry
    entry' u' tr m :
  CHECKPATH h entry u = ((true, entry'), u', tr) ->
  is_dir_type (ReadEntry.type entry) = true ->
  ReadEntry.mode entry = Some m ->
  m <> 0 ->
  let reconciled := ReadEntry.set_mode (Some (JS.bitor m 448)) entry' in
  ONENTRY h CHECKFS entry u
    = (let '(x, u2, tr2) := CHECKFS reconciled u' in (x, u2, tr ++ tr2))
  /\ (forall done u2,
        trace (MAKEFS h None reconciled done) u2
        = [Materialize
             (MDirectory (String_ (ReadEntry.absolute entry'))
                (JS.bitand (JS.bitor m 448) 4095))])
  /\ Z.land (JS.bitand (JS.bitor m 448) 4095) 448 = 448
  /\ JS.bitand (JS.bitor 320 448) 4095 = 448.
Proof.
  intros Hcp Hdir Hmode Hm reconciled.
  destruct (CHECKPATH_keeps _ _ _ _ _ _ Hcp) as [[Hty Hmo] ->].
  split; [| split; [| split]].
  - unfold ONENTRY. unfold mbind, M_bind at 1. rewrite Hcp. cbn [negb].
    rewrite Hty, Hmo, Hmode.
    assert (JS.truthy (Some m) = true) as ->.
    { unfold JS.truthy. destruct (Z.eqb_spec m 0); [contradiction | reflexivity]. }
    destruct (ReadEntry.type entry); try discriminate Hdir; reflexivity.
  - intros done u2. unfold MAKEFS. rewrite trace_bind.
    change (ReadEntry.type reconciled) with (ReadEntry.type entry').
    rewrite Hty.
    destruct (ReadEntry.type entry); try discriminate Hdir; reflexivity.
  - apply owner_bits_forced.
  - reflexivity.
Qed.

(** A directory entry [d] of mode 0o500. *)
Lemma ONENTRY_directory_mode_witness :
  ONENTRY posix Unpack.CHECKFS (entry_of Directory "d" (Some 320))
    (unpack_at "/x")
  = (tt, set_PENDING 1 (unpack_at "/x"), [Reserve ["d"]])
  /\ trace
       (MAKEFS posix None
          (ReadEntry.set_mode (Some 448)
             (ReadEntry.set_absolute (Some "/x/d")
                (entry_of Directory "d" (Some 320))))
          CHECKFS2_done)
       (unpack_at "/x")
     = [Materialize (MDirectory "/x/d" 448)].
Proof.
  pose proof
    (ONENTRY_directory_mode posix Unpack.CHECKFS (unpack_at "/x")
       (entry_of Directory "d" (Some 320))
       (ReadEntry.set_absolute (Some "/x/d")
          (entry_of Directory "d" (Some 320)))
       (unpack_at "/x") [] 320
       eq_refl eq_refl eq_refl ltac:(discriminate)) as (H1 & H2 & _ & _).
  split; [exact H1 | exact (H2 CHECKFS2_done (unpack_at "/x"))].
Defined.

End Sanitizer.

(** ** The reconciler *)

Section Reconciler.
Import Unpack.

Lemma spares_UNPEND u : spares (trace UNPEND u).
Proof.
  unfold trace, UNPEND, MAYBECLOSE, mbind, M_bind, this, act, assign, mret,
    M_ret.
  simpl. destruct (ENDED u && _); reflexivity.
Qed.

Lemma spares_ONERROR er u : spares (trace (ONERROR er) u).
Proof.
  unfold ONERROR. case_match; [reflexivity |].
  rewrite !trace_bind. repeat apply spares_app; try reflexivity.
  apply spares_UNPEND.
Qed.

Lemma spares_done u : spares (trace CHECKFS2_done u).
Proof. reflexivity. Qed.

Lemma spares_MAKEFS h er entry done u :
  (forall u', spares (trace done u')) ->
  spares (trace (MAKEFS h er entry done) u).
Proof.
  intros Hd. unfold MAKEFS. destruct er as [er |].
  - rewrite trace_bind. apply spares_app; [apply spares_ONERROR | apply Hd].
  - rewrite trace_bind. apply spares_app; [reflexivity |].
    case_match; reflexivity.
Qed.

Lemma afterMakeParent_spares_cwd h fs u entry :
  is_cwd u entry = true -> spares (trace (afterMakeParent h fs entry) u).
Proof.
  intros Hcwd. unfold afterMakeParent.
  rewrite trace_bind. apply spares_app; [reflexivity |].
  rewrite trace_bind. apply spares_app; [reflexivity |].
  rewrite after_this, result_this, after_act. cbv beta zeta.
  rewrite Hcwd. cbn [negb].
  pose proof
    (fun er u' => spares_MAKEFS h er entry CHECKFS2_done u' spares_done)
    as HM.
  repeat case_match; try apply HM.
  - rewrite trace_bind. apply spares_app; [| apply spares_done].
    unfold SKIP. rewrite trace_bind.
    apply spares_app; [apply spares_UNPEND | reflexivity].
  - rewrite trace_bind. apply spares_app; [reflexivity | apply HM].
Qed.

Lemma start_spares_cwd h fs u entry :
  is_cwd u entry = true -> spares (trace (start h fs entry) u).
Proof.
  intros Hcwd. unfold start.
  rewrite trace_bind. apply spares_app; [reflexivity |].
  rewrite after_this, result_this. cbv beta zeta.
  rewrite Hcwd. cbn [negb]. apply afterMakeParent_spares_cwd, Hcwd.
Qed.

(** The parallel profile keeps its hands off the extraction root: with
    [entry.absolute === this.cwd], [CHECKFS2] issues neither [rmdir] nor
    [unlink]. *)
Lemma CHECKFS2_spares_cwd h fs u entry :
  is_cwd u entry = true -> spares (trace (CHECKFS2 h fs entry) u).
Proof.
  intros Hcwd. unfold CHECKFS2.
  rewrite trace_bind. apply spares_app; [reflexivity |].
  rewrite trace_bind. apply spares_app; [reflexivity |].
  rewrite after_this, result_this, after_act. cbv beta zeta.
  destruct (CHECKED_CWD u); [apply start_spares_cwd, Hcwd |].
  unfold checkCwd.
  rewrite trace_bind. apply spares_app; [reflexivity |].
  rewrite trace_bind. apply spares_app; [reflexivity |].
  destruct (on_mkdir_cwd fs).
  - rewrite trace_bind.
    apply spares_app; [apply spares_ONERROR | apply spares_done].
  - rewrite trace_bind. apply spares_app; [reflexivity |].
    apply start_spares_cwd. exact Hcwd.
Qed.

(** C2 does not hold of the sequential profile.  A [GNUDumpDir] entry named
    [./] resolves to the extraction root; [UnpackSync.CHECKFS] finds a
    directory there and calls [rmdirSync] on the root, then falls through
    and materializes the entry a second time. *)
Lemma UnpackSync_rmdir_on_cwd :
  trace (extractSync posix (fs_with (Some a_directory))
           (entry_of GNUDumpDir "./" (Some 493)))
    (unpack_at "/x")
  = [PruneCache; Mkdir "/x" 493; Lstat "/x"; Rmdir "/x";
     Materialize (MDirectory "/x" 493); Materialize (MDirectory "/x" 493)]
  /\ trace (extract posix (fs_with (Some a_directory))
              (entry_of GNUDumpDir "./" (Some 493)))
       (unpack_at "/x")
     = [Reserve ["./"]; PruneCache; Mkdir "/x" 493; Lstat "/x";
        Materialize (MDirectory "/x" 493)].
Proof. split; vm_compute; reflexivity. Qed.

(** *** The two profiles, side by side *)

Lemma MAKEFS_agree h er entry u :
  fs_actions (trace (UnpackSync.MAKEFS h er entry) u)
  = fs_actions (trace (MAKEFS h er entry CHECKFS2_done) u).
Proof.
  unfold UnpackSync.MAKEFS, MAKEFS. destruct er as [er |]; norm_M; reflexivity.
Qed.

Lemma reconcile_agree h fs entry u :
  removal_branch h fs u entry = false ->
  fs_actions (trace (UnpackSync.reconcile h fs entry) u)
  = fs_actions (trace (afterMakeParent h fs entry) u).
Proof.
  unfold removal_branch, UnpackSync.reconcile, afterMakeParent. intros Hb.
  norm_M. try apply (f_equal (app _)).
  destruct (on_lstat fs) as [st |]; [| apply MAKEFS_agree].
  destruct (keep_existing u entry st); [norm_M; reflexivity |].
  destruct (ISREUSABLE h u entry st); [apply MAKEFS_agree |].
  destruct (isDirectory st).
  - destruct (bool_decide _); [| discriminate Hb].
    destruct (needChmod u entry st); [| apply MAKEFS_agree].
    norm_M. try apply (f_equal (app _)). apply MAKEFS_agree.
  - destruct (is_cwd u entry); [apply MAKEFS_agree |].
    norm_M. try apply (f_equal (app _)). apply MAKEFS_agree.
Qed.

Lemma makeParent_agree h fs entry u :
  removal_branch h fs u entry = false ->
  fs_actions (trace (UnpackSync.makeParent h fs entry) u)
  = fs_actions (trace (start h fs entry) u).
Proof.
  intros Hb. unfold UnpackSync.makeParent, start. norm_M.
  destruct (negb (is_cwd u entry)); [| apply reconcile_agree, Hb].
  destruct (negb (String.eqb _ _)); [| apply reconcile_agree, Hb].
  norm_M. try apply (f_equal (app _)).
  destruct (on_mkdir_parent fs); [| apply reconcile_agree, Hb].
  norm_M. reflexivity.
Qed.

(** X18.  Outside the branch that removes a directory ([lstat] finds a
    directory, the entry is of another type, and it is neither kept nor
    reused), the two profiles make the same calls on the file system, in
    the same order, and give the same warnings. *)
Lemma profiles_agree h fs entry u :
  removal_branch h fs u entry = false ->
  fs_actions (trace (UnpackSync.CHECKFS h fs entry) u)
  = fs_actions (trace (CHECKFS2 h fs entry) u).
Proof.
  intros Hb. unfold UnpackSync.CHECKFS, CHECKFS2. norm_M.
  try apply (f_equal (app _)).
  destruct (CHECKED_CWD u); [apply makeParent_agree, Hb |].
  unfold checkCwd. norm_M. try apply (f_equal (app _)).
  destruct (on_mkdir_cwd fs); norm_M; [reflexivity |].
  apply makeParent_agree. exact Hb.
Qed.

(** C3 does not hold.  A file entry [d] over an existing directory [d]: the
    parallel profile removes the directory and writes the file; the
    sequential profile, after doing the same, goes on to unlink what it
    has written and to materialize the entry again. *)
Lemma profiles_differ_on_directory :
  fs_actions
    (trace (extract posix (fs_with (Some a_directory))
              (entry_of File "d" (Some 420)))
       (unpack_at "/x"))
  = [Mkdir "/x" 493; Lstat "/x/d"; Rmdir "/x/d";
     Materialize (MFile "/x/d" 420)]
  /\ fs_actions
       (trace (extractSync posix (fs_with (Some a_directory))
                 (entry_of File "d" (Some 420)))
          (unpack_at "/x"))
     = [Mkdir "/x" 493; Lstat "/x/d"; Rmdir "/x/d";
        Materialize (MFile "/x/d" 420); UnlinkFile "/x/d";
        Materialize (MFile "/x/d" 420)].
Proof. split; vm_compute; reflexivity. Qed.

(** *** Reuse of an existing file *)

Lemma setup_done h fs entry u tr :
  on_mkdir_cwd fs = None ->
  on_mkdir_parent fs = None ->
  (forall u', cwd u' = cwd u -> keep u' = keep u -> newer u' = newer u ->
     unlink u' = unlink u -> fmode u' = fmode u ->
     trace (afterMakeParent h fs entry) u' = tr) ->
  exists pre,
    trace (CHECKFS2 h fs entry) u = pre ++ tr /\ Forall is_setup pre.
Proof.
  intros Hc Hp Hafter.
  assert (Hstart : forall u', cwd u' = cwd u -> keep u' = keep u ->
            newer u' = newer u -> unlink u' = unlink u -> fmode u' = fmode u ->
            exists pre, trace (start h fs entry) u' = pre ++ tr
                        /\ Forall is_setup pre).
  { intros u' E1 E2 E3 E4 E5. unfold start. norm_M.
    destruct (negb (is_cwd u' entry));
      [| exists []; split; [apply Hafter; assumption | constructor]].
    destruct (negb (String.eqb _ _));
      [| exists []; split; [apply Hafter; assumption | constructor]].
    unfold MKDIR. norm_M. rewrite Hp.
    eexists [_]. split; [simpl; f_equal; apply Hafter; assumption |].
    constructor; [right; eauto | constructor]. }
  unfold CHECKFS2. norm_M.
  destruct (CHECKED_CWD u).
  - destruct (Hstart u) as (pre & -> & Hpre); try reflexivity.
    exists (PruneCache :: pre). split; [reflexivity |].
    constructor; [left; reflexivity | exact Hpre].
  - unfold checkCwd, MKDIR. norm_M. rewrite Hc. norm_M.
    destruct (Hstart (set_CHECKED_CWD true u)) as (pre & -> & Hpre);
      try reflexivity.
    exists (PruneCache :: Mkdir (normalizeWindowsPath h (cwd u)) (dmode u)
              :: pre).
    split; [reflexivity |].
    constructor; [left; reflexivity |].
    constructor; [right; eauto | exact Hpre].
Qed.

Lemma setup_done_sync h fs entry u tr :
  on_mkdir_cwd fs = None ->
  on_mkdir_parent fs = None ->
  (forall u', cwd u' = cwd u -> keep u' = keep u -> newer u' = newer u ->
     unlink u' = unlink u -> fmode u' = fmode u ->
     trace (UnpackSync.reconcile h fs entry) u' = tr) ->
  exists pre,
    trace (UnpackSync.CHECKFS h fs entry) u = pre ++ tr /\ Forall is_setup pre.
Proof.
  intros Hc Hp Hafter.
  assert (Hstart : forall u', cwd u' = cwd u -> keep u' = keep u ->
            newer u' = newer u -> unlink u' = unlink u -> fmode u' = fmode u ->
            exists pre, trace (UnpackSync.makeParent h fs entry) u' = pre ++ tr
                        /\ Forall is_setup pre).
  { intros u' E1 E2 E3 E4 E5. unfold UnpackSync.makeParent. norm_M.
    destruct (negb (is_cwd u' entry));
      [| exists []; split; [apply Hafter; assumption | constructor]].
    destruct (negb (String.eqb _ _));
      [| exists []; split; [apply Hafter; assumption | constructor]].
    unfold MKDIR. norm_M. rewrite Hp.
    eexists [_]. split; [simpl; f_equal; apply Hafter; assumption |].
    constructor; [right; eauto | constructor]. }
  unfold UnpackSync.CHECKFS. norm_M.
  destruct (CHECKED_CWD u).
  - destruct (Hstart u) as (pre & -> & Hpre); try reflexivity.
    exists (PruneCache :: pre). split; [reflexivity |].
    constructor; [left; reflexivity | exact Hpre].
  - unfold MKDIR. norm_M. rewrite Hc. norm_M.
    destruct (Hstart (set_CHECKED_CWD true u)) as (pre & -> & Hpre);
      try reflexivity.
    exists (PruneCache :: Mkdir (normalizeWindowsPath h (cwd u)) (dmode u)
              :: pre).
    split; [reflexivity |].
    constructor; [left; reflexivity |].
    constructor; [right; eauto | exact Hpre].
Qed.

(** C4, as the code has it: reuse is for entries of type [File] alone.
    Where [lstat] finds a regular file with at most one link, [unlink] is
    off, the platform is not Windows, and neither [keep] nor [newer] skips
    the entry, the reconciler of either profile goes from [lstat] straight
    to the materializer: after the directories are made, the trace is
    [lstat] followed by the file's materialization, with no [unlink]
    before. *)
Theorem reuse_existing_file h fs u entry st :
  ReadEntry.type entry = File ->
  on_lstat fs = Some st ->
  isFile st = true ->
  st_nlink st <= 1 ->
  unlink u = false ->
  isWindows h = false ->
  keep_existing u entry st = false ->
  on_mkdir_cwd fs = None ->
  on_mkdir_parent fs = None ->
  reuses (trace (CHECKFS2 h fs entry) u) u entry
  /\ reuses (trace (UnpackSync.CHECKFS h fs entry) u) u entry.
Proof.
  intros Hty Hst Hfile Hn Hun Hw Hkeep Hc Hp.
  assert (Hre : forall u', unlink u' = unlink u -> ISREUSABLE h u' entry st = true).
  { intros u' E4. unfold ISREUSABLE. rewrite Hty, E4, Hun, Hfile, Hw.
    destruct (Z.leb_spec (st_nlink st) 1); [reflexivity | lia]. }
  assert (Hk : forall u', keep u' = keep u -> newer u' = newer u ->
                 keep_existing u' entry st = false).
  { intros u' E2 E3. unfold keep_existing in *. rewrite E2, E3. exact Hkeep. }
  split.
  - apply setup_done; [exact Hc | exact Hp |].
    intros u' E1 E2 E3 E4 E5.
    unfold afterMakeParent. norm_M.
    rewrite Hst, Hk, Hre by assumption. unfold MAKEFS, file_mode. norm_M.
    rewrite Hty, E5. reflexivity.
  - apply setup_done_sync; [exact Hc | exact Hp |].
    intros u' E1 E2 E3 E4 E5.
    unfold UnpackSync.reconcile. norm_M.
    rewrite Hst, Hk, Hre by assumption.
    unfold UnpackSync.MAKEFS, MAKEFS, file_mode. norm_M.
    rewrite Hty, E5. reflexivity.
Qed.

(** A file [a] over an existing file [a] with one link. *)
Lemma reuse_existing_file_witness :
  reuses (trace (Unpack.CHECKFS2 posix (fs_with (Some a_file)) a_again)
            (unpack_at "/x"))
    (unpack_at "/x") a_again
  /\ reuses (trace (UnpackSync.CHECKFS posix (fs_with (Some a_file)) a_again)
               (unpack_at "/x"))
       (unpack_at "/x") a_again.
Proof.
  apply (reuse_existing_file posix (fs_with (Some a_file)) (unpack_at "/x")
           a_again a_file);
    first [reflexivity | simpl; lia].
Defined.

(** C4, as stated, fails for the other two file types: an [OldFile] entry
    over the same file is unlinked first. *)
Lemma OldFile_is_not_reused :
  trace (extract posix (fs_with (Some a_file)) (entry_of OldFile "a" (Some 420)))
    (unpack_at "/x")
  = [Reserve ["a"]; PruneCache; Mkdir "/x" 493; Lstat "/x/a";
     UnlinkFile "/x/a"; Materialize (MFile "/x/a" 420)]
  /\ trace
       (extract posix (fs_with (Some a_file))
          (entry_of ContiguousFile "a" (Some 420)))
       (unpack_at "/x")
     = [Reserve ["a"]; PruneCache; Mkdir "/x" 493; Lstat "/x/a";
        UnlinkFile "/x/a"; Materialize (MFile "/x/a" 420)].
Proof. split; vm_compute; reflexivity. Qed.

End Reconciler.

(** ** Paths and [getDirs] *)

Section Paths.
Implicit Types (s t seg : string) (l segs : list string).

Lemma split_nonempty s : JS.split slash s <> [].
Proof. destruct s as [| c s]; simpl; [discriminate |]. repeat case_match; discriminate. Qed.

Lemma split_cons_char c s :
  Ascii.eqb c slash = false ->
  exists seg segs, JS.split slash s = seg :: segs
                   /\ JS.split slash (String c s) = String c seg :: segs.
Proof.
  intros Hc. simpl. rewrite Hc.
  destruct (JS.split slash s) as [| seg segs] eqn:E; [destruct (split_nonempty _ E) |].
  eauto.
Qed.

Lemma split_sep s t :
  JS.split slash (s +:+ String slash t) = JS.split slash s ++ JS.split slash t.
Proof.
  induction s as [| c s IH]; simpl.
  - reflexivity.
  - destruct (Ascii.eqb c slash) eqn:Hc.
    + rewrite IH. reflexivity.
    + rewrite IH.
      destruct (JS.split slash s) as [| seg segs] eqn:E; [destruct (split_nonempty _ E) |].
      reflexivity.
Qed.

Lemma split_leading_slash s :
  JS.split slash (String slash s) = "" :: JS.split slash s.
Proof. reflexivity. Qed.

Lemma split_no_slash s : no_slash s = true -> JS.split slash s = [s].
Proof.
  induction s as [| c s IH]; simpl; [reflexivity |].
  intros [Hc Hs]%andb_true_iff. apply negb_true_iff in Hc. rewrite Hc, IH by exact Hs.
  reflexivity.
Qed.

Lemma split_segments_no_slash s : Forall (fun seg => no_slash seg = true) (JS.split slash s).
Proof.
  induction s as [| c s IH]; simpl; [repeat constructor |].
  destruct (Ascii.eqb c slash) eqn:Hc; [constructor; [reflexivity | exact IH] |].
  destruct (JS.split slash s) as [| seg segs]; [repeat constructor; simpl; rewrite Hc; reflexivity |].
  inversion IH; subst. constructor; [simpl; rewrite Hc; simpl; assumption | assumption].
Qed.

Lemma join_cons seg l :
  l <> [] -> JS.join "/" (seg :: l) = seg +:+ String slash (JS.join "/" l).
Proof. destruct l; [done | reflexivity]. Qed.

Lemma join_split s : JS.join "/" (JS.split slash s) = s.
Proof.
  induction s as [| c s IH]; simpl; [reflexivity |].
  destruct (Ascii.eqb_spec c slash) as [-> | Hc].
  - rewrite join_cons by apply split_nonempty. rewrite IH. reflexivity.
  - destruct (JS.split slash s) as [| seg [| seg' segs]] eqn:E.
    + destruct (split_nonempty _ E).
    + simpl in *. congruence.
    + rewrite join_cons by discriminate. rewrite join_cons in IH by discriminate.
      simpl. rewrite <- IH. reflexivity.
Qed.

Lemma split_join l :
  l <> [] -> Forall (fun seg => no_slash seg = true) l ->
  JS.split slash (JS.join "/" l) = l.
Proof.
  induction l as [| seg l IH]; [done |]. intros _ Hl. inversion Hl; subst.
  destruct l as [| seg' l]; [simpl; apply split_no_slash; assumption |].
  rewrite join_cons by discriminate. rewrite split_sep, split_no_slash by assumption.
  rewrite IH by (discriminate || assumption). reflexivity.
Qed.

Lemma good_nonempty seg : good seg -> seg <> "".
Proof. intros [H _] E. subst. vm_compute in H. discriminate H. Qed.

Lemma good_first seg :
  good seg -> exists c rest, seg = String c rest /\ Ascii.eqb c slash = false.
Proof.
  intros [Hp Hs]. destruct seg as [| c rest]; [vm_compute in Hp; discriminate Hp |].
  simpl in Hs. apply andb_true_iff in Hs as [Hc _]. apply negb_true_iff in Hc. eauto.
Qed.

Lemma str_app_cons c s t : String c s +:+ t = String c (s +:+ t).
Proof. reflexivity. Qed.

Lemma str_app_assoc s t v : (s +:+ t) +:+ v = s +:+ (t +:+ v).
Proof.
  induction s as [| c s IH]; [reflexivity |].
  rewrite !str_app_cons, IH. reflexivity.
Qed.

Lemma str_app_length s t :
  String.length (s +:+ t) = (String.length s + String.length t)%nat.
Proof.
  induction s as [| c s IH]; [reflexivity |].
  rewrite str_app_cons. simpl. rewrite IH. reflexivity.
Qed.

Lemma str_prefix_app s t : String.prefix s (s +:+ t) = true.
Proof.
  induction s as [| c s IH]; [destruct t; reflexivity |].
  rewrite str_app_cons. simpl.
  destruct (ascii_dec c c); [exact IH | contradiction].
Qed.

Lemma join_snoc l seg :
  l <> [] -> JS.join "/" (l ++ [seg]) = JS.join "/" l +:+ String slash seg.
Proof.
  induction l as [| x l IH]; [done |]. intros _.
  destruct l as [| y l]; [reflexivity |].
  change ((x :: y :: l) ++ [seg]) with (x :: ((y :: l) ++ [seg])).
  rewrite (join_cons x ((y :: l) ++ [seg])) by discriminate.
  rewrite IH by discriminate. rewrite (join_cons x (y :: l)) by discriminate.
  rewrite !str_app_assoc. reflexivity.
Qed.

Lemma ends_with_app c s t :
  t <> "" -> JS.ends_with_char c (s +:+ t) = JS.ends_with_char c t.
Proof.
  intros Ht. induction s as [| d s IH]; [reflexivity |].
  rewrite str_app_cons.
  assert (s +:+ t <> "") as Hne.
  { destruct s; [exact Ht | rewrite str_app_cons; discriminate]. }
  simpl. destruct (s +:+ t) eqn:E; [contradiction | exact IH].
Qed.

Lemma ends_with_no_slash seg : no_slash seg = true -> JS.ends_with_char slash seg = false.
Proof.
  induction seg as [| c seg IH]; [reflexivity |]. simpl.
  intros [Hc Hs]%andb_true_iff. apply negb_true_iff in Hc.
  destruct seg; [exact Hc | apply IH, Hs].
Qed.

Lemma join_ends l :
  l <> [] -> Forall good l -> JS.ends_with_char slash (JS.join "/" l) = false.
Proof.
  intros Hne Hl. destruct (exists_last Hne) as (l' & seg & ->).
  apply Forall_app in Hl as [_ Hseg]. inversion Hseg as [| ? ? Hg _]; subst.
  destruct l' as [| x l'].
  - simpl. apply ends_with_no_slash, Hg.
  - rewrite join_snoc by discriminate.
    rewrite ends_with_app by discriminate. simpl.
    destruct (good_first _ Hg) as (c & rest & -> & Hc).
    change (JS.ends_with_char slash (String c rest) = false).
    apply ends_with_no_slash, Hg.
Qed.

Lemma join_first l :
  l <> [] -> Forall good l ->
  exists c rest, JS.join "/" l = String c rest /\ Ascii.eqb c slash = false.
Proof.
  destruct l as [| seg l]; [done |]. intros _ Hl. inversion Hl as [| ? ? Hg _]; subst.
  destruct (good_first _ Hg) as (c & rest & -> & Hc).
  destruct l; [simpl; eauto |]. rewrite join_cons by discriminate. simpl. eauto.
Qed.

Lemma starts_with_slash c rest :
  JS.starts_with "/" (String c rest) = Ascii.eqb c slash.
Proof.
  unfold JS.starts_with.
  change (String.prefix "/" (String c rest))
    with (if ascii_dec slash c then String.prefix "" rest else false).
  destruct (ascii_dec slash c) as [<- | Hne].
  - destruct rest; reflexivity.
  - symmetry. apply Ascii.eqb_neq. congruence.
Qed.

Lemma normalizeString_good allow k l :
  Forall good l ->
  NodePath.normalizeString allow (replicate k "" ++ l) = l.
Proof.
  intros Hl. unfold NodePath.normalizeString.
  match goal with |- foldl ?f _ _ = _ => set (F := f) end.
  assert (Hpad : forall n, foldl F [] (replicate n "") = []).
  { induction n as [| n IH]; [reflexivity | exact IH]. }
  assert (Hgood : forall l acc, Forall good l -> foldl F acc l = acc ++ l).
  { clear. induction l as [| seg l IH]; intros acc Hl;
      [rewrite app_nil_r; reflexivity |].
    inversion Hl as [| ? ? [Hp _] Hl']; subst.
    unfold plain in Hp. apply andb_true_iff in Hp as [[H1 H2]%andb_true_iff H3].
    apply negb_true_iff in H1, H2, H3.
    simpl. unfold F at 2. rewrite H1, H2, H3. simpl.
    rewrite IH by exact Hl'. rewrite <- app_assoc. reflexivity. }
  rewrite foldl_app, Hpad, Hgood by exact Hl. reflexivity.
Qed.

Lemma good_no_slash l : Forall good l -> Forall (fun seg => no_slash seg = true) l.
Proof. intros H. eapply Forall_impl; [exact H |]. intros ? [_ ?]. assumption. Qed.

Lemma normalize_absolute l :
  l <> [] -> Forall good l ->
  NodePath.normalize (String slash (JS.join "/" l)) = String slash (JS.join "/" l).
Proof.
  intros Hne Hl. unfold NodePath.normalize.
  destruct (join_first l Hne Hl) as (c & rest & E & Hc).
  assert (String.eqb (JS.join "/" l) "" = false) as Hnonempty
    by (rewrite E; reflexivity).
  assert (String.eqb (String slash (JS.join "/" l)) "" = false) as -> by reflexivity.
  rewrite starts_with_slash.
  assert (JS.ends_with_char slash (String slash (JS.join "/" l)) = false) as ->.
  { change (String slash (JS.join "/" l)) with ("/" +:+ JS.join "/" l).
    rewrite ends_with_app; [apply join_ends; assumption |].
    rewrite E. discriminate. }
  change (Ascii.eqb slash slash) with true. cbv zeta. simpl negb.
  rewrite split_leading_slash.
  rewrite split_join by (exact Hne || apply good_no_slash, Hl).
  change ("" :: l) with (replicate 1 "" ++ l).
  rewrite normalizeString_good by exact Hl.
  rewrite Hnonempty. reflexivity.
Qed.

(** The first step below the root: [join('/', seg)]. *)
Lemma join_root seg : good seg -> NodePath.join ["/"; seg] = String slash seg.
Proof.
  intros Hg. pose proof (good_nonempty _ Hg) as Hne.
  unfold NodePath.join.
  assert (List.filter (fun a => negb (String.eqb a "")) ["/"; seg] = ["/"; seg]) as ->.
  { simpl. destruct (String.eqb_spec seg ""); [contradiction | reflexivity]. }
  change (JS.join "/" ["/"; seg]) with (String slash (String slash seg)).
  unfold NodePath.normalize.
  assert (String.eqb (String slash (String slash seg)) "" = false) as -> by reflexivity.
  rewrite starts_with_slash.
  assert (JS.ends_with_char slash (String slash (String slash seg)) = false) as ->.
  { change (String slash (String slash seg)) with ("//" +:+ seg).
    rewrite ends_with_app by exact Hne. apply ends_with_no_slash, Hg. }
  change (Ascii.eqb slash slash) with true. cbv zeta. simpl negb.
  rewrite !split_leading_slash, split_no_slash by apply Hg.
  change ("" :: "" :: [seg]) with (replicate 2 "" ++ [seg]).
  rewrite normalizeString_good by (constructor; [exact Hg | constructor]).
  simpl. destruct (String.eqb_spec seg ""); [contradiction | reflexivity].
Qed.

Lemma join_below_absolute l seg :
  l <> [] -> Forall good l -> good seg ->
  NodePath.join [String slash (JS.join "/" l); seg]
  = String slash (JS.join "/" (l ++ [seg])).
Proof.
  intros Hne Hl Hg. pose proof (good_nonempty _ Hg) as Hseg.
  unfold NodePath.join.
  assert (List.filter (fun a => negb (String.eqb a ""))
            [String slash (JS.join "/" l); seg]
          = [String slash (JS.join "/" l); seg]) as ->.
  { simpl. destruct (String.eqb_spec seg ""); [contradiction | reflexivity]. }
  change (JS.join "/" [String slash (JS.join "/" l); seg])
    with (String slash (JS.join "/" l +:+ String slash seg)).
  rewrite <- join_snoc by exact Hne.
  apply normalize_absolute; [destruct l; discriminate |].
  apply Forall_app. split; [exact Hl | constructor; [exact Hg | constructor]].
Qed.

Lemma getDirs_unfold p :
  getDirs p = foldl getDirs_step [] (removelast (JS.split slash p)).
Proof. reflexivity. Qed.

Lemma fold_chain (pth : list string -> string) (C : list string -> Prop) rest :
  (forall l seg, C l -> C (l ++ [seg])) ->
  (forall l seg, C l -> Forall good l -> good seg ->
     NodePath.join [pth l; seg] = pth (l ++ [seg]) /\ pth (l ++ [seg]) <> "") ->
  forall acc seen,
  last acc = Some (pth seen) -> C seen ->
  Forall good seen -> Forall good rest ->
  foldl getDirs_step acc rest = acc ++ chain pth seen rest.
Proof.
  intros HC Hjoin.
  induction rest as [| seg rest IH]; intros acc seen Hlast Hc Hdone Hrest.
  - simpl. rewrite app_nil_r. reflexivity.
  - inversion Hrest as [| ? ? Hseg Hrest']; subst. simpl.
    destruct (Hjoin seen seg Hc Hdone Hseg) as [Hj Hne].
    assert (getDirs_step acc seg = acc ++ [pth (seen ++ [seg])]) as ->.
    { unfold getDirs_step. rewrite Hlast, Hj.
      destruct (String.eqb_spec (pth (seen ++ [seg])) ""); [contradiction | reflexivity]. }
    rewrite (IH (acc ++ [pth (seen ++ [seg])]) (seen ++ [seg])).
    + rewrite <- app_assoc. reflexivity.
    + rewrite last_snoc. reflexivity.
    + apply HC, Hc.
    + apply Forall_app. split; [assumption | constructor; [assumption | constructor]].
    + assumption.
Qed.

Lemma elem_of_chain pth rest : forall seen d,
  d ∈ chain pth seen rest <->
  exists l1 l2, rest = l1 ++ l2 /\ l1 <> [] /\ d = pth (seen ++ l1).
Proof.
  induction rest as [| seg rest IH]; intros seen d; simpl.
  - split; [intros H; inversion H |].
    intros (l1 & l2 & E & Hne & _). destruct l1; [done | discriminate].
  - rewrite elem_of_cons, IH. split.
    + intros [-> | (l1 & l2 & -> & Hne & ->)].
      * exists [seg], rest. auto.
      * exists (seg :: l1), l2. rewrite <- app_assoc. auto.
    + intros (l1 & l2 & E & Hne & ->). destruct l1 as [| x l1]; [done |].
      injection E as <- ->. destruct l1 as [| y l1].
      * left. reflexivity.
      * right. exists (y :: l1), l2. rewrite <- app_assoc. auto.
Qed.

Lemma last_chain pth rest : forall seen,
  rest <> [] -> last (chain pth seen rest) = Some (pth (seen ++ rest)).
Proof.
  induction rest as [| seg rest IH]; intros seen Hne; [done |]. simpl.
  destruct rest as [| seg' rest]; [reflexivity |].
  rewrite last_cons. rewrite IH by discriminate. rewrite <- app_assoc. reflexivity.
Qed.

Lemma join_nonempty l : l <> [] -> Forall good l -> JS.join "/" l <> "".
Proof.
  intros Hne Hl. destruct (join_first l Hne Hl) as (c & rest & -> & _). discriminate.
Qed.

Lemma join_app l1 l2 :
  l1 <> [] -> l2 <> [] ->
  JS.join "/" (l1 ++ l2) = JS.join "/" l1 +:+ String slash (JS.join "/" l2).
Proof.
  intros H1 H2. induction l1 as [| x l1 IH]; [done |].
  destruct l1 as [| y l1].
  - simpl app. rewrite join_cons by exact H2. reflexivity.
  - change ((x :: y :: l1) ++ l2) with (x :: ((y :: l1) ++ l2)).
    rewrite (join_cons x ((y :: l1) ++ l2)) by discriminate.
    rewrite IH by discriminate. rewrite (join_cons x (y :: l1)) by discriminate.
    rewrite !str_app_assoc. reflexivity.
Qed.

Lemma above_app s t : t <> "" -> above s (s +:+ t).
Proof.
  intros Ht. split; [apply str_prefix_app |].
  rewrite str_app_length. destruct t; [done | simpl; lia].
Qed.

Lemma above_absolute l1 l2 :
  l2 <> [] -> Forall good (l1 ++ l2) ->
  above (absolute_path l1) (absolute_path (l1 ++ l2)).
Proof.
  intros H2 [Hl1 Hl2]%Forall_app. unfold absolute_path.
  destruct (decide (l1 = [])) as [-> | E].
  - simpl app. apply (above_app "/"). apply join_nonempty; assumption.
  - rewrite join_app by assumption.
    change (String slash (JS.join "/" l1 +:+ String slash (JS.join "/" l2)))
      with (String slash (JS.join "/" l1) +:+ String slash (JS.join "/" l2)).
    apply above_app. discriminate.
Qed.

Lemma above_relative l1 l2 :
  l1 <> [] -> l2 <> [] ->
  above (relative_path l1) (relative_path (l1 ++ l2)).
Proof.
  intros H1 H2. unfold relative_path. rewrite join_app by assumption.
  apply above_app. discriminate.
Qed.

Lemma above_irrefl d : ~ above d d.
Proof. intros [_ H]. lia. Qed.

Lemma chain_sorted pth rest : forall seen,
  Forall good rest ->
  (forall l1 l2, l1 <> [] -> l2 <> [] -> Forall good (l1 ++ l2) ->
     above (pth (seen ++ l1)) (pth (seen ++ l1 ++ l2))) ->
  StronglySorted above (chain pth seen rest).
Proof.
  induction rest as [| seg rest IH]; intros seen Hrest Habove; [constructor |].
  inversion Hrest as [| ? ? Hseg Hrest']; subst.
  simpl. constructor.
  - apply IH; [exact Hrest' |]. intros l1 l2 H1 H2 Hl. rewrite <- !app_assoc.
    apply (Habove ([seg] ++ l1) l2); [discriminate | exact H2 |].
    constructor; assumption.
  - apply Forall_forall. intros d (l1 & l2 & -> & H1 & ->)%elem_of_chain.
    rewrite <- app_assoc. apply (Habove [seg] l1); [discriminate | exact H1 |].
    apply Forall_app in Hrest' as [Hl1 _]. constructor; assumption.
Qed.

Lemma sorted_NoDup (l : list string) : StronglySorted above l -> NoDup l.
Proof.
  induction 1 as [| d l _ IH Hall]; constructor; [| exact IH].
  intros Hin. rewrite Forall_forall in Hall. exact (above_irrefl d (Hall d Hin)).
Qed.

Lemma forallb_good l :
  forallb plain l = true -> Forall (fun seg => no_slash seg = true) l -> Forall good l.
Proof.
  rewrite forallb_forall. intros Hp Hs. apply Forall_forall. intros seg Hin.
  split; [apply Hp, list_elem_of_In, Hin |].
  rewrite Forall_forall in Hs. apply Hs, Hin.
Qed.

Lemma removelast_snoc {A} (l : list A) x : removelast (l ++ [x]) = l.
Proof. apply List.removelast_last. Qed.

(** What [getDirs] computes on an absolute and on a relative path. *)
Lemma getDirs_absolute rest seg :
  Forall good (rest ++ [seg]) ->
  getDirs (absolute_path (rest ++ [seg])) = "/" :: chain absolute_path [] rest.
Proof.
  intros Hg. pose proof Hg as [Hrest Hseg]%Forall_app.
  rewrite getDirs_unfold. unfold absolute_path at 1.
  rewrite split_leading_slash.
  rewrite split_join; [| destruct rest; discriminate | apply good_no_slash, Hg].
  change ("" :: rest ++ [seg]) with (("" :: rest) ++ [seg]).
  rewrite removelast_snoc.
  change (foldl getDirs_step [] ("" :: rest)) with (foldl getDirs_step ["/"] rest).
  change ("/" :: chain absolute_path [] rest)
    with (["/"] ++ chain absolute_path [] rest).
  apply (fold_chain absolute_path (fun _ => True)); auto.
  intros l x _ Hl Hx. split.
  - destruct (decide (l = [])) as [-> | Hne].
    + apply (join_root x Hx).
    + apply join_below_absolute; assumption.
  - discriminate.
Qed.

Lemma climbs_cons_up l : climbs (".." :: l) <-> climbs l.
Proof. reflexivity. Qed.

Lemma climbs_cons_down seg l :
  seg <> ".." -> climbs (seg :: l) <-> Forall good (seg :: l).
Proof.
  intros Hne. unfold climbs. simpl.
  destruct (String.eqb_spec seg ".."); [contradiction | reflexivity].
Qed.

Lemma climbs_prefix l1 l2 : climbs (l1 ++ l2) -> climbs l1.
Proof.
  induction l1 as [| seg l1 IH]; [intros _; constructor |].
  destruct (decide (seg = "..")) as [-> | Hne].
  - change ((".." :: l1) ++ l2) with (".." :: (l1 ++ l2)).
    rewrite !climbs_cons_up. exact IH.
  - change ((seg :: l1) ++ l2) with (seg :: (l1 ++ l2)).
    rewrite !climbs_cons_down by exact Hne.
    change (seg :: l1 ++ l2) with ((seg :: l1) ++ l2).
    intros [H _]%Forall_app. exact H.
Qed.

Lemma good_ok seg : good seg -> seg_ok seg.
Proof. intros Hg. split; [apply good_nonempty, Hg | apply Hg]. Qed.

Lemma climbs_ok l : climbs l -> Forall seg_ok l.
Proof.
  induction l as [| seg l IH]; [constructor |].
  destruct (decide (seg = "..")) as [-> | Hne].
  - rewrite climbs_cons_up. intros H. constructor; [| apply IH, H].
    split; [discriminate | reflexivity].
  - rewrite climbs_cons_down by exact Hne. intros H.
    eapply Forall_impl; [exact H | apply good_ok].
Qed.

Lemma ok_no_slash l : Forall seg_ok l -> Forall (fun seg => no_slash seg = true) l.
Proof. intros H. eapply Forall_impl; [exact H |]. intros ? [_ ?]. assumption. Qed.

Lemma ok_first seg :
  seg_ok seg -> exists c rest, seg = String c rest /\ Ascii.eqb c slash = false.
Proof.
  intros [Hne Hs]. destruct seg as [| c rest]; [contradiction |].
  simpl in Hs. apply andb_true_iff in Hs as [Hc _]. apply negb_true_iff in Hc. eauto.
Qed.

Lemma join_first_ok l :
  l <> [] -> Forall seg_ok l ->
  exists c rest, JS.join "/" l = String c rest /\ Ascii.eqb c slash = false.
Proof.
  destruct l as [| seg l]; [done |]. intros _ Hl. inversion Hl as [| ? ? Hg _]; subst.
  destruct (ok_first _ Hg) as (c & rest & -> & Hc).
  destruct l; [simpl; eauto |]. rewrite join_cons by discriminate. simpl. eauto.
Qed.

Lemma join_ends_ok l :
  l <> [] -> Forall seg_ok l -> JS.ends_with_char slash (JS.join "/" l) = false.
Proof.
  intros Hne Hl. destruct (exists_last Hne) as (l' & seg & ->).
  apply Forall_app in Hl as [_ Hseg]. inversion Hseg as [| ? ? [Hn Hs] _]; subst.
  destruct l' as [| x l'].
  - simpl. apply ends_with_no_slash, Hs.
  - rewrite join_snoc by discriminate.
    rewrite ends_with_app by discriminate.
    change (String slash seg) with ("/" +:+ seg).
    rewrite ends_with_app by exact Hn. apply ends_with_no_slash, Hs.
Qed.

Lemma join_nonempty_ok l : l <> [] -> Forall seg_ok l -> JS.join "/" l <> "".
Proof.
  intros Hne Hl. destruct (join_first_ok l Hne Hl) as (c & rest & -> & _). discriminate.
Qed.

(** [normalize] keeps leading [..] segments of a relative path. *)
Lemma normalizeString_climbs l :
  climbs l -> NodePath.normalizeString true l = l.
Proof.
  unfold NodePath.normalizeString.
  match goal with |- _ -> foldl ?f _ _ = _ => set (F := f) end.
  assert (Hgood : forall l acc, Forall good l -> foldl F acc l = acc ++ l).
  { clear. induction l as [| seg l IH]; intros acc Hl;
      [rewrite app_nil_r; reflexivity |].
    inversion Hl as [| ? ? [Hp _] Hl']; subst.
    unfold plain in Hp. apply andb_true_iff in Hp as [[H1 H2]%andb_true_iff H3].
    apply negb_true_iff in H1, H2, H3.
    simpl. unfold F at 2. rewrite H1, H2, H3. simpl.
    rewrite IH by exact Hl'. rewrite <- app_assoc. reflexivity. }
  assert (Hups : forall l acc,
            Forall (fun s => s = "..") acc -> climbs l -> foldl F acc l = acc ++ l).
  { clear - Hgood. induction l as [| seg l IH]; intros acc Hacc Hl;
      [rewrite app_nil_r; reflexivity |].
    destruct (decide (seg = "..")) as [-> | Hne].
    - apply climbs_cons_up in Hl. simpl.
      assert (F acc ".." = acc ++ [".."]) as ->.
      { unfold F. simpl.
        destruct (last acc) as [x |] eqn:El.
        - assert (x = "..") as ->.
          { rewrite Forall_forall in Hacc. apply Hacc.
            apply last_Some in El as [l' ->]. apply elem_of_app. right. left. }
          reflexivity.
        - apply last_None in El. subst. reflexivity. }
      rewrite IH; [rewrite <- app_assoc; reflexivity | | exact Hl].
      apply Forall_app. split; [exact Hacc | repeat constructor].
    - apply climbs_cons_down in Hl; [| exact Hne]. apply Hgood, Hl. }
  intros Hl. apply (Hups l []); [constructor | exact Hl].
Qed.

Lemma normalize_climbs l :
  l <> [] -> climbs l ->
  NodePath.normalize (JS.join "/" l) = JS.join "/" l.
Proof.
  intros Hne Hl. pose proof (climbs_ok l Hl) as Hok. unfold NodePath.normalize.
  destruct (join_first_ok l Hne Hok) as (c & rest & E & Hc).
  assert (String.eqb (JS.join "/" l) "" = false) as Hnonempty
    by (rewrite E; reflexivity).
  assert (JS.starts_with "/" (JS.join "/" l) = false) as Hrel
    by (rewrite E, starts_with_slash; exact Hc).
  rewrite Hnonempty, Hrel, (join_ends_ok l Hne Hok). cbv zeta. simpl negb.
  rewrite split_join by (exact Hne || apply ok_no_slash, Hok).
  rewrite normalizeString_climbs by exact Hl.
  rewrite Hnonempty. reflexivity.
Qed.

Lemma join_below_climbs l seg :
  l <> [] -> climbs (l ++ [seg]) ->
  NodePath.join [JS.join "/" l; seg] = JS.join "/" (l ++ [seg]).
Proof.
  intros Hne Hl. pose proof (climbs_ok _ Hl) as Hok.
  apply Forall_app in Hok as [Hokl Hseg]. apply List.Forall_inv in Hseg.
  destruct Hseg as [Hseg _].
  destruct (join_first_ok l Hne Hokl) as (c & rest & E & Hc).
  unfold NodePath.join.
  assert (List.filter (fun a => negb (String.eqb a "")) [JS.join "/" l; seg]
          = [JS.join "/" l; seg]) as ->.
  { simpl. rewrite E at 1. simpl.
    destruct (String.eqb_spec seg ""); [contradiction | reflexivity]. }
  change (JS.join "/" [JS.join "/" l; seg])
    with (JS.join "/" l +:+ String slash seg).
  rewrite <- join_snoc by exact Hne.
  apply normalize_climbs; [destruct l; discriminate | exact Hl].
Qed.

(** The [reduce] of [getDirs], along a list whose prefixes [join] keeps. *)
Lemma fold_joined (pth : list string -> string) rest : forall acc seen,
  last acc = Some (pth seen) ->
  (forall l1 seg l2, rest = l1 ++ seg :: l2 ->
     NodePath.join [pth (seen ++ l1); seg] = pth (seen ++ l1 ++ [seg])
     /\ pth (seen ++ l1 ++ [seg]) <> "") ->
  foldl getDirs_step acc rest = acc ++ chain pth seen rest.
Proof.
  induction rest as [| seg rest IH]; intros acc seen Hlast Hjoin.
  - simpl. rewrite app_nil_r. reflexivity.
  - simpl. destruct (Hjoin [] seg rest eq_refl) as [Hj Hne].
    rewrite app_nil_r in Hj. simpl in Hj, Hne.
    assert (getDirs_step acc seg = acc ++ [pth (seen ++ [seg])]) as ->.
    { unfold getDirs_step. rewrite Hlast, Hj.
      destruct (String.eqb_spec (pth (seen ++ [seg])) ""); [contradiction | reflexivity]. }
    rewrite (IH (acc ++ [pth (seen ++ [seg])]) (seen ++ [seg])).
    + rewrite <- app_assoc. reflexivity.
    + rewrite last_snoc. reflexivity.
    + intros l1 x l2 ->. rewrite <- !app_assoc.
      apply (Hjoin (seg :: l1) x l2). reflexivity.
Qed.

Lemma getDirs_climbs rest seg :
  climbs (rest ++ [seg]) ->
  getDirs (relative_path (rest ++ [seg])) = chain relative_path [] rest.
Proof.
  intros Hl. pose proof (climbs_ok _ Hl) as Hok.
  rewrite getDirs_unfold. unfold relative_path at 1.
  rewrite split_join; [| destruct rest; discriminate | apply ok_no_slash, Hok].
  rewrite removelast_snoc.
  destruct rest as [| s1 rest]; [reflexivity |].
  assert (Hs1 : s1 <> "").
  { inversion Hok as [| ? ? [H _] _]; subst. exact H. }
  assert (foldl getDirs_step [] (s1 :: rest) = foldl getDirs_step [s1] rest) as ->.
  { simpl. unfold getDirs_step at 2. simpl.
    destruct (String.eqb_spec s1 ""); [contradiction | reflexivity]. }
  change (chain relative_path [] (s1 :: rest))
    with ([s1] ++ chain relative_path [s1] rest).
  apply (fold_joined relative_path); [reflexivity |].
  intros l1 x l2 E.
  assert (Hpre : climbs (([s1] ++ l1) ++ [x])).
  { apply (climbs_prefix _ (l2 ++ [seg])).
    replace ((([s1] ++ l1) ++ [x]) ++ l2 ++ [seg])
      with ((s1 :: rest) ++ [seg]); [exact Hl |].
    rewrite E. simpl. rewrite <- !app_assoc. reflexivity. }
  split.
  - unfold relative_path. rewrite app_assoc.
    apply join_below_climbs; [discriminate | exact Hpre].
  - unfold relative_path. rewrite app_assoc.
    apply join_nonempty_ok; [discriminate | apply climbs_ok, Hpre].
Qed.

Lemma chain_above pth rest : forall seen,
  (forall l1 l2, l1 <> [] -> l2 <> [] -> rest = l1 ++ l2 \/ (exists l3, rest = l1 ++ l2 ++ l3) ->
     above (pth (seen ++ l1)) (pth (seen ++ l1 ++ l2))) ->
  StronglySorted above (chain pth seen rest).
Proof.
  induction rest as [| seg rest IH]; intros seen Habove; [constructor |].
  simpl. constructor.
  - apply IH. intros l1 l2 H1 H2 Hr. rewrite <- !app_assoc.
    apply (Habove ([seg] ++ l1) l2); [discriminate | exact H2 |].
    destruct Hr as [-> | [l3 ->]]; [left; reflexivity | right; exists l3; reflexivity].
  - apply Forall_forall. intros d (l1 & l2 & -> & H1 & ->)%elem_of_chain.
    rewrite <- app_assoc. apply (Habove [seg] l1); [discriminate | exact H1 |].
    right. exists l2. reflexivity.
Qed.

Lemma drop_ups_plain l :
  forallb plain (drop_ups l) = true ->
  Forall (fun seg => no_slash seg = true) l -> climbs l.
Proof.
  intros Hp Hs. unfold climbs. apply forallb_good; [exact Hp |].
  clear Hp. induction l as [| seg l IH]; [constructor |].
  inversion Hs; subst. simpl. destruct (String.eqb seg ".."); auto.
Qed.

(** The shapes of a path handed to [getDirs]. *)
Lemma handed_cases p :
  handed p = true ->
  p = "." \/ p = ""
  \/ (exists rest seg,
        Forall good (rest ++ [seg])
        /\ JS.split slash p = "" :: rest ++ [seg]
        /\ p = absolute_path (rest ++ [seg]))
  \/ (exists rest seg,
        climbs (rest ++ [seg])
        /\ JS.split slash p = rest ++ [seg]
        /\ p = relative_path (rest ++ [seg])).
Proof.
  unfold handed. intros H.
  destruct (decide (p = ".")) as [Hdot | Hdot]; [auto |].
  destruct (decide (p = "")) as [Hemp | Hemp]; [auto |].
  apply String.eqb_neq in Hdot, Hemp. rewrite Hdot, Hemp in H.
  apply String.eqb_neq in Hdot, Hemp.
  simpl in H. right. right.
  pose proof (split_segments_no_slash p) as Hs.
  pose proof (join_split p) as Hj.
  destruct (JS.split slash p) as [| x l] eqn:E; [destruct (split_nonempty _ E) |].
  assert (Hrel : forallb plain (drop_ups (x :: l)) = true ->
            exists rest seg, climbs (rest ++ [seg])
              /\ x :: l = rest ++ [seg] /\ p = relative_path (rest ++ [seg])).
  { intros Hp. destruct (exists_last (l := x :: l) ltac:(discriminate)) as (rest & seg & Er).
    exists rest, seg. rewrite <- Er. split; [apply drop_ups_plain; assumption |].
    split; [reflexivity |]. unfold relative_path. rewrite <- Hj. reflexivity. }
  destruct (String.eqb_spec x "") as [-> | Hx].
  - destruct l as [| y l]; [simpl in Hj; congruence |].
    left.
    destruct (exists_last (l := y :: l) ltac:(discriminate)) as (rest & seg & Er).
    exists rest, seg. rewrite <- Er. apply Forall_cons in Hs as [_ Hs].
    split; [apply forallb_good; assumption |].
    split; [reflexivity |]. unfold absolute_path. rewrite <- Hj.
    rewrite join_cons by discriminate. reflexivity.
  - right. apply Hrel. destruct x as [| c x]; [contradiction |]. exact H.
Qed.

Lemma chain_length pth rest : forall seen,
  length (chain pth seen rest) = length rest.
Proof.
  induction rest as [| seg rest IH]; intros seen; [reflexivity |].
  simpl. rewrite IH. reflexivity.
Qed.

Lemma climbs_no_dot l : climbs l -> Forall (fun seg => seg <> ".") l.
Proof.
  induction l as [| seg l IH]; [constructor |].
  destruct (decide (seg = "..")) as [-> | Hne].
  - rewrite climbs_cons_up. intros H. constructor; [discriminate | apply IH, H].
  - rewrite climbs_cons_down by exact Hne. intros H.
    eapply Forall_impl; [exact H |]. intros x [Hp _] ->. discriminate Hp.
Qed.

Lemma drop_ups_snoc l seg :
  seg <> ".." -> drop_ups (l ++ [seg]) = drop_ups l ++ [seg].
Proof.
  intros Hne. induction l as [| x l IH]; simpl.
  - destruct (String.eqb_spec seg ".."); [contradiction | reflexivity].
  - destruct (String.eqb x ".."); [exact IH | reflexivity].
Qed.

Lemma drop_ups_suffix l : exists ups, l = ups ++ drop_ups l /\ Forall (fun s => s = "..") ups.
Proof.
  induction l as [| x l (ups & E & Hups)]; [exists []; split; [reflexivity | constructor] |].
  simpl. destruct (String.eqb_spec x "..") as [-> | Hne].
  - exists (".." :: ups). split; [simpl; congruence | constructor; [reflexivity | exact Hups]].
  - exists []. split; [reflexivity | constructor].
Qed.

Lemma climbs_snoc_up l : climbs l -> last l = Some ".." -> climbs (l ++ [".."]).
Proof.
  intros Hc Hl. destruct (drop_ups_suffix l) as (ups & E & Hups).
  assert (Hd : drop_ups l = []).
  { destruct (drop_ups l) as [| x d] eqn:Ed using rev_ind; [reflexivity |].
    clear IHd. rewrite E, app_assoc, last_snoc in Hl. injection Hl as ->.
    unfold climbs in Hc. rewrite Ed in Hc.
    apply Forall_app in Hc as [_ Hc]. apply List.Forall_inv in Hc.
    destruct Hc as [Hp _]. discriminate Hp. }
  rewrite Hd, app_nil_r in E. subst l. clear Hd Hc Hl.
  unfold climbs. induction Hups as [| x ups -> _ IH]; [constructor | exact IH].
Qed.

Lemma climbs_snoc l seg : climbs l -> good seg -> climbs (l ++ [seg]).
Proof.
  intros Hc Hg. unfold climbs. rewrite drop_ups_snoc.
  - apply Forall_app. split; [exact Hc | constructor; [exact Hg | constructor]].
  - intros ->. destruct Hg as [Hp _]. discriminate Hp.
Qed.

Lemma removelast_last_app l x : last l = Some x -> l = removelast l ++ [x].
Proof.
  intros [l' ->]%last_Some. rewrite removelast_snoc. reflexivity.
Qed.

(** What [normalize] leaves of any list of segments. *)
Lemma normalizeString_shape allow segs :
  Forall (fun seg => no_slash seg = true) segs ->
  climbs (NodePath.normalizeString allow segs)
  /\ (allow = false -> Forall good (NodePath.normalizeString allow segs)).
Proof.
  unfold NodePath.normalizeString.
  match goal with |- _ -> climbs (foldl ?f _ _) /\ _ => set (F := f) end.
  set (P := fun res : list string => climbs res /\ (allow = false -> Forall good res)).
  assert (Hstep : forall res seg, P res -> no_slash seg = true -> P (F res seg)).
  { intros res seg [Hc Hg] Hs. unfold F.
    destruct (String.eqb_spec seg "") as [-> | H1]; [split; assumption |].
    destruct (String.eqb_spec seg ".") as [-> | H2]; [split; assumption |].
    simpl orb. cbv iota.
    destruct (String.eqb_spec seg "..") as [-> | H3].
    - destruct (last res) as [x |] eqn:El.
      + destruct (String.eqb_spec x "..") as [-> | Hx].
        * destruct allow; [| split; assumption].
          split; [apply climbs_snoc_up; assumption | discriminate].
        * rewrite (removelast_last_app res x El) in Hc, Hg.
          split; [apply (climbs_prefix _ [x]), Hc |].
          intros Ha. apply Forall_app in Hg as [Hg _]; [exact Hg | exact Ha].
      + destruct allow; split; try discriminate; try constructor.
    - assert (Hgood : good seg).
      { split; [| exact Hs]. unfold plain.
        apply String.eqb_neq in H1, H2, H3. rewrite H1, H2, H3. reflexivity. }
      split; [apply climbs_snoc; assumption |].
      intros Ha. apply Forall_app. split; [apply Hg, Ha | constructor; [exact Hgood | constructor]]. }
  assert (Hall : forall l acc, P acc -> Forall (fun seg => no_slash seg = true) l ->
            P (foldl F acc l)).
  { induction l as [| seg l IH]; intros acc Hacc Hl; [exact Hacc |].
    inversion Hl; subst. simpl. apply IH; [apply Hstep; assumption | assumption]. }
  intros Hs. apply (Hall segs []); [| exact Hs].
  split; [constructor | intros _; constructor].
Qed.

Lemma good_plain l : Forall good l -> forallb plain l = true.
Proof.
  intros Hl. apply forallb_forall. intros x Hin%list_elem_of_In.
  rewrite Forall_forall in Hl. apply Hl, Hin.
Qed.

Lemma climbs_handed l :
  l <> [] -> climbs l -> handed (relative_path l) = true.
Proof.
  intros Hne Hc. pose proof (climbs_ok l Hc) as Hok.
  unfold handed, relative_path.
  rewrite split_join by (exact Hne || apply ok_no_slash, Hok).
  destruct l as [| x l]; [contradiction |].
  inversion Hok as [| ? ? [Hx _] _]; subst.
  destruct x as [| c x]; [contradiction |].
  rewrite (good_plain _ Hc). apply orb_true_r.
Qed.

Lemma good_handed l :
  l <> [] -> Forall good l -> handed (absolute_path l) = true.
Proof.
  intros Hne Hg. unfold handed, absolute_path.
  rewrite split_leading_slash.
  rewrite split_join by (exact Hne || apply good_no_slash, Hg).
  destruct l as [| x l]; [contradiction |].
  rewrite (good_plain _ Hg). apply orb_true_r.
Qed.

(** Whatever the path, [path.join] returns a path of these shapes, with a
    slash after it when the path ended with one. *)
Lemma join_handed x :
  exists q, handed q = true
            /\ (NodePath.join [x] = q \/ NodePath.join [x] = q +:+ "/").
Proof.
  unfold NodePath.join. simpl.
  destruct (String.eqb_spec x "") as [-> | Hx];
    [exists "."; split; [reflexivity | left; reflexivity] |].
  simpl. unfold NodePath.normalize.
  apply String.eqb_neq in Hx. rewrite Hx. cbv zeta.
  pose proof (normalizeString_shape (negb (JS.starts_with "/" x))
                (JS.split slash x) (split_segments_no_slash x)) as [Hc Hg].
  set (l := NodePath.normalizeString (negb (JS.starts_with "/" x))
              (JS.split slash x)) in *.
  destruct (decide (l = [])) as [-> | Hne].
  - simpl. destruct (JS.starts_with "/" x).
    + exists "". split; [reflexivity | right; reflexivity].
    + destruct (JS.ends_with_char slash x);
        exists "."; (split; [reflexivity |]); [right | left]; reflexivity.
  - pose proof (join_nonempty_ok l Hne (climbs_ok l Hc)) as Hj.
    apply String.eqb_neq in Hj. rewrite Hj.
    destruct (JS.starts_with "/" x).
    + exists (absolute_path l). split; [apply good_handed; auto |].
      destruct (JS.ends_with_char slash x); [right | left]; reflexivity.
    + exists (relative_path l). split; [apply climbs_handed; assumption |].
      destruct (JS.ends_with_char slash x); [right | left]; reflexivity.
Qed.

(** C5, as the code has it.  For a path [p] as [reserve] hands it to
    [getDirs], [getDirs p] is the chain of the directories above [p]: one
    for each segment of [p] but the last, each the path of the segments
    up to it.  It is strictly ordered, each directory a proper prefix of
    the next and all of them of [p]; it ends with the directory [p] sits
    in; it has no duplicates and does not contain [p]; it holds the root
    [/] exactly when [p] is absolute, and then starts with it, while the
    ancestors of a relative path start with its first segment. *)
Theorem getDirs_handed p :
  handed p = true ->
  getDirs p = ancestors p
  /\ length (getDirs p) = pred (length (JS.split slash p))
  /\ StronglySorted above (getDirs p)
  /\ Forall (fun d => above d p) (getDirs p)
  /\ (getDirs p <> [] -> exists d, last (getDirs p) = Some d /\ sits_in d p)
  /\ NoDup (getDirs p)
  /\ (p ∉ getDirs p)
  /\ ("/" ∈ getDirs p <-> JS.starts_with "/" p = true)
  /\ head (getDirs p)
     = (match JS.split slash p with
        | "" :: _ :: _ => Some "/"
        | seg :: _ :: _ => Some seg
        | _ => None
        end).
Proof.
  intros Hp.
  assert (Hnone : forall q, getDirs q = [] -> ancestors q = [] ->
            length (JS.split slash q) = 1%nat ->
            JS.starts_with "/" q = false ->
            getDirs q = ancestors q
            /\ length (getDirs q) = pred (length (JS.split slash q))
            /\ StronglySorted above (getDirs q)
            /\ Forall (fun d => above d q) (getDirs q)
            /\ (getDirs q <> [] ->
                exists d, last (getDirs q) = Some d /\ sits_in d q)
            /\ NoDup (getDirs q)
            /\ (q ∉ getDirs q)
            /\ ("/" ∈ getDirs q <-> JS.starts_with "/" q = true)
            /\ head (getDirs q)
               = (match JS.split slash q with
                  | "" :: _ :: _ => Some "/"
                  | seg :: _ :: _ => Some seg
                  | _ => None
                  end)).
  { intros q Eg Ea El Es. rewrite Eg, Ea, El, Es.
    repeat split; try constructor; try done.
    - intros H. inversion H.
    - intros H. inversion H.
    - destruct (JS.split slash q) as [| x [| y l]]; try discriminate El.
      destruct x; reflexivity. }
  assert (Hsorted_all : forall ds,
            StronglySorted above ds -> Forall (fun d => above d p) ds ->
            NoDup ds /\ p ∉ ds).
  { intros ds Hs Ha. split; [apply sorted_NoDup, Hs |].
    intros Hin. rewrite Forall_forall in Ha. exact (above_irrefl p (Ha p Hin)). }
  destruct (handed_cases p Hp)
    as [-> | [-> | [(rest & seg & Hg & Esplit & Ep)
                   | (rest & seg & Hc & Esplit & Ep)]]];
    [apply Hnone; reflexivity | apply Hnone; reflexivity | |].
  - (* absolute *)
    pose proof Hg as [Hrest Hseg]%Forall_app.
    apply List.Forall_inv in Hseg.
    assert (Eg : getDirs p = "/" :: chain absolute_path [] rest)
      by (rewrite Ep; apply getDirs_absolute, Hg).
    assert (Ea : ancestors p = "/" :: chain absolute_path [] rest).
    { unfold ancestors. rewrite Esplit.
      destruct (rest ++ [seg]) as [| x l] eqn:E;
        [destruct rest; discriminate E |].
      rewrite <- E, removelast_snoc. reflexivity. }
    rewrite Eg, Esplit.
    assert (Hs : StronglySorted above ("/" :: chain absolute_path [] rest)).
    { constructor.
      - apply chain_sorted; [exact Hrest |]. intros l1 l2 H1 H2 Hl.
        simpl app. apply above_absolute; assumption.
      - apply Forall_forall. intros d (l1 & l2 & -> & H1 & ->)%elem_of_chain.
        apply Forall_app in Hrest as [Hl1 _].
        apply (above_absolute [] l1); assumption. }
    assert (Ha : Forall (fun d => above d p)
                   ("/" :: chain absolute_path [] rest)).
    { rewrite Ep. constructor.
      - apply (above_absolute [] (rest ++ [seg])); [destruct rest; discriminate | exact Hg].
      - apply Forall_forall. intros d (l1 & l2 & -> & H1 & ->)%elem_of_chain.
        simpl app. rewrite <- app_assoc.
        apply above_absolute; [destruct l2; discriminate |]. rewrite app_assoc. exact Hg. }
    destruct (Hsorted_all _ Hs Ha) as [Hnd Hnp].
    assert (Habs : JS.starts_with "/" p = true)
      by (rewrite Ep; apply starts_with_slash).
    split; [symmetry; exact Ea |].
    split; [simpl; rewrite chain_length, length_app; simpl; lia |].
    split; [exact Hs |]. split; [exact Ha |].
    split; [| split; [exact Hnd |]; split; [exact Hnp |];
              split; [split; [intros _; exact Habs | intros _; left] |]].
    + intros _. destruct Hseg as [Hpl Hns].
      assert (Hseg' : seg <> "" /\ seg <> "." /\ no_slash seg = true).
      { repeat split; [| | exact Hns]; intros ->; discriminate Hpl. }
      destruct rest as [| s1 rest'].
      * exists "/". split; [reflexivity |]. exists seg.
        destruct Hseg' as (? & ? & ?). do 3 (split; [assumption |]).
        rewrite Ep. reflexivity.
      * exists (absolute_path (s1 :: rest')).
        split; [rewrite last_cons, last_chain by discriminate; reflexivity |].
        exists seg. destruct Hseg' as (? & ? & ?). do 3 (split; [assumption |]).
        rewrite Ep. unfold absolute_path. rewrite join_snoc by discriminate.
        destruct (join_first (s1 :: rest') ltac:(discriminate) Hrest)
          as (c & r & E & Hc).
        rewrite E.
        replace (String.eqb (String slash (String c r)) "/") with false
          by reflexivity.
        rewrite !str_app_cons, str_app_assoc. reflexivity.
    + destruct rest; reflexivity.
  - (* relative *)
    pose proof (climbs_ok _ Hc) as Hok.
    pose proof Hok as [Hokrest Hokseg]%Forall_app.
    apply List.Forall_inv in Hokseg.
    assert (Eg : getDirs p = chain relative_path [] rest)
      by (rewrite Ep; apply getDirs_climbs, Hc).
    assert (Hfirst : forall s1 rest', rest = s1 :: rest' ->
              exists c s1', s1 = String c s1').
    { intros s1 rest' ->. inversion Hokrest as [| ? ? [Hn _] _]; subst.
      destruct s1; [contradiction | eauto]. }
    assert (Ea : ancestors p = chain relative_path [] rest).
    { unfold ancestors. rewrite Esplit.
      destruct rest as [| s1 rest'].
      - simpl. destruct seg; reflexivity.
      - destruct (Hfirst s1 rest' eq_refl) as (c & s1' & ->).
        change ((String c s1' :: rest') ++ [seg])
          with (String c s1' :: (rest' ++ [seg])).
        destruct (rest' ++ [seg]) as [| x l] eqn:E;
          [destruct rest'; discriminate E |].
        rewrite <- E.
        change (String c s1' :: rest' ++ [seg])
          with ((String c s1' :: rest') ++ [seg]).
        rewrite removelast_snoc. reflexivity. }
    rewrite Eg, Esplit.
    assert (Hs : StronglySorted above (chain relative_path [] rest)).
    { apply chain_above. intros l1 l2 H1 H2 _.
      simpl app. apply above_relative; assumption. }
    assert (Ha : Forall (fun d => above d p) (chain relative_path [] rest)).
    { rewrite Ep. apply Forall_forall.
      intros d (l1 & l2 & -> & H1 & ->)%elem_of_chain.
      simpl app. rewrite <- app_assoc.
      apply above_relative; [exact H1 | destruct l2; discriminate]. }
    destruct (Hsorted_all _ Hs Ha) as [Hnd Hnp].
    assert (Hrel : JS.starts_with "/" p = false).
    { rewrite Ep.
      destruct (join_first_ok (rest ++ [seg]) ltac:(destruct rest; discriminate) Hok)
        as (c & r & E & Hcs).
      unfold relative_path. rewrite E, starts_with_slash. exact Hcs. }
    assert (Hnoroot : "/" ∉ chain relative_path [] rest).
    { intros (l1 & l2 & -> & H1 & E)%elem_of_chain. simpl in E.
      apply Forall_app in Hokrest as [Hl1 _].
      destruct (join_first_ok l1 H1 Hl1) as (c & r & E' & Hcs).
      unfold relative_path in E. rewrite E' in E. injection E as <- _.
      vm_compute in Hcs. discriminate. }
    split; [symmetry; exact Ea |].
    split; [rewrite chain_length, length_app; simpl; lia |].
    split; [exact Hs |]. split; [exact Ha |].
    split; [| split; [exact Hnd |]; split; [exact Hnp |];
              split; [split; [intros Hin; contradiction |
                              rewrite Hrel; discriminate] |]].
    + intros Hne. destruct rest as [| s1 rest']; [contradiction Hne; reflexivity |].
      exists (relative_path (s1 :: rest')).
      split; [rewrite last_chain by discriminate; reflexivity |].
      exists seg. destruct Hokseg as [Hn Hns].
      pose proof (climbs_no_dot _ Hc) as [_ Hd]%Forall_app.
      apply List.Forall_inv in Hd.
      do 3 (split; [assumption |]).
      rewrite Ep. unfold relative_path. rewrite join_snoc by discriminate.
      destruct (join_first_ok (s1 :: rest') ltac:(discriminate) Hokrest)
        as (c & r & E & Hcs).
      rewrite E.
      assert (String.eqb (String c r) "/" = false) as ->.
      { apply String.eqb_neq. intros [= -> _]. vm_compute in Hcs. discriminate. }
      rewrite str_app_assoc. reflexivity.
    + destruct rest as [| s1 rest'].
      * simpl. destruct seg; reflexivity.
      * destruct (Hfirst s1 rest' eq_refl) as (c & s1' & ->).
        destruct rest'; reflexivity.
Qed.

(** A link target two directories up, as [path.join] leaves it. *)
Lemma getDirs_handed_witness :
  getDirs "../../a/b" = ancestors "../../a/b"
  /\ length (getDirs "../../a/b") = pred (length (JS.split slash "../../a/b"))
  /\ StronglySorted above (getDirs "../../a/b")
  /\ Forall (fun d => above d "../../a/b") (getDirs "../../a/b")
  /\ (getDirs "../../a/b" <> [] ->
      exists d, last (getDirs "../../a/b") = Some d /\ sits_in d "../../a/b")
  /\ NoDup (getDirs "../../a/b")
  /\ ("../../a/b" ∉ getDirs "../../a/b")
  /\ ("/" ∈ getDirs "../../a/b" <-> JS.starts_with "/" "../../a/b" = true)
  /\ head (getDirs "../../a/b")
     = (match JS.split slash "../../a/b" with
        | "" :: _ :: _ => Some "/"
        | seg :: _ :: _ => Some seg
        | _ => None
        end).
Proof. apply (getDirs_handed "../../a/b"). reflexivity. Defined.

(** C5, as stated, fails: the paths [Unpack] reserves are relative to the
    extraction root, and the ancestors of a relative path do not include
    the file system root. *)
Lemma getDirs_relative_has_no_root :
  handed "a/b/c" = true
  /\ getDirs "a/b/c" = ["a"; "a/b"]
  /\ "/" ∉ getDirs "a/b/c".
Proof.
  split; [reflexivity |]. split; [reflexivity |].
  change (getDirs "a/b/c") with ["a"; "a/b"].
  rewrite !not_elem_of_cons. repeat split; try discriminate.
  apply not_elem_of_nil.
Qed.

End Paths.

(** ** The scheduler *)

Section Scheduler.
Import PathReservations.
Implicit Types (qs : gmap string (list Slot)).
Implicit Types (rs : gmap Handler Reservation).
Implicit Types (fn f g : Handler) (k p d : string) (q : list Slot).

Lemma occ_nil {A} `{EqDecision A} (x : A) : occ x [] = 0%nat.
Proof. reflexivity. Qed.

Lemma occ_cons {A} `{EqDecision A} (x y : A) l :
  occ x (y :: l) = ((if decide (y = x) then 1 else 0) + occ x l)%nat.
Proof. unfold occ. rewrite filter_cons. case_decide; reflexivity. Qed.

Lemma occ_app {A} `{EqDecision A} (x : A) l1 l2 :
  occ x (l1 ++ l2) = (occ x l1 + occ x l2)%nat.
Proof. unfold occ. rewrite filter_app, length_app. reflexivity. Qed.

Lemma occ_0 {A} `{EqDecision A} (x : A) l : occ x l = 0%nat <-> x ∉ l.
Proof.
  induction l as [| y l IH]; [rewrite occ_nil; split; [intros _; apply not_elem_of_nil | done] |].
  rewrite occ_cons, not_elem_of_cons. case_decide; subst.
  - split; [lia | intros [? _]; done].
  - rewrite <- IH. split; [intros; split; [congruence | lia] | intros [_ ?]; lia].
Qed.

(** The two tests of [check], on the head of a queue. *)
Lemma first_is_spec fn (o : option (list Slot)) :
  first_is fn o = true <-> exists q, o = Some (Fn fn :: q).
Proof.
  unfold first_is. split.
  - repeat case_match; try discriminate. intros ?%bool_decide_eq_true. subst. eauto.
  - intros [q ->]. apply bool_decide_eq_true. reflexivity.
Qed.

Lemma first_has_spec fn (o : option (list Slot)) :
  first_has fn o = true <-> exists l q, o = Some (Dirs l :: q) /\ fn ∈ l.
Proof.
  unfold first_has. split.
  - repeat case_match; try discriminate. intros ?%bool_decide_eq_true. eauto.
  - intros (l & q & -> & Hin). apply bool_decide_eq_true. exact Hin.
Qed.

(** *** [reserve]: entering the queues *)

Lemma lookup_push_path fn qs p k :
  push_path fn qs p !! k
  = if decide (p = k) then Some (default [] (qs !! p) ++ [Fn fn]) else qs !! k.
Proof.
  unfold push_path. destruct (qs !! p) as [q |] eqn:E; rewrite lookup_insert;
    case_decide; reflexivity.
Qed.

Lemma lookup_push_dir fn qs d k :
  push_dir fn qs d !! k
  = if decide (d = k) then Some (dir_pushed fn (qs !! d)) else qs !! k.
Proof.
  unfold push_dir, dir_pushed. destruct (qs !! d) as [q |] eqn:E.
  - destruct (last q) as [[|]|]; rewrite lookup_insert; case_decide; reflexivity.
  - rewrite lookup_insert; case_decide; reflexivity.
Qed.

(** A loop that rewrites one queue per turn keeps what every rewrite keeps. *)
Lemma loop_keeps (F : option (list Slot) -> option (list Slot))
    (step : gmap string (list Slot) -> string -> gmap string (list Slot))
    (P : option (list Slot) -> Prop) :
  (forall qs key k,
     step qs key !! k = if decide (key = k) then F (qs !! key) else qs !! k) ->
  (forall o, P o -> P (F o)) ->
  forall keys qs k, P (qs !! k) -> P (foldl step qs keys !! k).
Proof.
  intros Hstep HP keys. induction keys as [| key keys IH]; intros qs k H; [exact H |].
  simpl. apply IH. rewrite Hstep. case_decide; subst; auto.
Qed.

Lemma head_app_keeps (x : Slot) q q' : head q = Some x -> head (q ++ q') = Some x.
Proof. destruct q; [discriminate | simpl; auto]. Qed.

Lemma first_is_head fn o :
  first_is fn o = true <-> o ≫= head = Some (Fn fn).
Proof.
  rewrite first_is_spec. split.
  - intros [q ->]. reflexivity.
  - destruct o as [[| x q] |]; simpl; try discriminate. intros [= ->]. eauto.
Qed.

Lemma first_has_head fn o :
  first_has fn o = true <-> exists l, o ≫= head = Some (Dirs l) /\ fn ∈ l.
Proof.
  rewrite first_has_spec. split.
  - intros (l & q & -> & H). eauto.
  - intros (l & H & Hin). destruct o as [[| x q] |]; simpl in H; try discriminate.
    simplify_eq. eauto.
Qed.

Lemma path_pushed_first_is fn g o :
  first_is g o = true -> first_is g (path_pushed fn o) = true.
Proof.
  rewrite !first_is_spec. intros [q ->]. simpl. eauto.
Qed.

Lemma path_pushed_first_has fn g o :
  first_has g o = true -> first_has g (path_pushed fn o) = true.
Proof.
  rewrite !first_has_spec. intros (l & q & -> & H). simpl. eauto.
Qed.

Lemma removelast_app_last {A} (q : list A) x : last q = Some x -> q = removelast q ++ [x].
Proof.
  intros H. destruct (decide (q = [])) as [-> | Hne]; [discriminate |].
  rewrite (app_removelast_last x Hne) at 1. f_equal. f_equal.
  apply last_Some in H as [q' ->]. rewrite List.last_last. reflexivity.
Qed.

Lemma dir_pushed_head fn q x :
  head q = Some x ->
  head (dir_pushed fn (Some q)) = Some x
  \/ exists l, x = Dirs l /\ q = [Dirs l]
               /\ dir_pushed fn (Some q) = [Dirs (Set_add fn l)].
Proof.
  intros Hh. unfold dir_pushed.
  destruct (last q) as [[f | l] |] eqn:Hl; try (left; apply head_app_keeps, Hh).
  pose proof (removelast_app_last _ _ Hl) as Hq.
  destruct (removelast q) as [| y q'] eqn:Hr.
  - right. exists l. rewrite Hq in Hh. simpl in Hh. simplify_eq. auto.
  - left. rewrite Hq in Hh. simpl in *. exact Hh.
Qed.

Lemma Set_add_keeps {A} `{EqDecision A} (x y : A) l : y ∈ l -> y ∈ Set_add x l.
Proof. unfold Set_add. case_decide; [auto |]. intros. apply elem_of_app. auto. Qed.

Lemma Set_add_has {A} `{EqDecision A} (x : A) l : x ∈ Set_add x l.
Proof. unfold Set_add. case_decide; [auto |]. apply elem_of_app. right. constructor. Qed.

Lemma elem_of_Set_add {A} `{EqDecision A} (x y : A) l : y ∈ Set_add x l <-> y = x \/ y ∈ l.
Proof.
  unfold Set_add. case_decide.
  - split; [auto | intros [-> | ?]; auto].
  - rewrite elem_of_app, list_elem_of_singleton. tauto.
Qed.

Lemma dir_pushed_first_is fn g o :
  first_is g o = true -> first_is g (Some (dir_pushed fn o)) = true.
Proof.
  rewrite !first_is_head. destruct o as [q |]; [| discriminate].
  change (head q = Some (Fn g) -> head (dir_pushed fn (Some q)) = Some (Fn g)).
  intros Hh. destruct (dir_pushed_head fn q _ Hh) as [H | (l & ? & _)]; [exact H | discriminate].
Qed.

Lemma dir_pushed_first_has fn g o :
  first_has g o = true -> first_has g (Some (dir_pushed fn o)) = true.
Proof.
  rewrite !first_has_head. destruct o as [q |]; [| intros (? & ? & _); discriminate].
  intros (l & Hh & Hin).
  change (head q = Some (Dirs l)) in Hh.
  change (exists l0, head (dir_pushed fn (Some q)) = Some (Dirs l0) /\ g ∈ l0).
  destruct (dir_pushed_head fn q _ Hh) as [H | (l' & ? & _ & ->)]; [eauto |].
  simplify_eq. exists (Set_add fn l'). split; [reflexivity | apply Set_add_keeps, Hin].
Qed.

Lemma push_paths_keep fn (P : option (list Slot) -> Prop) :
  (forall o, P o -> P (path_pushed fn o)) ->
  forall ps qs k, P (qs !! k) -> P (foldl (push_path fn) qs ps !! k).
Proof.
  intros HP. apply (loop_keeps (path_pushed fn)); [| exact HP].
  intros qs key k. rewrite lookup_push_path. reflexivity.
Qed.

Lemma push_dirs_keep fn (P : option (list Slot) -> Prop) :
  (forall o, P o -> P (Some (dir_pushed fn o))) ->
  forall ds qs k, P (qs !! k) -> P (foldl (push_dir fn) qs ds !! k).
Proof.
  intros HP. apply (loop_keeps (fun o => Some (dir_pushed fn o))); [| exact HP].
  intros qs key k. rewrite lookup_push_dir. reflexivity.
Qed.

(** [check] reads the reservation of the handler and the heads of its queues. *)
Lemma check_true s fn :
  check s fn = Some true <->
  exists r, reservations s !! fn = Some r
    /\ (forall p, p ∈ paths r -> first_is fn (queues s !! p) = true)
    /\ (forall d, d ∈ dirs r -> first_has fn (queues s !! d) = true).
Proof.
  unfold check. destruct (reservations s !! fn) as [r |]; simpl.
  - split.
    + intros [= H]. apply andb_true_iff in H as [H1 H2].
      rewrite forallb_forall in H1, H2. exists r. split; [done |].
      split; intros x Hx; [apply H1 | apply H2]; apply list_elem_of_In, Hx.
    + intros (r' & [= <-] & H1 & H2). f_equal. apply andb_true_iff.
      rewrite !forallb_forall. split; intros x Hx; [apply H1 | apply H2];
        apply list_elem_of_In, Hx.
  - split; [discriminate | intros (r & ? & _); discriminate].
Qed.

Lemma run_spec s fn b s' :
  run s fn = Some (b, s') ->
  queues s' = queues s /\ reservations s' = reservations s
  /\ ((b = false /\ s' = s) \/
      (b = true /\ (fn ∉ running s) /\ check s fn = Some true
       /\ running s' = ({[fn]} ∪ running s))).
Proof.
  unfold run. case_bool_decide as Hr.
  { intros [= <- <-]. auto. }
  destruct (check s fn) as [[|] |] eqn:Hc; simpl; intros [= <- <-].
  - split; [reflexivity |]. split; [reflexivity |]. right. auto.
  - auto.
Qed.

Lemma check_ext s s' fn :
  queues s' = queues s -> reservations s' = reservations s ->
  check s' fn = check s fn.
Proof. unfold check. intros -> ->. reflexivity. Qed.

Lemma run_Inv s fn b s' : Inv s -> run s fn = Some (b, s') -> Inv s'.
Proof.
  intros HI Hrun. apply run_spec in Hrun as (Hq & Hr & Hcase).
  destruct Hcase as [[_ ->] | (_ & _ & Hc & Hrun)]; [exact HI |].
  destruct HI as [I1 I2 I3 I4 I5].
  split; rewrite ?Hq, ?Hr; auto.
  intros f Hf. rewrite (check_ext s s' f Hq Hr).
  rewrite Hrun in Hf. apply elem_of_union in Hf as [->%elem_of_singleton | Hf]; auto.
Qed.

Lemma NoDup_Set_add {A} `{EqDecision A} (x : A) l : NoDup l -> NoDup (Set_add x l).
Proof.
  intros H. unfold Set_add. case_decide; [exact H |].
  apply NoDup_app. split; [exact H |]. split; [| apply NoDup_singleton].
  intros y Hy ->%list_elem_of_singleton. contradiction.
Qed.

Lemma NoDup_Set_from {A} `{EqDecision A} (l : list A) : NoDup (Set_from l).
Proof.
  unfold Set_from. generalize (NoDup_nil_2 (A := A)). generalize (@nil A).
  induction l as [| x l IH]; intros acc Hacc; [exact Hacc |].
  simpl. apply IH, NoDup_Set_add, Hacc.
Qed.

Lemma lookup_default_app qs k x :
  default [] (path_pushed x (qs !! k)) = default [] (qs !! k) ++ [Fn x].
Proof. reflexivity. Qed.

Lemma qcount_push_paths fn f ps : forall qs k,
  qcount f (foldl (push_path fn) qs ps) k
  = (qcount f qs k + if decide (f = fn) then occ k ps else 0)%nat.
Proof.
  induction ps as [| p ps IH]; intros qs k.
  - simpl. case_decide; rewrite ?occ_nil; lia.
  - simpl. rewrite IH. unfold qcount at 1. rewrite lookup_push_path.
    rewrite occ_cons. unfold qcount.
    destruct (decide (p = k)) as [-> | Hne].
    + simpl. rewrite occ_app, occ_cons, occ_nil.
      repeat case_decide; simplify_eq; lia.
    + repeat case_decide; simplify_eq; lia.
Qed.

Lemma occ_dir_pushed fn f o :
  occ (Fn f) (dir_pushed fn o) = occ (Fn f) (default [] o).
Proof.
  unfold dir_pushed. destruct o as [q |]; [| reflexivity]. simpl.
  destruct (last q) as [[g | l] |] eqn:Hl.
  - rewrite occ_app, occ_cons, occ_nil. case_decide; [discriminate | lia].
  - rewrite (removelast_app_last _ _ Hl) at 2.
    rewrite !occ_app, !occ_cons, !occ_nil. repeat case_decide; try discriminate; lia.
  - rewrite occ_app, occ_cons, occ_nil. case_decide; [discriminate | lia].
Qed.

Lemma qcount_push_dirs fn f ds qs k :
  qcount f (foldl (push_dir fn) qs ds) k = qcount f qs k.
Proof.
  unfold qcount.
  apply (push_dirs_keep fn (fun o => occ (Fn f) (default [] o) = occ (Fn f) (default [] (qs !! k))));
    [| reflexivity].
  intros o <-. apply occ_dir_pushed.
Qed.

Lemma known_insert rs fn r x : known rs x -> known (<[fn := r]> rs) x.
Proof.
  assert (H : forall f, is_Some (rs !! f) -> is_Some (<[fn := r]> rs !! f)).
  { intros f Hf. rewrite lookup_insert. case_decide; [eauto | exact Hf]. }
  destruct x; simpl; auto.
Qed.

Lemma path_pushed_known rs fn o :
  is_Some (rs !! fn) -> all_known rs o -> all_known rs (path_pushed fn o).
Proof.
  intros Hfn Ho q x [= <-] Hx. apply elem_of_app in Hx as [Hx | ->%list_elem_of_singleton].
  - destruct o as [q |]; [eapply Ho; eauto | inversion Hx].
  - exact Hfn.
Qed.

Lemma dir_pushed_known rs fn o :
  is_Some (rs !! fn) -> all_known rs o -> all_known rs (Some (dir_pushed fn o)).
Proof.
  intros Hfn Ho q' x [= <-] Hx. unfold dir_pushed in Hx.
  assert (Hnew : known rs (Dirs [fn])).
  { intros f ->%list_elem_of_singleton. exact Hfn. }
  destruct o as [q |]; [| apply list_elem_of_singleton in Hx as ->; exact Hnew].
  assert (Hq : forall y, y ∈ q -> known rs y) by (intros; eapply Ho; eauto).
  destruct (last q) as [[g | l] |] eqn:Hl.
  - apply elem_of_app in Hx as [Hx | ->%list_elem_of_singleton]; auto.
  - pose proof (removelast_app_last _ _ Hl) as E.
    apply elem_of_app in Hx as [Hx | ->%list_elem_of_singleton].
    + apply Hq. rewrite E. apply elem_of_app. auto.
    + assert (Hk : known rs (Dirs l)).
      { apply Hq. rewrite E. apply elem_of_app. right. constructor. }
      intros f [-> | Hf]%elem_of_Set_add; [exact Hfn | apply Hk, Hf].
  - apply elem_of_app in Hx as [Hx | ->%list_elem_of_singleton]; auto.
Qed.

Lemma unknown_qcount s fn k :
  Inv s -> reservations s !! fn = None -> qcount fn (queues s) k = 0%nat.
Proof.
  intros HI Hfn. unfold qcount. apply occ_0. intros Hin.
  destruct (queues s !! k) as [q |] eqn:E; [| inversion Hin].
  pose proof (inv_known s HI k q (Fn fn) E Hin) as [r Hr]. simpl in Hr. congruence.
Qed.

Lemma reserve_Inv h ps fn s b s' :
  Inv s -> reservations s !! fn = None ->
  reserve h ps fn s = Some (b, s') -> Inv s'.
Proof.
  intros HI Hfresh. unfold reserve.
  set (ps' := if isWindows h then _ else _).
  destruct ps' as [| p0 ps0] eqn:Eps; [discriminate |].
  rewrite <- Eps.
  assert (Hps : ps' <> []) by (rewrite Eps; discriminate).
  clear Eps. clearbody ps'.
  set (ds := Set_from _). set (r := {| paths := ps'; dirs := ds |}).
  apply run_Inv.
  assert (Hfn : is_Some (<[fn := r]> (reservations s) !! fn))
    by (rewrite lookup_insert_eq; eauto).
  split; simpl.
  - intros f Hf. apply check_true.
    apply (inv_running s HI), check_true in Hf as (rf & Hrf & Hp & Hd).
    assert (f <> fn) by congruence.
    exists rf. split; [simpl; rewrite lookup_insert_ne by done; exact Hrf |]. simpl.
    split; intros x Hx.
    + apply push_dirs_keep; [apply dir_pushed_first_is |].
      apply push_paths_keep; [apply path_pushed_first_is |]. auto.
    + apply push_dirs_keep; [apply dir_pushed_first_has |].
      apply push_paths_keep; [apply path_pushed_first_has |]. auto.
  - intros k q x.
    apply (push_dirs_keep fn (all_known (<[fn := r]> (reservations s))));
      [intros o; apply dir_pushed_known; exact Hfn |].
    apply push_paths_keep; [intros o; apply path_pushed_known; exact Hfn |].
    intros q0 x0 E Hx0. apply known_insert. eapply (inv_known s HI); eauto.
  - intros f rf k Hrf. rewrite qcount_push_dirs, qcount_push_paths.
    destruct (decide (f = fn)) as [-> | Hne].
    + rewrite lookup_insert_eq in Hrf. simplify_eq. simpl.
      rewrite (unknown_qcount s fn k HI Hfresh). lia.
    + rewrite lookup_insert_ne in Hrf by done.
      pose proof (inv_count s HI f rf k Hrf). lia.
  - intros f rf Hrf. destruct (decide (f = fn)) as [-> | Hne].
    + rewrite lookup_insert_eq in Hrf. injection Hrf as <-. exact Hps.
    + rewrite lookup_insert_ne in Hrf by done. eapply (inv_paths s HI); eauto.
  - intros f rf Hrf. destruct (decide (f = fn)) as [-> | Hne].
    + rewrite lookup_insert_eq in Hrf. simplify_eq. simpl. apply NoDup_Set_from.
    + rewrite lookup_insert_ne in Hrf by done. eapply (inv_dirs s HI); eauto.
Qed.

(** *** [clear]: leaving the queues *)

Lemma lookup_clear_path fn acc p k :
  (clear_path fn acc p).1 !! k
  = if decide (p = k) then path_cleared fn (acc.1 !! p) else acc.1 !! k.
Proof.
  destruct acc as [qs next]. unfold clear_path, path_cleared. simpl.
  destruct (qs !! p) as [[| [f | l] rest] |] eqn:E;
    try (case_decide; subst; simpl; congruence).
  case_bool_decide; [| case_decide; subst; simpl; congruence].
  destruct rest as [| [g | l] rest']; simpl;
    rewrite ?lookup_delete, ?lookup_insert; case_decide; reflexivity.
Qed.

Lemma lookup_clear_dir fn acc d k :
  (clear_dir fn acc d).1 !! k
  = if decide (d = k) then dir_cleared fn (acc.1 !! d) else acc.1 !! k.
Proof.
  destruct acc as [qs next]. unfold clear_dir, dir_cleared. simpl.
  destruct (qs !! d) as [[| [f | l] rest] |] eqn:E;
    try (case_decide; subst; simpl; congruence).
  destruct (length l =? 1)%nat.
  - destruct rest as [| [g | l'] rest']; simpl;
      rewrite ?lookup_delete, ?lookup_insert; case_decide; reflexivity.
  - simpl. rewrite lookup_insert. case_decide; reflexivity.
Qed.

Lemma clear_loop_keeps (F : option (list Slot) -> option (list Slot))
    (step : gmap string (list Slot) * list Handler -> string
            -> gmap string (list Slot) * list Handler)
    (P : option (list Slot) -> Prop) :
  (forall acc key k,
     (step acc key).1 !! k
     = if decide (key = k) then F (acc.1 !! key) else acc.1 !! k) ->
  (forall o, P o -> P (F o)) ->
  forall keys acc k, P (acc.1 !! k) -> P ((foldl step acc keys).1 !! k).
Proof.
  intros Hstep HP keys. induction keys as [| key keys IH]; intros acc k H; [exact H |].
  simpl. apply IH. rewrite Hstep. case_decide; subst; auto.
Qed.

Lemma clear_paths_keep fn (P : option (list Slot) -> Prop) :
  (forall o, P o -> P (path_cleared fn o)) ->
  forall ps acc k, P (acc.1 !! k) -> P ((foldl (clear_path fn) acc ps).1 !! k).
Proof. apply clear_loop_keeps. apply lookup_clear_path. Qed.

Lemma clear_dirs_keep fn (P : option (list Slot) -> Prop) :
  (forall o, P o -> P (dir_cleared fn o)) ->
  forall ds acc k, P (acc.1 !! k) -> P ((foldl (clear_dir fn) acc ds).1 !! k).
Proof. apply clear_loop_keeps. apply lookup_clear_dir. Qed.

Lemma clear_dirs_elsewhere fn ds : forall acc k,
  k ∉ ds -> (foldl (clear_dir fn) acc ds).1 !! k = acc.1 !! k.
Proof.
  induction ds as [| d ds IH]; intros acc k Hk; [reflexivity |].
  apply not_elem_of_cons in Hk as [Hne Hk]. simpl.
  rewrite IH by exact Hk. rewrite lookup_clear_dir. case_decide; congruence.
Qed.

(** Handlers other than the one that leaves keep the heads they have. *)
Lemma path_cleared_first_is fn g o :
  g <> fn -> first_is g o = true -> first_is g (path_cleared fn o) = true.
Proof.
  intros Hne. rewrite first_is_spec. intros [q ->]. unfold path_cleared.
  case_bool_decide; [congruence |]. apply first_is_spec. eauto.
Qed.

Lemma path_cleared_first_has fn g o :
  first_has g o = true -> first_has g (path_cleared fn o) = true.
Proof.
  rewrite first_has_spec. intros (l & q & -> & H). unfold path_cleared.
  apply first_has_spec. eauto.
Qed.

Lemma dir_cleared_first_is fn g o :
  first_is g o = true -> first_is g (dir_cleared fn o) = true.
Proof.
  rewrite first_is_spec. intros [q ->]. unfold dir_cleared.
  apply first_is_spec. eauto.
Qed.

Lemma elem_of_Set_delete {A} `{EqDecision A} (x y : A) l :
  y ∈ Set_delete x l <-> y ∈ l /\ y <> x.
Proof. unfold Set_delete. rewrite list_elem_of_filter. tauto. Qed.

Lemma dir_cleared_first_has fn g o :
  g <> fn -> first_has fn o = true -> first_has g o = true ->
  first_has g (dir_cleared fn o) = true.
Proof.
  intros Hne. rewrite !first_has_spec.
  intros (l & q & -> & Hfn) (l' & q' & [= <- <-] & Hg). unfold dir_cleared.
  destruct (Nat.eqb_spec (length l) 1) as [Hlen | Hlen].
  - exfalso. destruct l as [| x [| y l]]; simpl in Hlen; try lia.
    apply list_elem_of_singleton in Hfn, Hg. congruence.
  - exists (Set_delete fn l), q. split; [reflexivity |].
    apply elem_of_Set_delete. auto.
Qed.

Lemma clear_dirs_first_has fn g ds : forall acc k,
  g <> fn -> NoDup ds ->
  (forall d, d ∈ ds -> first_has fn (acc.1 !! d) = true) ->
  first_has g (acc.1 !! k) = true ->
  first_has g ((foldl (clear_dir fn) acc ds).1 !! k) = true.
Proof.
  induction ds as [| d ds IH]; intros acc k Hne Hnd Hfn Hg; [exact Hg |].
  apply NoDup_cons in Hnd as [Hd Hnd]. simpl. apply IH; [exact Hne | exact Hnd | |].
  - intros d' Hd'. rewrite lookup_clear_dir.
    case_decide; [subst; contradiction |]. apply Hfn. right. exact Hd'.
  - rewrite lookup_clear_dir. case_decide; [subst | exact Hg].
    apply dir_cleared_first_has; [exact Hne | apply Hfn; left | exact Hg].
Qed.

(** Queues only lose entries. *)
Lemma popped_sub rest q : popped rest = Some q -> q = rest.
Proof. destruct rest; [discriminate | intros [= <-]; reflexivity]. Qed.

Lemma path_cleared_sub fn o q x :
  path_cleared fn o = Some q -> x ∈ q -> x ∈ default [] o.
Proof.
  unfold path_cleared. destruct o as [[| [f | l] rest] |]; try (intros [= <-]; auto; fail);
    try discriminate.
  case_bool_decide; [| intros [= <-]; auto].
  intros ->%popped_sub Hx. simpl. right. exact Hx.
Qed.

Lemma path_cleared_known rs fn o : all_known rs o -> all_known rs (path_cleared fn o).
Proof.
  intros Ho q x E Hx. pose proof (path_cleared_sub _ _ _ _ E Hx) as Hin.
  destruct o as [q0 |]; [eapply Ho; eauto | inversion Hin].
Qed.

Lemma dir_cleared_known rs fn o : all_known rs o -> all_known rs (dir_cleared fn o).
Proof.
  intros Ho q x E Hx. unfold dir_cleared in E.
  destruct o as [[| [f | l] rest] |]; try (injection E as <-; eapply Ho; eauto; fail);
    try discriminate.
  assert (Hl : known rs (Dirs l)) by (eapply Ho; [reflexivity | left]).
  assert (Hrest : forall y, y ∈ rest -> known rs y) by (intros; eapply Ho; [reflexivity | right; done]).
  destruct (length l =? 1)%nat.
  - apply popped_sub in E as ->. auto.
  - injection E as <-. apply elem_of_cons in Hx as [-> | Hx]; [| auto].
    intros f [Hf _]%elem_of_Set_delete. apply Hl, Hf.
Qed.

Lemma occ_popped x rest : (occ x (default [] (popped rest)) = occ x rest)%nat.
Proof. destruct rest; reflexivity. Qed.

Lemma path_cleared_occ fn f o :
  (occ (Fn f) (default [] (path_cleared fn o)) <= occ (Fn f) (default [] o))%nat.
Proof.
  unfold path_cleared. destruct o as [[| [g | l] rest] |]; try lia.
  case_bool_decide; [| lia]. rewrite occ_popped. simpl. rewrite occ_cons. lia.
Qed.

Lemma dir_cleared_occ fn f o :
  (occ (Fn f) (default [] (dir_cleared fn o)) <= occ (Fn f) (default [] o))%nat.
Proof.
  unfold dir_cleared. destruct o as [[| [g | l] rest] |]; try lia.
  destruct (length l =? 1)%nat.
  - rewrite occ_popped. simpl. rewrite occ_cons. lia.
  - simpl. rewrite !occ_cons. repeat case_decide; try discriminate; lia.
Qed.

(** When the first loop is over, the leaving handler heads no queue. *)
Lemma first_is_false_of_occ fn o :
  occ (Fn fn) (default [] o) = 0%nat -> first_is fn o = false.
Proof.
  intros H%occ_0. destruct (first_is fn o) eqn:E; [| reflexivity].
  apply first_is_spec in E as [q ->]. exfalso. apply H. left.
Qed.

Lemma path_cleared_idle fn o : first_is fn o = false -> path_cleared fn o = o.
Proof.
  unfold first_is, path_cleared. destruct o as [[| [f | l] rest] |]; try reflexivity.
  intros ->. reflexivity.
Qed.

Lemma clear_paths_unseat fn ps : forall acc k,
  (qcount fn acc.1 k <= occ k ps)%nat \/ first_is fn (acc.1 !! k) = false ->
  first_is fn ((foldl (clear_path fn) acc ps).1 !! k) = false.
Proof.
  induction ps as [| p ps IH]; intros acc k H.
  - simpl. destruct H as [H | H]; [| exact H].
    apply first_is_false_of_occ. rewrite occ_nil in H. unfold qcount in H. lia.
  - simpl. apply IH. rewrite occ_cons in H. unfold qcount in *.
    rewrite lookup_clear_path. destruct (decide (p = k)) as [-> | Hne]; [| exact H].
    destruct (first_is fn (acc.1 !! k)) eqn:E.
    + left. destruct H as [H | H]; [| discriminate].
      apply first_is_spec in E as [q E]. rewrite E in *. simpl in *.
      rewrite bool_decide_true by reflexivity. rewrite occ_popped.
      rewrite occ_cons in H. rewrite decide_True in H by reflexivity. lia.
    + right. rewrite path_cleared_idle by exact E. exact E.
Qed.

(** *** The handlers started by [clear] *)

Lemma run_all_cons s f next :
  run_all s (f :: next) = run s f ≫= fun r => run_all r.2 next.
Proof.
  unfold run_all. simpl. destruct (run s f) as [[b s1] |]; [reflexivity |].
  simpl. induction next as [| g next IH]; [reflexivity | exact IH].
Qed.

Lemma run_all_Inv next : forall s s',
  Inv s -> run_all s next = Some s' -> Inv s'.
Proof.
  induction next as [| f next IH]; intros s s' HI H.
  - injection H as <-. exact HI.
  - rewrite run_all_cons in H. destruct (run s f) as [[b s1] |] eqn:E; [| discriminate].
    simpl in H. eapply IH; [| exact H]. eapply run_Inv; eauto.
Qed.

Lemma run_all_frame next : forall s s',
  run_all s next = Some s' ->
  queues s' = queues s /\ reservations s' = reservations s
  /\ forall f, f ∈ running s' -> f ∈ running s \/ check s f = Some true.
Proof.
  induction next as [| g next IH]; intros s s' H.
  - injection H as <-. auto.
  - rewrite run_all_cons in H. destruct (run s g) as [[b s1] |] eqn:E; [| discriminate].
    simpl in H. apply IH in H as (Hq & Hr & Hrun).
    apply run_spec in E as (Hq1 & Hr1 & Hcase).
    split; [congruence |]. split; [congruence |].
    intros f Hf. apply Hrun in Hf as [Hf | Hf].
    + destruct Hcase as [[_ ->] | (_ & _ & Hc & E)]; [auto |].
      rewrite E in Hf. apply elem_of_union in Hf as [->%elem_of_singleton | Hf]; auto.
    + right. rewrite <- Hf. symmetry. apply check_ext; assumption.
Qed.

Lemma clear_spec fn s b s' :
  clear fn s = Some (b, s') ->
  ((fn ∉ running s) /\ b = false /\ s' = s)
  \/ ((fn ∈ running s) /\ b = true
      /\ exists r,
           reservations s !! fn = Some r
           /\ let acc :=
                foldl (clear_dir fn)
                  (foldl (clear_path fn) (queues s, []) (paths r)) (dirs r) in
              run_all (mk acc.1 (reservations s) (running s ∖ {[fn]})) acc.2
              = Some s').
Proof.
  unfold clear. case_bool_decide as Hr; simpl.
  - destruct (reservations s !! fn) as [r |]; [| discriminate]. simpl.
    destruct (foldl (clear_dir fn) _ _) as [qs next] eqn:E.
    destruct (run_all _ next) as [s1 |] eqn:E1; [| discriminate].
    simpl. intros [= <- <-]. right. split; [exact Hr |]. split; [reflexivity |].
    exists r. split; [reflexivity |]. simpl. rewrite E. exact E1.
  - intros [= <- <-]. left. auto.
Qed.

Lemma cleared_keeps fn r (P : option (list Slot) -> Prop) qs k :
  (forall o, P o -> P (path_cleared fn o)) ->
  (forall o, P o -> P (dir_cleared fn o)) ->
  P (qs !! k) -> P (cleared fn r qs !! k).
Proof.
  intros H1 H2 H. unfold cleared.
  apply clear_dirs_keep; [exact H2 |]. apply clear_paths_keep; [exact H1 |]. exact H.
Qed.

Lemma cleared_Inv fn s r :
  Inv s -> fn ∈ running s -> reservations s !! fn = Some r ->
  Inv (mk (cleared fn r (queues s)) (reservations s) (running s ∖ {[fn]})).
Proof.
  intros HI Hrun Hr.
  pose proof (inv_running s HI fn Hrun) as Hc.
  apply check_true in Hc as (r' & Hr' & Hp & Hd). simplify_eq.
  split; simpl.
  - intros g [Hg Hne%not_elem_of_singleton]%elem_of_difference.
    apply (inv_running s HI), check_true in Hg as (rg & Hrg & Hpg & Hdg).
    apply check_true. exists rg. split; [exact Hrg |]. simpl.
    split; intros x Hx.
    + apply cleared_keeps;
        [intros o; apply path_cleared_first_is, Hne
        | intros o; apply dir_cleared_first_is | auto].
    + unfold cleared. apply clear_dirs_first_has;
        [exact Hne | eapply (inv_dirs s HI); eauto | |].
      * intros d Hd'. apply clear_paths_keep; [apply path_cleared_first_has | auto].
      * apply clear_paths_keep; [apply path_cleared_first_has | auto].
  - intros k q x.
    apply (cleared_keeps fn r (all_known (reservations s)));
      [apply path_cleared_known | apply dir_cleared_known |].
    intros q0 x0 E Hx0. eapply (inv_known s HI); eauto.
  - intros f rf k Hrf. unfold qcount.
    apply (cleared_keeps fn r
             (fun o => (occ (Fn f) (default [] o) <= occ k (paths rf))%nat)).
    + intros o Ho. etransitivity; [apply path_cleared_occ | exact Ho].
    + intros o Ho. etransitivity; [apply dir_cleared_occ | exact Ho].
    + apply (inv_count s HI f rf k Hrf).
  - apply (inv_paths s HI).
  - apply (inv_dirs s HI).
Qed.

(** A handler that has left is first in none of its queues. *)
Lemma cleared_unseats fn s r k :
  Inv s -> fn ∈ running s -> reservations s !! fn = Some r ->
  first_is fn (cleared fn r (queues s) !! k) = false.
Proof.
  intros HI Hrun Hr.
  pose proof (inv_running s HI fn Hrun) as Hc.
  apply check_true in Hc as (r' & Hr' & Hp & Hd). simplify_eq.
  pose proof (inv_count s HI fn r k Hr) as Hcount.
  destruct (decide (k ∈ dirs r)) as [Hk | Hk].
  - assert (Hnp : k ∉ paths r).
    { intros Hin. apply Hp, first_is_spec in Hin as [q Hq].
      apply Hd, first_has_spec in Hk as (l & q' & Hq' & _). congruence. }
    apply occ_0 in Hnp. rewrite Hnp in Hcount.
    apply first_is_false_of_occ.
    apply (cleared_keeps fn r (fun o => occ (Fn fn) (default [] o) = 0%nat)).
    + intros o Ho. pose proof (path_cleared_occ fn fn o). lia.
    + intros o Ho. pose proof (dir_cleared_occ fn fn o). lia.
    + unfold qcount in Hcount. lia.
  - unfold cleared. rewrite clear_dirs_elsewhere by exact Hk.
    apply clear_paths_unseat. left. exact Hcount.
Qed.

Lemma clear_Inv fn s b s' : Inv s -> clear fn s = Some (b, s') -> Inv s'.
Proof.
  intros HI H. apply clear_spec in H as [(_ & _ & ->) | (Hrun & _ & r & Hr & H)];
    [exact HI |].
  eapply run_all_Inv; [| exact H]. apply cleared_Inv; assumption.
Qed.

Lemma clear_leaves fn s b s' :
  Inv s -> clear fn s = Some (b, s') -> fn ∉ running s'.
Proof.
  intros HI H. apply clear_spec in H as [(Hn & _ & ->) | (Hrun & _ & r & Hr & H)];
    [exact Hn |].
  apply run_all_frame in H as (_ & _ & Hin). simpl in Hin.
  intros Hfn. apply Hin in Hfn as [Hfn | Hfn].
  - apply elem_of_difference in Hfn as [_ Hfn]. apply Hfn, elem_of_singleton. reflexivity.
  - apply check_true in Hfn as (r' & Hr' & Hp & _). simpl in *. simplify_eq.
    destruct (paths r) as [| p ps] eqn:E; [eapply (inv_paths s HI); eauto |].
    specialize (Hp p ltac:(left)).
    pose proof (cleared_unseats fn s r p HI Hrun Hr) as Hno.
    unfold cleared in Hno. rewrite E in Hno. congruence.
Qed.

Lemma Inv_empty : Inv PathReservations.empty.
Proof.
  split; simpl.
  - intros f Hf. apply elem_of_empty in Hf as [].
  - intros k q x H. rewrite lookup_empty in H. discriminate.
  - intros f r k H. rewrite lookup_empty in H. discriminate.
  - intros f r H. rewrite lookup_empty in H. discriminate.
  - intros f r H. rewrite lookup_empty in H. discriminate.
Qed.

Lemma reachable_Inv h s : reachable h s -> Inv s.
Proof.
  induction 1 as [| s ps fn b s' _ IH Hfresh Hres | s fn b s' _ IH Hclear].
  - apply Inv_empty.
  - eapply reserve_Inv; eauto.
  - eapply clear_Inv; eauto.
Qed.

(** [clear] does not throw: the handlers it starts are all known. *)
Lemma Set_add_known rs f (next : list Handler) :
  is_Some (rs !! f) ->
  (forall g, g ∈ next -> is_Some (rs !! g)) ->
  forall g, g ∈ Set_add f next -> is_Some (rs !! g).
Proof. intros Hf Hn g [-> | Hg]%elem_of_Set_add; auto. Qed.

Lemma Set_add_all_known rs (l next : list Handler) :
  (forall g, g ∈ l -> is_Some (rs !! g)) ->
  (forall g, g ∈ next -> is_Some (rs !! g)) ->
  forall g, g ∈ foldl (fun acc f => Set_add f acc) next l -> is_Some (rs !! g).
Proof.
  revert next. induction l as [| f l IH]; intros next Hl Hn; [exact Hn |].
  simpl. apply IH.
  - intros g Hg. apply Hl. right. exact Hg.
  - apply Set_add_known; [apply Hl; left | exact Hn].
Qed.

Lemma clear_path_known rs fn acc p :
  acc_known rs acc -> acc_known rs (clear_path fn acc p).
Proof.
  intros [Hq Hn]. split.
  - intros k. rewrite lookup_clear_path. case_decide; [| apply Hq].
    apply path_cleared_known, Hq.
  - destruct acc as [qs next]. simpl in *. unfold clear_path.
    destruct (qs !! p) as [[| [f | l] rest] |] eqn:E; try exact Hn.
    case_bool_decide; [| exact Hn].
    destruct rest as [| [g | l] rest']; simpl; [exact Hn | |].
    + apply Set_add_known; [| exact Hn].
      apply (Hq p _ (Fn g) E). right. left.
    + apply Set_add_all_known; [| exact Hn].
      apply (Hq p _ (Dirs l) E). right. left.
Qed.

Lemma clear_dir_known rs fn acc d :
  acc_known rs acc -> acc_known rs (clear_dir fn acc d).
Proof.
  intros [Hq Hn]. split.
  - intros k. rewrite lookup_clear_dir. case_decide; [| apply Hq].
    apply dir_cleared_known, Hq.
  - destruct acc as [qs next]. simpl in *. unfold clear_dir.
    destruct (qs !! d) as [[| [f | l] rest] |] eqn:E; try exact Hn.
    destruct (length l =? 1)%nat; [| exact Hn].
    destruct rest as [| [g | l'] rest']; simpl; [exact Hn | | exact Hn].
    apply Set_add_known; [| exact Hn].
    apply (Hq d _ (Fn g) E). right. left.
Qed.

Lemma fold_known rs (step : gmap string (list Slot) * list Handler -> string
                           -> gmap string (list Slot) * list Handler) keys :
  (forall acc key, acc_known rs acc -> acc_known rs (step acc key)) ->
  forall acc, acc_known rs acc -> acc_known rs (foldl step acc keys).
Proof.
  intros Hstep. induction keys as [| key keys IH]; intros acc H; [exact H |].
  simpl. apply IH, Hstep, H.
Qed.

Lemma run_total s f : is_Some (reservations s !! f) -> is_Some (run s f).
Proof.
  intros [r Hr]. unfold run. case_bool_decide; [eauto |].
  unfold check. rewrite Hr. simpl. case_match; eauto.
Qed.

Lemma run_all_total next : forall s,
  (forall f, f ∈ next -> is_Some (reservations s !! f)) ->
  is_Some (run_all s next).
Proof.
  induction next as [| f next IH]; intros s Hn; [eexists; reflexivity |].
  rewrite run_all_cons.
  destruct (run_total s f) as [[b s1] E]; [apply Hn; left |].
  rewrite E. simpl. apply IH. intros g Hg.
  apply run_spec in E as (_ & -> & _). apply Hn. right. exact Hg.
Qed.

Lemma clear_total s fn : Inv s -> is_Some (clear fn s).
Proof.
  intros HI. unfold clear. case_bool_decide as Hrun; simpl; [| eauto].
  pose proof (inv_running s HI fn Hrun) as (r & Hr & _)%check_true.
  rewrite Hr. simpl.
  assert (Hacc : acc_known (reservations s)
            (foldl (clear_dir fn)
               (foldl (clear_path fn) (queues s, []) (paths r)) (dirs r))).
  { apply fold_known; [intros; apply clear_dir_known; assumption |].
    apply fold_known; [intros; apply clear_path_known; assumption |].
    split; simpl.
    - intros k q x E Hx. eapply (inv_known s HI); eauto.
    - intros f Hf. inversion Hf. }
  destruct (foldl (clear_dir fn) _ _) as [qs next]. destruct Hacc as [_ Hn].
  destruct (run_all_total next (mk qs (reservations s) (running s ∖ {[fn]})) Hn)
    as [s' ->].
  simpl. eauto.
Qed.

(** A handler that holds a directory as an ancestor and one that holds it
    exclusively do not run together. *)
Lemma shared_excludes_exclusive h s d f g rf rg :
  reachable h s ->
  f ∈ running s -> g ∈ running s ->
  reservations s !! f = Some rf -> reservations s !! g = Some rg ->
  d ∈ dirs rf -> d ∈ paths rg -> False.
Proof.
  intros HI%reachable_Inv Hf Hg Hrf Hrg Hdf Hpg.
  apply (inv_running s HI), check_true in Hf as (rf' & ? & _ & Hf).
  apply (inv_running s HI), check_true in Hg as (rg' & ? & Hg & _).
  simplify_eq.
  apply Hf, first_has_spec in Hdf as (l & q1 & E1 & _).
  apply Hg, first_is_spec in Hpg as [q2 E2].
  congruence.
Qed.
(** C1.  In every state the scheduler reaches, two running handlers that
    hold the same path exclusively are one handler: at any moment a path
    has at most one running holder, so two handlers with a path in common
    never run at the same time. *)
Theorem exclusive_paths h s p f g rf rg :
  reachable h s ->
  f ∈ running s -> g ∈ running s ->
  reservations s !! f = Some rf -> reservations s !! g = Some rg ->
  p ∈ paths rf -> p ∈ paths rg ->
  f = g.
Proof.
  intros HI%reachable_Inv Hf Hg Hrf Hrg Hpf Hpg.
  apply (inv_running s HI), check_true in Hf as (rf' & ? & Hf & _).
  apply (inv_running s HI), check_true in Hg as (rg' & ? & Hg & _).
  simplify_eq.
  apply Hf, first_is_spec in Hpf as [q1 E1].
  apply Hg, first_is_spec in Hpg as [q2 E2].
  congruence.
Qed.

(** C10.  Releasing a handler that is not running returns [false] and
    changes nothing; and in every state the scheduler reaches a release
    returns and leaves the handler out of [#running], so a second release
    of the same handler is such a no-op. *)
Theorem clear_twice h :
  (forall s fn, fn ∉ running s -> clear fn s = Some (false, s))
  /\ (forall s fn,
        reachable h s ->
        exists b s',
          clear fn s = Some (b, s') /\ clear fn s' = Some (false, s')).
Proof.
  assert (H0 : forall s fn, fn ∉ running s -> clear fn s = Some (false, s)).
  { intros s fn Hn. unfold clear. rewrite bool_decide_false by exact Hn. reflexivity. }
  split; [exact H0 |].
  intros s fn HI%reachable_Inv.
  destruct (clear_total s fn HI) as [[b s'] H].
  exists b, s'. split; [exact H |]. apply H0. eapply clear_leaves; eauto.
Qed.

Lemma siblings_reachable : reachable posix siblings.
Proof.
  apply (reach_reserve posix (reserved posix ["d/a"] 1%nat empty)
           ["d/b"] 2%nat true).
  - apply (reach_reserve posix empty ["d/a"] 1%nat true);
      [apply reach_empty | reflexivity | vm_compute; reflexivity].
  - vm_compute. reflexivity.
  - vm_compute. reflexivity.
Qed.

(** Handler 1, running on [d/a] beside handler 2 on [d/b]. *)
Lemma exclusive_paths_witness :
  1%nat ∈ running siblings
  /\ reservations siblings !! 1%nat
     = Some {| paths := ["d/a"]; dirs := ["d"] |}
  /\ 1%nat = 1%nat.
Proof.
  assert (H1 : 1%nat ∈ running siblings) by (vm_compute; set_solver).
  assert (H2 : reservations siblings !! 1%nat
               = Some {| paths := ["d/a"]; dirs := ["d"] |})
    by (vm_compute; reflexivity).
  split; [exact H1 |]. split; [exact H2 |].
  apply (exclusive_paths posix siblings "d/a" 1%nat 1%nat _ _
           siblings_reachable H1 H1 H2 H2); left.
Defined.

(** Handler 1 released twice. *)
Lemma clear_twice_witness :
  exists b s',
    clear 1%nat siblings = Some (b, s') /\ clear 1%nat s' = Some (false, s').
Proof.
  exact (proj2 (clear_twice posix) siblings 1%nat siblings_reachable).
Defined.

End Scheduler.

(** ** The scheduler: records, order and progress *)

Section SchedulerRecords.
Import PathReservations.
Implicit Types (qs : gmap string (list Slot)).
Implicit Types (rs : gmap Handler Reservation).
Implicit Types (fn f g : Handler) (k p d : string) (q : list Slot).
Implicit Types (o : option (list Slot)).

(** *** What [reserve] and [clear] leave in [#reservations] *)

Lemma reserve_reservations h ps fn s b s' :
  reserve h ps fn s = Some (b, s') ->
  exists r,
    reservations s' = <[fn := r]> (reservations s)
    /\ paths r = (if isWindows h then ["win32 parallelization disabled"]
                  else map (canon h) ps)
    /\ dirs r = Set_from (concat (map getDirs (paths r)))
    /\ (fn ∉ running s -> (b = true <-> fn ∈ running s')).
Proof.
  unfold reserve.
  set (ps' := if isWindows h then _ else _).
  destruct ps' as [| p0 ps0] eqn:Eps; [discriminate |].
  rewrite <- Eps. clear Eps.
  intros Hrun.
  exists {| paths := ps'; dirs := Set_from (concat (map getDirs ps')) |}.
  pose proof Hrun as Hspec.
  apply run_spec in Hspec as (_ & Hr & Hcase). simpl in Hr.
  split; [exact Hr |]. split; [reflexivity |]. split; [reflexivity |].
  intros Hidle.
  destruct Hcase as [[Hb Hs] | (Hb & _ & _ & Hs)]; rewrite Hb.
  - split; [discriminate |]. intros Hin. exfalso.
    rewrite Hs in Hin. exact (Hidle Hin).
  - split; [intros _ | reflexivity].
    rewrite Hs. apply elem_of_union_l, elem_of_singleton. reflexivity.
Qed.

Lemma clear_reservations fn s b s' :
  clear fn s = Some (b, s') -> reservations s' = reservations s.
Proof.
  intros H. apply clear_spec in H as [(_ & _ & ->) | (_ & _ & r & _ & H)];
    [reflexivity |].
  apply run_all_frame in H as (_ & Hr & _). exact Hr.
Qed.

Lemma later_reachable h s s' : reachable h s -> later h s s' -> reachable h s'.
Proof.
  intros Hs. induction 1 as [| s1 ps fn b s2 _ IH Hfresh Hres
                             | s1 fn b s2 _ IH Hclear].
  - exact Hs.
  - eapply reach_reserve; eauto.
  - eapply reach_clear; eauto.
Qed.

Lemma reachable_later h s : reachable h s <-> later h empty s.
Proof.
  split.
  - induction 1 as [| s ps fn b s' _ IH Hfresh Hres | s fn b s' _ IH Hclear].
    + apply later_now.
    + eapply later_reserve; eauto.
    + eapply later_clear; eauto.
  - apply later_reachable, reach_empty.
Qed.

(** Among handlers reserved once each, a record stays as it is. *)
Lemma later_reservations h s s' f r :
  later h s s' ->
  reservations s !! f = Some r ->
  reservations s' !! f = Some r.
Proof.
  intros Hl Hr. induction Hl as [| s1 ps fn b s2 _ IH Hfresh Hres
                                 | s1 fn b s2 _ IH Hclear].
  - exact Hr.
  - apply reserve_reservations in Hres as (r' & -> & _).
    rewrite lookup_insert_ne; [exact IH |]. intros ->. congruence.
  - rewrite (clear_reservations _ _ _ _ Hclear). exact IH.
Qed.

(** X6.  A record in [#reservations] is never removed: after any
    [reserve]s and releases, in any order and with any handlers, the map
    holds a record for every handler it held before and for every handler
    reserved since, and the record of a handler that was not reserved
    again is the one it had. *)
Theorem reservations_persist h s fns s' :
  follows h s fns s' ->
  dom (reservations s') = dom (reservations s) ∪ list_to_set fns
  /\ (forall f, f ∉ fns -> reservations s' !! f = reservations s !! f).
Proof.
  induction 1 as [| s1 fns ps fn b s2 _ [IHd IHk] Hres
                  | s1 fns fn b s2 _ [IHd IHk] Hclear].
  - split; [| reflexivity].
    rewrite list_to_set_nil, (right_id_L ∅ (∪)). reflexivity.
  - apply reserve_reservations in Hres as (r' & -> & _).
    split.
    + rewrite dom_insert_L, IHd, list_to_set_cons.
      rewrite (assoc_L (∪)), (comm_L (∪) {[fn]}), <- (assoc_L (∪)).
      reflexivity.
    + intros f [Hne Hf]%not_elem_of_cons.
      rewrite lookup_insert_ne by congruence. apply IHk, Hf.
  - rewrite (clear_reservations _ _ _ _ Hclear). split; assumption.
Qed.

Lemma reservations_persist_witness :
  dom (reservations (reserved posix ["a"] 2%nat (released 1%nat siblings)))
  = dom (reservations siblings) ∪ list_to_set [2%nat]
  /\ (forall f, f ∉ [2%nat] ->
       reservations (reserved posix ["a"] 2%nat (released 1%nat siblings)) !! f
       = reservations siblings !! f).
Proof.
  apply (reservations_persist posix siblings [2%nat]
           (reserved posix ["a"] 2%nat (released 1%nat siblings))).
  apply (follows_reserve posix siblings (released 1%nat siblings) []
           ["a"] 2%nat false);
    [| vm_compute; reflexivity].
  apply (follows_clear posix siblings siblings [] 1%nat true);
    [apply follows_now | vm_compute; reflexivity].
Defined.


(** *** A path that is its own ancestor *)

Lemma path_and_dir_idle s fn r p :
  Inv s -> reservations s !! fn = Some r ->
  p ∈ paths r -> p ∈ dirs r -> fn ∉ running s.
Proof.
  intros HI Hr Hp Hd Hrun.
  apply (inv_running s HI), check_true in Hrun as (r' & Hr' & H1 & H2).
  simplify_eq.
  apply H1, first_is_spec in Hp as [q1 E1].
  apply H2, first_has_spec in Hd as (l & q2 & E2 & _).
  congruence.
Qed.

Lemma elem_of_Set_from {A} `{EqDecision A} (x : A) l : x ∈ Set_from l <-> x ∈ l.
Proof.
  unfold Set_from.
  assert (G : forall acc, x ∈ foldl (fun acc y => Set_add y acc) acc l
                          <-> x ∈ acc \/ x ∈ l).
  { induction l as [| y l IH]; intros acc; simpl.
    - rewrite elem_of_nil. tauto.
    - rewrite IH, elem_of_Set_add, elem_of_cons. tauto. }
  rewrite G, elem_of_nil. tauto.
Qed.

Lemma elem_of_concat {A} (x : A) (ls : list (list A)) :
  x ∈ concat ls <-> exists l, x ∈ l /\ l ∈ ls.
Proof.
  induction ls as [| l ls IH]; simpl.
  - split; [intros H; inversion H | intros (l & _ & H); inversion H].
  - rewrite elem_of_app, IH. split.
    + intros [H | (l' & H1 & H2)]; [exists l | exists l'];
        (split; [assumption |]); [left | right; assumption].
    + intros (l' & H1 & [-> | H2]%elem_of_cons); [left; assumption |].
      right. exists l'. split; assumption.
Qed.

(** X3.  On POSIX, a reservation in which one path is an ancestor
    directory of another ([d/l] and [d], as for an entry [d/l] whose
    linkpath is [d]) is not started by [reserve], which returns [false],
    and is not started by any later [reserve] or release either. *)
Theorem own_ancestor_never_runs h s ps fn b s1 s2 p p' :
  isWindows h = false ->
  reachable h s ->
  reservations s !! fn = None ->
  reserve h ps fn s = Some (b, s1) ->
  p ∈ ps -> p' ∈ ps -> canon h p ∈ getDirs (canon h p') ->
  later h s1 s2 ->
  b = false /\ fn ∉ running s2.
Proof.
  intros Hw Hs Hfresh Hres Hp Hp' Hpq Hl.
  assert (Hs1 : reachable h s1) by (eapply reach_reserve; eauto).
  apply reserve_reservations in Hres as (r & Hr & Hpaths & Hdirs & Hb).
  rewrite Hw in Hpaths.
  assert (Hr1 : reservations s1 !! fn = Some r)
    by (rewrite Hr; apply lookup_insert_eq).
  assert (Hin1 : canon h p ∈ paths r)
    by (rewrite Hpaths; apply list_elem_of_fmap_2, Hp).
  assert (Hin2 : canon h p ∈ dirs r).
  { rewrite Hdirs. apply elem_of_Set_from, elem_of_concat.
    exists (getDirs (canon h p')). split; [exact Hpq |].
    apply list_elem_of_fmap_2. rewrite Hpaths.
    apply list_elem_of_fmap_2, Hp'. }
  assert (Hidle : fn ∉ running s).
  { intros Hin. apply (inv_running s (reachable_Inv h s Hs)), check_true in Hin
      as (r0 & Hr0 & _). congruence. }
  split.
  - destruct b; [| reflexivity]. exfalso.
    apply (path_and_dir_idle s1 fn r (canon h p));
      [apply (reachable_Inv h), Hs1 | assumption.. |].
    apply Hb; [exact Hidle | reflexivity].
  - apply (path_and_dir_idle s2 fn r (canon h p)); [| | assumption..].
    + apply (reachable_Inv h). eapply later_reachable; eauto.
    + eapply later_reservations; eauto.
Qed.

Lemma own_ancestor_never_runs_witness :
  reserve posix ["d/l"; "d"] 1%nat empty
  = Some (false, reserved posix ["d/l"; "d"] 1%nat empty)
  /\ 1%nat ∉ running (reserved posix ["d/l"; "d"] 1%nat empty).
Proof.
  assert (H : reserve posix ["d/l"; "d"] 1%nat empty
              = Some (false, reserved posix ["d/l"; "d"] 1%nat empty))
    by (vm_compute; reflexivity).
  split; [exact H |].
  apply (own_ancestor_never_runs posix empty ["d/l"; "d"] 1%nat false
           (reserved posix ["d/l"; "d"] 1%nat empty)
           (reserved posix ["d/l"; "d"] 1%nat empty) "d" "d/l").
  - reflexivity.
  - apply reach_empty.
  - reflexivity.
  - exact H.
  - set_solver.
  - set_solver.
  - vm_compute. set_solver.
  - apply later_now.
Defined.

End SchedulerRecords.

Section SchedulerOrder.
Import PathReservations.
Implicit Types (qs : gmap string (list Slot)).
Implicit Types (rs : gmap Handler Reservation).
Implicit Types (fn f g : Handler) (k p d : string) (q : list Slot).
Implicit Types (o : option (list Slot)).

(** X2.  While a handler that holds a path exclusively runs, no running
    handler has that path among its directories: nothing is written under
    a path that another running handler is replacing. *)
Theorem ancestors_exclude_holder h s d f g rf rg :
  reachable h s ->
  f ∈ running s -> g ∈ running s ->
  reservations s !! f = Some rf -> reservations s !! g = Some rg ->
  d ∈ paths rg ->
  d ∉ dirs rf.
Proof.
  intros Hs Hf Hg Hrf Hrg Hd Hdf.
  exact (shared_excludes_exclusive h s d f g rf rg Hs Hf Hg Hrf Hrg Hdf Hd).
Qed.

Lemma ancestors_exclude_holder_witness : "d/b" ∉ ["d"].
Proof.
  apply (ancestors_exclude_holder posix siblings "d/b" 1%nat 2%nat
           {| paths := ["d/a"]; dirs := ["d"] |}
           {| paths := ["d/b"]; dirs := ["d"] |}).
  - exact siblings_reachable.
  - vm_compute. set_solver.
  - vm_compute. set_solver.
  - vm_compute. reflexivity.
  - vm_compute. reflexivity.
  - simpl. set_solver.
Defined.

(** *** Windows *)

Lemma windows_paths h s :
  isWindows h = true ->
  reachable h s ->
  forall f r, reservations s !! f = Some r ->
              paths r = ["win32 parallelization disabled"].
Proof.
  intros Hw.
  induction 1 as [| s ps fn b s' _ IH Hfresh Hres | s fn b s' _ IH Hclear];
    intros f r Hr.
  - simpl in Hr. rewrite lookup_empty in Hr. discriminate.
  - apply reserve_reservations in Hres as (r' & Hrs & Hp & _).
    rewrite Hw in Hp.
    rewrite Hrs in Hr. destruct (decide (f = fn)) as [-> | Hne].
    + rewrite lookup_insert_eq in Hr. injection Hr as <-. exact Hp.
    + rewrite lookup_insert_ne in Hr by done. eauto.
  - rewrite (clear_reservations _ _ _ _ Hclear) in Hr. eauto.
Qed.

(** X4.  On Windows every reservation is for the one key
    ['win32 parallelization disabled'], so at most one handler runs at a
    time. *)
Theorem windows_one_at_a_time h s f g :
  isWindows h = true ->
  reachable h s ->
  f ∈ running s -> g ∈ running s ->
  f = g.
Proof.
  intros Hw Hs Hf Hg.
  pose proof (reachable_Inv h s Hs) as HI.
  apply (inv_running s HI), check_true in Hf as (rf & Hrf & Hf & _).
  apply (inv_running s HI), check_true in Hg as (rg & Hrg & Hg & _).
  pose proof (windows_paths h s Hw Hs f rf Hrf) as Ef.
  pose proof (windows_paths h s Hw Hs g rg Hrg) as Eg.
  specialize (Hf "win32 parallelization disabled").
  specialize (Hg "win32 parallelization disabled").
  rewrite Ef in Hf. rewrite Eg in Hg.
  apply first_is_spec in Hf as [q1 E1]; [| left].
  apply first_is_spec in Hg as [q2 E2]; [| left].
  congruence.
Qed.

Lemma windows_one_at_a_time_witness :
  1%nat ∈ running (reserved windows ["b"] 2%nat (reserved windows ["a"] 1%nat empty))
  /\ 2%nat ∉ running
               (reserved windows ["b"] 2%nat (reserved windows ["a"] 1%nat empty)).
Proof.
  assert (H1 : 1%nat ∈ running
                 (reserved windows ["b"] 2%nat (reserved windows ["a"] 1%nat empty)))
    by (vm_compute; set_solver).
  split; [exact H1 |]. intros H2.
  assert (Hr : reachable windows
                 (reserved windows ["b"] 2%nat (reserved windows ["a"] 1%nat empty))).
  { apply (reach_reserve windows (reserved windows ["a"] 1%nat empty)
             ["b"] 2%nat false).
    - apply (reach_reserve windows empty ["a"] 1%nat true);
        [apply reach_empty | reflexivity | vm_compute; reflexivity].
    - vm_compute. reflexivity.
    - vm_compute. reflexivity. }
  pose proof (windows_one_at_a_time windows _ 1%nat 2%nat eq_refl Hr H1 H2) as E.
  discriminate E.
Defined.

(** X5.  [reserve] throws exactly when it is given no path on a platform
    other than Windows (the [reduce] of an empty array); in every other
    case it returns. *)
Theorem reserve_throws_on_empty h ps fn s :
  reserve h ps fn s = None <-> isWindows h = false /\ ps = [].
Proof.
  unfold reserve. split.
  - destruct (isWindows h).
    + intros H. exfalso. revert H.
      match goal with |- run ?s1 fn = None -> _ =>
        destruct (run_total s1 fn) as [x ->]; [| discriminate] end.
      simpl. rewrite lookup_insert_eq. eauto.
    + destruct ps as [| p ps]; [auto |]. intros H. exfalso. revert H.
      cbn [map].
      match goal with |- run ?s1 fn = None -> _ =>
        destruct (run_total s1 fn) as [x ->]; [| discriminate] end.
      simpl. rewrite lookup_insert_eq. eauto.
  - intros [-> ->]. reflexivity.
Qed.

End SchedulerOrder.

Section SchedulerEager.
Import PathReservations.
Implicit Types (qs : gmap string (list Slot)).
Implicit Types (rs : gmap Handler Reservation).
Implicit Types (fn f g : Handler) (k p d : string) (q : list Slot).
Implicit Types (o : option (list Slot)).

(** *** First in line is running *)

Lemma separated_tail x q : separated (x :: q) = true -> separated q = true.
Proof. simpl. destruct x, q as [| [] q]; auto; discriminate. Qed.

Lemma separated_snoc_Fn q f : separated q = true -> separated (q ++ [Fn f]) = true.
Proof.
  induction q as [| x q IH]; [reflexivity |]. intros H.
  pose proof (separated_tail _ _ H) as Hq. specialize (IH Hq).
  destruct x as [g | l]; [exact IH |].
  destruct q as [| [g | l'] q]; [reflexivity | exact IH | discriminate H].
Qed.

Lemma separated_snoc_Dirs q l :
  separated q = true ->
  (forall l', last q <> Some (Dirs l')) ->
  separated (q ++ [Dirs l]) = true.
Proof.
  induction q as [| x q IH]; [reflexivity |]. intros H Hlast.
  pose proof (separated_tail _ _ H) as Hq.
  destruct q as [| y q].
  - destruct x as [g | l']; [reflexivity |]. exfalso. exact (Hlast l' eq_refl).
  - assert (IH' : separated ((y :: q) ++ [Dirs l]) = true).
    { apply IH; [exact Hq |]. intros l' E. apply (Hlast l').
      rewrite last_cons. rewrite E. reflexivity. }
    destruct x as [g | l']; [exact IH' |].
    destruct y as [g | l'']; [exact IH' | discriminate H].
Qed.

Lemma separated_replace_last q l l' :
  separated (q ++ [Dirs l]) = true -> separated (q ++ [Dirs l']) = true.
Proof.
  induction q as [| x q IH]; [reflexivity |]. intros H.
  pose proof (separated_tail _ _ H) as Hq. specialize (IH Hq).
  destruct q as [| y q].
  - destruct x; [reflexivity | discriminate H].
  - destruct x as [g | l0]; [exact IH |].
    destruct y as [g | l1]; [exact IH | discriminate H].
Qed.

Lemma sep_path_pushed fn o : sep o -> sep (path_pushed fn o).
Proof. unfold sep, path_pushed. simpl. apply separated_snoc_Fn. Qed.

Lemma sep_dir_pushed fn o : sep o -> sep (Some (dir_pushed fn o)).
Proof.
  unfold sep, dir_pushed. destruct o as [q |]; simpl; [| reflexivity].
  intros H. destruct (last q) as [[g | l] |] eqn:E.
  - apply separated_snoc_Dirs; [exact H |]. intros l'. rewrite E. discriminate.
  - rewrite (removelast_app_last q _ E) in H.
    eapply separated_replace_last, H.
  - apply separated_snoc_Dirs; [exact H |]. intros l'. rewrite E. discriminate.
Qed.

Lemma sep_popped rest : separated rest = true -> sep (popped rest).
Proof. unfold sep. destruct rest; simpl; auto. Qed.

Lemma sep_path_cleared fn o : sep o -> sep (path_cleared fn o).
Proof.
  unfold path_cleared. destruct o as [[| [f | l] rest] |]; auto.
  case_bool_decide as Ef; auto. intros H. apply sep_popped.
  exact (separated_tail _ _ H).
Qed.

Lemma sep_dir_cleared fn o : sep o -> sep (dir_cleared fn o).
Proof.
  unfold dir_cleared. destruct o as [[| [f | l] rest] |]; auto.
  destruct (length l =? 1)%nat.
  - intros H. apply sep_popped. exact (separated_tail _ _ H).
  - unfold sep. simpl. destruct rest as [| [] rest]; auto.
Qed.

(** Losing the head of the line never makes a handler first: looking
    back over a [reserve]. *)
Lemma path_pushed_first_is_back fn f o :
  f <> fn -> first_is f o = false -> first_is f (path_pushed fn o) = false.
Proof.
  intros Hne. unfold path_pushed. destruct o as [[| x q] |]; simpl; auto;
    intros _; apply bool_decide_false; congruence.
Qed.

Lemma path_pushed_first_has_back fn f o :
  first_has f o = false -> first_has f (path_pushed fn o) = false.
Proof. unfold path_pushed. destruct o as [[| x q] |]; simpl; auto. Qed.

Lemma dir_pushed_first_is_back fn f o :
  first_is f o = false -> first_is f (Some (dir_pushed fn o)) = false.
Proof.
  unfold dir_pushed. destruct o as [q |]; [| reflexivity].
  destruct (last q) as [[g | l] |] eqn:E.
  - destruct q; [discriminate E | auto].
  - rewrite (removelast_app_last q _ E) at 1.
    destruct (removelast q) as [| x q']; simpl; auto.
  - apply last_None in E as ->. reflexivity.
Qed.

Lemma dir_pushed_first_has_back fn f o :
  f <> fn -> first_has f o = false -> first_has f (Some (dir_pushed fn o)) = false.
Proof.
  intros Hne. unfold dir_pushed. destruct o as [q |].
  - destruct (last q) as [[g | l] |] eqn:E.
    + destruct q; [discriminate E | auto].
    + rewrite (removelast_app_last q _ E) at 1.
      destruct (removelast q) as [| x q']; simpl; auto.
      intros H. apply bool_decide_false. intros [-> | Hin]%elem_of_Set_add;
        [congruence |].
      apply bool_decide_eq_false in H. contradiction.
    + apply last_None in E as ->. intros _. simpl.
      apply bool_decide_false. intros Hin%list_elem_of_singleton. congruence.
  - intros _. simpl.
    apply bool_decide_false. intros Hin%list_elem_of_singleton. congruence.
Qed.


Lemma gains_refl acc : gains acc acc.
Proof. repeat split; auto. Qed.

Lemma gains_trans acc1 acc2 acc3 : gains acc1 acc2 -> gains acc2 acc3 -> gains acc1 acc3.
Proof.
  intros (M1 & I1 & H1) (M2 & I2 & H2). repeat split.
  - auto.
  - intros f k H. destruct (I2 f k H) as [H' | H']; [| auto].
    destruct (I1 f k H') as [H'' | H'']; auto.
  - intros f k H. destruct (H2 f k H) as [H' | H']; [| auto].
    destruct (H1 f k H') as [H'' | H'']; auto.
Qed.

Lemma elem_of_Set_add_all (l next : list Handler) f :
  f ∈ foldl (fun acc g => Set_add g acc) next l <-> f ∈ next \/ f ∈ l.
Proof.
  revert next. induction l as [| g l IH]; intros next; simpl.
  - rewrite elem_of_nil. tauto.
  - rewrite IH, elem_of_Set_add, elem_of_cons. tauto.
Qed.

Lemma clear_path_gains fn acc p : gains acc (clear_path fn acc p).
Proof.
  destruct acc as [qs next]. unfold clear_path.
  destruct (qs !! p) as [[| [f0 | l] rest] |] eqn:E; try apply gains_refl.
  case_bool_decide as Ef; [| apply gains_refl]. subst f0.
  destruct rest as [| [g | l] rest]; repeat split; simpl.
  - auto.
  - intros f k. destruct (decide (p = k)) as [<- | Hne].
    + rewrite lookup_delete_eq. discriminate.
    + rewrite lookup_delete_ne by done. auto.
  - intros f k. destruct (decide (p = k)) as [<- | Hne].
    + rewrite lookup_delete_eq. discriminate.
    + rewrite lookup_delete_ne by done. auto.
  - intros f Hf. apply Set_add_keeps, Hf.
  - intros f k. destruct (decide (p = k)) as [<- | Hne].
    + rewrite lookup_insert_eq. simpl. intros ->%bool_decide_eq_true.
      right. apply Set_add_has.
    + rewrite lookup_insert_ne by done. auto.
  - intros f k. destruct (decide (p = k)) as [<- | Hne].
    + rewrite lookup_insert_eq. discriminate.
    + rewrite lookup_insert_ne by done. auto.
  - intros f Hf. apply elem_of_Set_add_all. auto.
  - intros f k. destruct (decide (p = k)) as [<- | Hne].
    + rewrite lookup_insert_eq. discriminate.
    + rewrite lookup_insert_ne by done. auto.
  - intros f k. destruct (decide (p = k)) as [<- | Hne].
    + rewrite lookup_insert_eq. simpl. intros Hin%bool_decide_eq_true.
      right. apply elem_of_Set_add_all. auto.
    + rewrite lookup_insert_ne by done. auto.
Qed.

Lemma clear_dir_gains fn acc d :
  sep (acc.1 !! d) -> gains acc (clear_dir fn acc d).
Proof.
  destruct acc as [qs next]. unfold clear_dir, sep. simpl.
  destruct (qs !! d) as [[| [f0 | l] rest] |] eqn:E; try (intros _; apply gains_refl).
  simpl. intros Hsep.
  destruct (length l =? 1)%nat.
  - destruct rest as [| [g | l'] rest]; [| | discriminate Hsep];
      repeat split; simpl.
    + auto.
    + intros f k. destruct (decide (d = k)) as [<- | Hne].
      * rewrite lookup_delete_eq. discriminate.
      * rewrite lookup_delete_ne by done. auto.
    + intros f k. destruct (decide (d = k)) as [<- | Hne].
      * rewrite lookup_delete_eq. discriminate.
      * rewrite lookup_delete_ne by done. auto.
    + intros f Hf. apply Set_add_keeps, Hf.
    + intros f k. destruct (decide (d = k)) as [<- | Hne].
      * rewrite lookup_insert_eq. simpl. intros ->%bool_decide_eq_true.
        right. apply Set_add_has.
      * rewrite lookup_insert_ne by done. auto.
    + intros f k. destruct (decide (d = k)) as [<- | Hne].
      * rewrite lookup_insert_eq. discriminate.
      * rewrite lookup_insert_ne by done. auto.
  - repeat split; simpl.
    + auto.
    + intros f k. destruct (decide (d = k)) as [<- | Hne].
      * rewrite lookup_insert_eq. discriminate.
      * rewrite lookup_insert_ne by done. auto.
    + intros f k. destruct (decide (d = k)) as [<- | Hne].
      * rewrite lookup_insert_eq, E. simpl.
        intros [Hin _]%bool_decide_eq_true%elem_of_Set_delete.
        left. apply bool_decide_eq_true. exact Hin.
      * rewrite lookup_insert_ne by done. auto.
Qed.

Lemma clear_paths_gains fn ps : forall acc,
  gains acc (foldl (clear_path fn) acc ps).
Proof.
  induction ps as [| p ps IH]; intros acc; [apply gains_refl |].
  simpl. eapply gains_trans; [apply clear_path_gains | apply IH].
Qed.

Lemma clear_dirs_gains fn ds : forall acc,
  (forall k, sep (acc.1 !! k)) ->
  gains acc (foldl (clear_dir fn) acc ds).
Proof.
  induction ds as [| d ds IH]; intros acc Hsep; [apply gains_refl |].
  simpl. eapply gains_trans; [apply clear_dir_gains, Hsep |].
  apply IH. intros k. rewrite lookup_clear_dir.
  case_decide; [apply sep_dir_cleared |]; apply Hsep.
Qed.

Lemma run_first s fn b s' :
  run s fn = Some (b, s') -> check s fn = Some true -> fn ∈ running s'.
Proof.
  unfold run. case_bool_decide as Hr.
  - intros [= <- <-] _. exact Hr.
  - intros H Hc. rewrite Hc in H. simpl in H. injection H as <- <-. simpl.
    apply elem_of_union_l, elem_of_singleton. reflexivity.
Qed.

Lemma run_keeps s fn b s' f :
  run s fn = Some (b, s') -> f ∈ running s -> f ∈ running s'.
Proof.
  intros (_ & _ & [[_ ->] | (_ & _ & _ & ->)])%run_spec Hf; [exact Hf |].
  apply elem_of_union_r, Hf.
Qed.

Lemma run_all_keeps next : forall s s' f,
  run_all s next = Some s' -> f ∈ running s -> f ∈ running s'.
Proof.
  induction next as [| g next IH]; intros s s' f.
  - intros [= <-]. auto.
  - rewrite run_all_cons. destruct (run s g) as [[b s1] |] eqn:E; [| discriminate].
    simpl. intros H Hf. eapply IH; [exact H |]. eapply run_keeps; eauto.
Qed.

Lemma run_all_first next : forall s s' f,
  run_all s next = Some s' -> f ∈ next -> check s f = Some true ->
  f ∈ running s'.
Proof.
  induction next as [| g next IH]; intros s s' f.
  - intros _ Hf. inversion Hf.
  - rewrite run_all_cons. destruct (run s g) as [[b s1] |] eqn:E; [| discriminate].
    simpl. intros H Hf Hc. apply elem_of_cons in Hf as [-> | Hf].
    + eapply run_all_keeps; [exact H |]. eapply run_first; eauto.
    + eapply IH; [exact H | exact Hf |].
      pose proof E as (Hq & Hr & _)%run_spec.
      rewrite (check_ext s s1 f Hq Hr). exact Hc.
Qed.

Lemma Eager_empty : Eager empty.
Proof.
  split; simpl.
  - intros k q H. rewrite lookup_empty in H. discriminate.
  - intros f H. unfold check in H. simpl in H. rewrite lookup_empty in H.
    discriminate.
Qed.

Lemma reserve_Eager h ps fn s b s' :
  Eager s -> reservations s !! fn = None ->
  reserve h ps fn s = Some (b, s') -> Eager s'.
Proof.
  intros [E1 E2] Hfresh. unfold reserve.
  set (ps' := if isWindows h then _ else _).
  destruct ps' as [| p0 ps0] eqn:Eps; [discriminate |].
  rewrite <- Eps. clear Eps. clearbody ps'.
  set (ds := Set_from _). set (r := {| paths := ps'; dirs := ds |}).
  set (s1 := mk _ _ _). intros Hrun.
  pose proof Hrun as (Hq & Hr & _)%run_spec.
  split.
  - intros k q. rewrite Hq. simpl. intros Hk.
    assert (Hs : sep (foldl (push_dir fn) (foldl (push_path fn) (queues s) ps') ds !! k)).
    { apply push_dirs_keep; [apply sep_dir_pushed |].
      apply push_paths_keep; [apply sep_path_pushed |].
      unfold sep. destruct (queues s !! k) as [q0 |] eqn:E0; [| reflexivity].
      simpl. eauto. }
    unfold sep in Hs. rewrite Hk in Hs. exact Hs.
  - intros f Hc. rewrite (check_ext s1 s' f Hq Hr) in Hc.
    destruct (decide (f = fn)) as [-> | Hne].
    { eapply run_first; eauto. }
    eapply run_keeps; [exact Hrun |]. simpl. apply E2.
    apply check_true in Hc as (rf & Hrf & Hp & Hd). simpl in Hrf, Hp, Hd.
    rewrite lookup_insert_ne in Hrf by done.
    apply check_true. exists rf. split; [exact Hrf |]. split.
    + intros p Hin. specialize (Hp p Hin).
      destruct (first_is f (queues s !! p)) eqn:E0; [reflexivity |]. exfalso.
      revert Hp. apply not_true_iff_false.
      apply (push_dirs_keep fn (fun o => first_is f o = false));
        [apply dir_pushed_first_is_back |].
      apply (push_paths_keep fn (fun o => first_is f o = false));
        [intros o; apply path_pushed_first_is_back; exact Hne |]. exact E0.
    + intros d Hin. specialize (Hd d Hin).
      destruct (first_has f (queues s !! d)) eqn:E0; [reflexivity |]. exfalso.
      revert Hd. apply not_true_iff_false.
      apply (push_dirs_keep fn (fun o => first_has f o = false));
        [intros o; apply dir_pushed_first_has_back; exact Hne |].
      apply (push_paths_keep fn (fun o => first_has f o = false));
        [apply path_pushed_first_has_back |]. exact E0.
Qed.

Lemma clear_Eager fn s b s' :
  Inv s -> Eager s -> clear fn s = Some (b, s') -> Eager s'.
Proof.
  intros HI [E1 E2] H.
  apply clear_spec in H as [(_ & _ & ->) | (Hrun & _ & r & Hr & H)];
    [split; assumption |].
  cbv zeta in H.
  set (acc := foldl (clear_dir fn) (foldl (clear_path fn) (queues s, []) (paths r))
                (dirs r)) in *.
  assert (Hsep0 : forall k, sep (queues s !! k)).
  { intros k. unfold sep. destruct (queues s !! k) as [q0 |] eqn:E0; [| reflexivity].
    simpl. eauto. }
  assert (Hsep : forall k, sep (acc.1 !! k)).
  { intros k. apply clear_dirs_keep; [apply sep_dir_cleared |].
    apply clear_paths_keep; [apply sep_path_cleared |]. apply Hsep0. }
  assert (Hg : gains (queues s, []) acc).
  { eapply gains_trans; [apply clear_paths_gains |].
    apply clear_dirs_gains. intros k.
    apply clear_paths_keep; [apply sep_path_cleared |]. apply Hsep0. }
  destruct Hg as (_ & Gis & Ghas). simpl in Gis, Ghas.
  pose proof H as (Hq & Hrs & _)%run_all_frame. simpl in Hq, Hrs.
  split.
  - intros k q Hk. rewrite Hq in Hk. specialize (Hsep k).
    unfold sep in Hsep. rewrite Hk in Hsep. exact Hsep.
  - intros f Hc.
    rewrite (check_ext (mk acc.1 (reservations s) (running s ∖ {[fn]})) s' f Hq Hrs)
      in Hc.
    destruct (decide (f = fn)) as [-> | Hne].
    { exfalso. apply check_true in Hc as (r' & Hr' & Hp & _). simpl in Hr', Hp.
      simplify_eq.
      destruct (paths r) as [| p ps] eqn:Ep; [eapply (inv_paths s HI); eauto |].
      specialize (Hp p ltac:(left)).
      pose proof (cleared_unseats fn s r p HI Hrun Hr) as Hno.
      unfold cleared in Hno. rewrite Ep in Hno. fold acc in Hno. congruence. }
    destruct (decide (f ∈ acc.2)) as [Hin | Hout].
    { eapply run_all_first; eauto. }
    eapply run_all_keeps; [exact H |]. simpl.
    apply elem_of_difference. split; [| rewrite elem_of_singleton; exact Hne].
    apply E2.
    apply check_true in Hc as (rf & Hrf & Hp & Hd). simpl in Hrf, Hp, Hd.
    apply check_true. exists rf. split; [exact Hrf |]. split.
    + intros p Hp'. destruct (Gis f p (Hp p Hp')); [assumption | contradiction].
    + intros d Hd'. destruct (Ghas f d (Hd d Hd')); [assumption | contradiction].
Qed.

Lemma reachable_Eager h s : reachable h s -> Eager s.
Proof.
  induction 1 as [| s ps fn b s' Hs IH Hfresh Hres | s fn b s' Hs IH Hclear].
  - apply Eager_empty.
  - eapply reserve_Eager; eauto.
  - eapply clear_Eager; eauto. eapply reachable_Inv; eauto.
Qed.

(** X1.  In every state the scheduler reaches, a handler is running
    exactly when it passes [check]: it is first in the queue of each of
    its paths and in the first set of the queue of each of its
    directories.  No handler runs out of turn, and none that is first in
    line is left waiting. *)
Theorem running_iff_first_in_line h s f :
  reachable h s ->
  (f ∈ running s <-> check s f = Some true).
Proof.
  intros Hs. split.
  - apply (inv_running s (reachable_Inv h s Hs)).
  - apply (eager_running s (reachable_Eager h s Hs)).
Qed.

Lemma running_iff_first_in_line_witness :
  1%nat ∈ running siblings <-> check siblings 1%nat = Some true.
Proof. exact (running_iff_first_in_line posix siblings 1%nat siblings_reachable). Defined.


End SchedulerEager.

(** ** The sanitizer, case by case *)

Section SanitizerMore.
Import Unpack.

(** The stages of [CHECKPATH] after the depth test, on the entry and the
    segments the [strip] stage hands on. *)
Lemma CHECKPATH_stages h entry u :
  CHECKPATH h entry u
  = match strip_parts h u entry
            (JS.split slash (normalizeWindowsPath h (ReadEntry.path entry))) with
    | None => ((false, entry), u, [])
    | Some (e1, parts) =>
        if too_deep u parts then
          ((false, e1), u, [Warn "TAR_ENTRY_ERROR" "path excessively deep"])
        else if negb (preservePaths u) && has_dotdot h parts then
          ((false, e1), u, [Warn "TAR_ENTRY_ERROR" "path contains '..'"])
        else
          let '(root, rest) :=
            stripAbsolutePath h (normalizeWindowsPath h (ReadEntry.path entry)) in
          let strips := negb (preservePaths u) && negb (String.eqb root "") in
          let e2 := if strips then ReadEntry.set_path rest e1 else e1 in
          let info :=
            if strips then
              [Warn "TAR_ENTRY_INFO" ("stripping " +:+ root +:+ " from absolute path")]
            else [] in
          let e3 := resolve_absolute h u e2 in
          if escapes u e3 then
            ((false, e3), u,
             info ++ [Warn "TAR_ENTRY_ERROR" "path escaped extraction target"])
          else if bool_decide (ReadEntry.absolute e3 = Some (cwd u))
                  && negb (is_dir_type (ReadEntry.type e3))
          then ((false, e3), u, info)
          else ((true, encode_win32 h u e3), u, info)
    end.
Proof.
  unfold CHECKPATH.
  unfold mbind, M_bind, mret, M_ret, this, act.
  destruct (strip_parts _ _ _ _) as [[e1 parts] |]; [| reflexivity].
  destruct (too_deep u parts); [reflexivity |].
  destruct (preservePaths u); simpl.
  - destruct (stripAbsolutePath h _) as [root rest].
    destruct (escapes _ _); [reflexivity |].
    destruct (_ && _); reflexivity.
  - destruct (has_dotdot h parts); [reflexivity |].
    destruct (stripAbsolutePath h _) as [root rest].
    destruct (String.eqb root ""); simpl.
    + destruct (escapes _ _); [reflexivity |].
      destruct (_ && _); reflexivity.
    + destruct (escapes _ _); [reflexivity |].
      destruct (_ && _); reflexivity.
Qed.

(** The sanitizer leaves the instance alone and emits warnings only. *)
Lemma CHECKPATH_warnings h entry u :
  after (CHECKPATH h entry) u = u
  /\ Forall is_warning (trace (CHECKPATH h entry) u).
Proof.
  unfold after, trace. rewrite CHECKPATH_stages.
  assert (W : forall c m, is_warning (Warn c m)) by (intros c m; exists c, m; reflexivity).
  destruct (strip_parts _ _ _ _) as [[e1 parts] |];
    [| simpl; split; auto; constructor].
  destruct (too_deep u parts);
    [simpl; split; auto; repeat constructor; apply W |].
  destruct (_ && has_dotdot h parts);
    [simpl; split; auto; repeat constructor; apply W |].
  destruct (stripAbsolutePath h _) as [root rest]. cbv zeta.
  destruct (negb (preservePaths u) && negb (String.eqb root ""));
    destruct (escapes _ _); try destruct (_ && negb (is_dir_type _));
    simpl; split; auto; repeat constructor; apply W.
Qed.

(** X12.  [CHECKPATH] leaves the instance as it is and does nothing but
    warn; for an entry it accepts it gives no warning, or the one notice
    that a root was stripped. *)
Theorem CHECKPATH_only_warns h entry u :
  after (CHECKPATH h entry) u = u
  /\ Forall is_warning (trace (CHECKPATH h entry) u)
  /\ ((CHECKPATH h entry u).1.1.1 = true ->
      trace (CHECKPATH h entry) u = []
      \/ exists root,
           trace (CHECKPATH h entry) u
           = [Warn "TAR_ENTRY_INFO"
                ("stripping " +:+ root +:+ " from absolute path")]).
Proof.
  unfold after, trace. rewrite CHECKPATH_stages.
  assert (W : forall c m, is_warning (Warn c m)) by (intros c m; exists c, m; reflexivity).
  destruct (strip_parts _ _ _ _) as [[e1 parts] |];
    [| simpl; repeat split; auto; try discriminate; constructor].
  destruct (too_deep u parts);
    [simpl; repeat split; auto; try discriminate; repeat constructor; apply W |].
  destruct (_ && has_dotdot h parts);
    [simpl; repeat split; auto; try discriminate; repeat constructor; apply W |].
  destruct (stripAbsolutePath h _) as [root rest]. cbv zeta.
  destruct (negb (preservePaths u) && negb (String.eqb root ""));
    destruct (escapes _ _); try destruct (_ && negb (is_dir_type _));
    simpl; repeat split; eauto; try discriminate; repeat constructor; apply W.
Qed.

(** X7.  Without [win32] encoding, an entry that [CHECKPATH] accepts has
    an absolute path; that path is [cwd] itself only for a [Directory] or
    [GNUDumpDir] entry, and unless [preservePaths] is set it is [cwd] or
    begins with [cwd + '/']. *)
Theorem CHECKPATH_confines h entry u entry' u' tr :
  CHECKPATH h entry u = ((true, entry'), u', tr) ->
  win32 u = false ->
  exists a,
    ReadEntry.absolute entry' = Some a
    /\ (a = cwd u -> is_dir_type (ReadEntry.type entry) = true)
    /\ (preservePaths u = false ->
        a = cwd u \/ JS.starts_with (cwd u +:+ "/") a = true).
Proof.
  intros H Hw.
  destruct (CHECKPATH_keeps _ _ _ _ _ _ H) as [[Hty _] _].
  rewrite CHECKPATH_stages in H.
  destruct (strip_parts _ _ _ _) as [[e1 parts] |]; [| discriminate].
  destruct (too_deep u parts); [discriminate |].
  destruct (_ && has_dotdot h parts); [discriminate |].
  destruct (stripAbsolutePath h _) as [root rest]. cbv zeta in H.
  set (e3 := resolve_absolute h u _) in H.
  destruct (escapes u e3) eqn:Hesc; [discriminate |].
  destruct (bool_decide (ReadEntry.absolute e3 = Some (cwd u))
            && negb (is_dir_type (ReadEntry.type e3))) eqn:Hcwd; [discriminate |].
  injection H as <- <- <-.
  unfold encode_win32. rewrite Hw.
  unfold encode_win32 in Hty. rewrite Hw in Hty.
  destruct (ReadEntry.absolute e3) as [a |] eqn:Ha; [| discriminate Ha].
  exists a. split; [reflexivity |]. split.
  - intros ->. rewrite bool_decide_true in Hcwd by reflexivity.
    rewrite Hty in Hcwd. simpl in Hcwd. apply negb_false_iff in Hcwd. exact Hcwd.
  - intros Hpp. unfold escapes in Hesc. rewrite Hpp, Ha in Hesc. simpl in Hesc.
    apply andb_false_iff in Hesc as [Hpre | Heq].
    + right. apply negb_false_iff in Hpre. exact Hpre.
    + left. apply negb_false_iff, bool_decide_eq_true in Heq. congruence.
Qed.

Lemma CHECKPATH_confines_witness :
  exists a,
    Some "/x/a/b" = Some a
    /\ (a = "/x" -> is_dir_type File = true)
    /\ (false = false -> a = "/x" \/ JS.starts_with ("/x" +:+ "/") a = true).
Proof.
  apply (CHECKPATH_confines posix (entry_of File "a/b" (Some 420)) (unpack_at "/x")
           (ReadEntry.set_absolute (Some "/x/a/b") (entry_of File "a/b" (Some 420)))
           (unpack_at "/x") []);
    reflexivity.
Defined.

(** X8.  Unless [preservePaths] is set, an entry that the [strip] stage
    keeps ([strip] is 0, or the path has at least [strip] segments and,
    for a [Link], the linkpath has too), whose path less the first
    [strip] segments is within [maxDepth] and has a [..] segment, is
    refused: one warning "path contains '..'", the entry is resumed,
    [CHECKFS] is not called and the instance is unchanged. *)
Theorem ONENTRY_refuses_dotdot h (CHECKFS : ReadEntry.t -> M unit) u entry :
  preservePaths u = false ->
  survives_strip h u entry ->
  too_deep u (stripped_parts h u entry) = false ->
  ".." ∈ stripped_parts h u entry ->
  ONENTRY h CHECKFS entry u
  = (tt, u, [Warn "TAR_ENTRY_ERROR" "path contains '..'"; Resume]).
Proof.
  intros Hpp Hstrip Hdeep Hdd.
  destruct (strip_parts_survives h u entry Hstrip) as [entry' Hs].
  unfold ONENTRY. unfold mbind, M_bind at 1.
  rewrite CHECKPATH_stages, Hs, Hdeep, Hpp.
  unfold has_dotdot. rewrite bool_decide_true by exact Hdd. reflexivity.
Qed.

Lemma ONENTRY_refuses_dotdot_witness :
  ONENTRY posix Unpack.CHECKFS (entry_of File "a/../../etc/passwd" (Some 420))
    (unpack_at "/x")
  = (tt, unpack_at "/x", [Warn "TAR_ENTRY_ERROR" "path contains '..'"; Resume]).
Proof.
  apply (ONENTRY_refuses_dotdot posix Unpack.CHECKFS (unpack_at "/x")
           (entry_of File "a/../../etc/passwd" (Some 420))).
  - reflexivity.
  - left. reflexivity.
  - reflexivity.
  - vm_compute. set_solver.
Defined.

(** X9.  With a nonzero [strip], an entry whose path has fewer segments
    than [strip], or a [Link] whose linkpath has, is dropped without a
    warning: it is resumed and nothing else happens. *)
Theorem ONENTRY_strip_drops_short h (CHECKFS : ReadEntry.t -> M unit) u entry :
  strip u <> 0 ->
  Z.of_nat (length (JS.split slash (normalizeWindowsPath h (ReadEntry.path entry))))
    < strip u
  \/ (ReadEntry.type entry = Link
      /\ Z.of_nat
           (length
              (JS.split slash
                 (normalizeWindowsPath h (String_ (ReadEntry.linkpath entry)))))
         < strip u) ->
  ONENTRY h CHECKFS entry u = (tt, u, [Resume]).
Proof.
  intros Hs Hshort.
  assert (Hnone : strip_parts h u entry
            (JS.split slash (normalizeWindowsPath h (ReadEntry.path entry))) = None).
  { unfold strip_parts. destruct (Z.eqb_spec (strip u) 0) as [E | _]; [contradiction |].
    destruct (Z.ltb_spec (Z.of_nat (length (JS.split slash
                (normalizeWindowsPath h (ReadEntry.path entry))))) (strip u));
      [reflexivity |].
    destruct Hshort as [Hshort | [Hty Hshort]]; [lia |].
    destruct (decide (ReadEntry.type entry = Link)); [| contradiction].
    destruct (Z.leb_spec (strip u)
                (Z.of_nat (length (JS.split slash
                   (normalizeWindowsPath h (String_ (ReadEntry.linkpath entry)))))));
      [lia | reflexivity]. }
  unfold ONENTRY. unfold mbind, M_bind at 1.
  rewrite CHECKPATH_stages, Hnone. reflexivity.
Qed.

Lemma ONENTRY_strip_drops_short_witness :
  ONENTRY posix Unpack.CHECKFS (entry_of File "a/b" (Some 420))
    (stripping_at "/x" 3)
  = (tt, stripping_at "/x" 3, [Resume]).
Proof.
  apply (ONENTRY_strip_drops_short posix Unpack.CHECKFS (stripping_at "/x" 3)
           (entry_of File "a/b" (Some 420))).
  - discriminate.
  - left. simpl. lia.
Defined.

(** X10.  For an absolute path, [stripAbsolutePath] is applied to the
    path as it came, not to what [strip] left: the accepted entry's path
    is the original path without its root, whatever [strip] is, and the
    only warning is the notice "stripping ... from absolute path". *)
Theorem CHECKPATH_root_overrides_strip h entry u entry' u' tr root rest :
  CHECKPATH h entry u = ((true, entry'), u', tr) ->
  preservePaths u = false ->
  win32 u = false ->
  stripAbsolutePath h (normalizeWindowsPath h (ReadEntry.path entry))
    = (root, rest) ->
  root <> "" ->
  ReadEntry.path entry' = rest
  /\ tr = [Warn "TAR_ENTRY_INFO" ("stripping " +:+ root +:+ " from absolute path")].
Proof.
  intros H Hpp Hw Hroot Hne.
  rewrite CHECKPATH_stages in H.
  destruct (strip_parts _ _ _ _) as [[e1 parts] |]; [| discriminate].
  destruct (too_deep u parts); [discriminate |].
  destruct (_ && has_dotdot h parts); [discriminate |].
  rewrite Hroot, Hpp in H. cbv zeta in H.
  assert (String.eqb root "" = false) as E by (apply String.eqb_neq, Hne).
  rewrite E in H. simpl in H.
  destruct (escapes u _); [discriminate |].
  destruct (_ && negb (is_dir_type _)); [discriminate |].
  injection H as <- <- <-.
  unfold encode_win32. rewrite Hw. split; reflexivity.
Qed.

Lemma CHECKPATH_root_overrides_strip_witness :
  ReadEntry.path
    (ReadEntry.set_absolute (Some "/x/a/b/c")
       (entry_of File "a/b/c" (Some 420)))
  = "a/b/c"
  /\ [Warn "TAR_ENTRY_INFO" "stripping / from absolute path"]
     = [Warn "TAR_ENTRY_INFO" ("stripping " +:+ "/" +:+ " from absolute path")].
Proof.
  apply (CHECKPATH_root_overrides_strip posix
           (entry_of File "/a/b/c" (Some 420)) (stripping_at "/x" 2)
           (ReadEntry.set_absolute (Some "/x/a/b/c")
              (entry_of File "a/b/c" (Some 420)))
           (stripping_at "/x" 2)
           [Warn "TAR_ENTRY_INFO" "stripping / from absolute path"]
           "/" "a/b/c").
  - vm_compute. reflexivity.
  - reflexivity.
  - reflexivity.
  - vm_compute. reflexivity.
  - discriminate.
Defined.

(** X11.  An entry of type [CharacterDevice], [BlockDevice], [FIFO] or of
    an unknown type is never handed to [CHECKFS]: [ONENTRY] only warns and
    resumes it, leaving the instance unchanged; if the sanitizer accepted
    it, one of the warnings is [TAR_ENTRY_UNSUPPORTED] with its type. *)
Theorem ONENTRY_unsupported h (CHECKFS : ReadEntry.t -> M unit) u entry :
  ReadEntry.type entry ∈ [CharacterDevice; BlockDevice; FIFO]
  \/ (exists name, ReadEntry.type entry = OtherType name) ->
  exists tr,
    ONENTRY h CHECKFS entry u = (tt, u, tr ++ [Resume])
    /\ Forall is_warning tr
    /\ ((CHECKPATH h entry u).1.1.1 = true ->
        Warn "TAR_ENTRY_UNSUPPORTED"
          ("unsupported entry type: " +:+ type_name (ReadEntry.type entry))
        ∈ tr).
Proof.
  intros Hty.
  destruct (CHECKPATH_warnings h entry u) as (Hu & Htr).
  unfold ONENTRY. unfold mbind, M_bind at 1.
  unfold after, trace in Hu, Htr.
  destruct (CHECKPATH h entry u) as [[[ok e] u1] tr1] eqn:E.
  simpl in Hu, Htr. subst u1.
  destruct ok; simpl.
  - destruct (CHECKPATH_keeps _ _ _ _ _ _ E) as [[Hk _] _].
    exists (tr1 ++ [Warn "TAR_ENTRY_UNSUPPORTED"
                      ("unsupported entry type: " +:+ type_name (ReadEntry.type entry))]).
    split; [| split].
    + unfold UNSUPPORTED. rewrite Hk, <- app_assoc.
      destruct Hty as [Hin | [name ->]]; [| reflexivity].
      repeat (apply elem_of_cons in Hin as [-> | Hin]; [reflexivity |]).
      inversion Hin.
    + apply Forall_app. split; [exact Htr |]. repeat constructor. eexists _, _.
      reflexivity.
    + intros _. apply elem_of_app. right. left.
  - exists tr1. split; [| split]; [reflexivity | exact Htr | discriminate].
Qed.

Lemma ONENTRY_unsupported_witness :
  exists tr,
    ONENTRY posix Unpack.CHECKFS (entry_of FIFO "p" (Some 420)) (unpack_at "/x")
    = (tt, unpack_at "/x", tr ++ [Resume])
    /\ Forall is_warning tr
    /\ ((CHECKPATH posix (entry_of FIFO "p" (Some 420)) (unpack_at "/x")).1.1.1 = true ->
        Warn "TAR_ENTRY_UNSUPPORTED"
          ("unsupported entry type: " +:+ type_name FIFO)
        ∈ tr).
Proof.
  apply (ONENTRY_unsupported posix Unpack.CHECKFS (unpack_at "/x")
           (entry_of FIFO "p" (Some 420))).
  left. simpl. set_solver.
Defined.

End SanitizerMore.

(** ** The reconciler, entry by entry *)

Section ReconcilerMore.
Import Unpack.

Lemma start_cases h fs entry u :
  exists pre k,
    Forall is_setup pre
    /\ reconciled h fs entry k
    /\ trace (start h fs entry) u = pre ++ trace k u
    /\ after (start h fs entry) u = after k u.
Proof.
  unfold start, MKDIR. norm_M.
  destruct (negb (is_cwd u entry));
    [| exists [], (afterMakeParent h fs entry); repeat split; auto; left; reflexivity].
  destruct (negb (String.eqb _ _));
    [| exists [], (afterMakeParent h fs entry); repeat split; auto; left; reflexivity].
  norm_M.
  destruct (on_mkdir_parent fs) as [er |] eqn:Ep.
  - eexists [_], (ONERROR er;; CHECKFS2_done).
    split; [constructor; [right; eauto | constructor] |].
    split; [right; eauto |]. split; reflexivity.
  - eexists [_], (afterMakeParent h fs entry).
    split; [constructor; [right; eauto | constructor] |].
    split; [left; reflexivity |]. split; reflexivity.
Qed.

(** [CHECKFS2] makes the directories and then reconciles, on the instance
    as it was or with [CHECKED_CWD] set. *)
Lemma CHECKFS2_cases h fs entry u :
  exists pre u' k,
    Forall is_setup pre
    /\ (u' = u \/ u' = set_CHECKED_CWD true u)
    /\ reconciled h fs entry k
    /\ trace (CHECKFS2 h fs entry) u = pre ++ trace k u'
    /\ after (CHECKFS2 h fs entry) u = after k u'.
Proof.
  unfold CHECKFS2. norm_M.
  destruct (CHECKED_CWD u).
  - destruct (start_cases h fs entry u) as (pre & k & Hpre & Hk & -> & ->).
    exists (PruneCache :: pre), u, k.
    split; [constructor; [left; reflexivity | exact Hpre] |].
    split; [left; reflexivity |]. split; [exact Hk |]. split; reflexivity.
  - unfold checkCwd, MKDIR. norm_M.
    destruct (on_mkdir_cwd fs) as [er |] eqn:Ec.
    + eexists [_; _], u, (ONERROR er;; CHECKFS2_done).
      split; [constructor; [left; reflexivity |]; constructor; [right; eauto | constructor] |].
      split; [left; reflexivity |]. split; [right; eauto |].
      split; reflexivity.
    + norm_M.
      destruct (start_cases h fs entry (set_CHECKED_CWD true u))
        as (pre & k & Hpre & Hk & -> & ->).
      exists (PruneCache :: Mkdir (normalizeWindowsPath h (cwd u)) (dmode u) :: pre),
        (set_CHECKED_CWD true u), k.
      split; [constructor; [left; reflexivity |];
              constructor; [right; eauto | exact Hpre] |].
      split; [right; reflexivity |]. split; [exact Hk |]. split; reflexivity.
Qed.

Lemma afterMakeParent_cases h fs entry u :
  let abs := String_ (ReadEntry.absolute entry) in
  (exists st,
     on_lstat fs = Some st /\ keep_existing u entry st = true
     /\ trace (afterMakeParent h fs entry) u
        = Lstat abs :: trace (SKIP;; CHECKFS2_done) u
     /\ after (afterMakeParent h fs entry) u = after (SKIP;; CHECKFS2_done) u)
  \/ (exists call er,
        decided fs entry u call er
        /\ (forall st, on_lstat fs = Some st -> keep_existing u entry st = false)
        /\ trace (afterMakeParent h fs entry) u
           = Lstat abs :: call ++ trace (MAKEFS h er entry CHECKFS2_done) u
        /\ after (afterMakeParent h fs entry) u
           = after (MAKEFS h er entry CHECKFS2_done) u).
Proof.
  intros abs. unfold afterMakeParent. fold abs. norm_M.
  assert (Plain : exists call er,
            decided fs entry u call er
            /\ [Lstat abs] ++ trace (MAKEFS h None entry CHECKFS2_done) u
               = Lstat abs :: call ++ trace (MAKEFS h er entry CHECKFS2_done) u
            /\ after (MAKEFS h None entry CHECKFS2_done) u
               = after (MAKEFS h er entry CHECKFS2_done) u).
  { exists [], None. split; [left; auto |]. split; reflexivity. }
  destruct (on_lstat fs) as [st |] eqn:El.
  2:{ right. destruct Plain as (call & er & H1 & H2 & H3).
      exists call, er. repeat split; auto. discriminate. }
  destruct (keep_existing u entry st) eqn:Ek.
  { left. exists st. repeat split; auto; norm_M; reflexivity. }
  right.
  assert (Hk : forall st', Some st = Some st' -> keep_existing u entry st' = false)
    by (intros st' [= <-]; exact Ek).
  assert (Unlink : is_cwd u entry = false ->
            (isDirectory st = true -> ReadEntry.type entry <> Directory) ->
            exists call er,
              decided fs entry u call er
              /\ (forall st', Some st = Some st' -> keep_existing u entry st' = false)
              /\ [Lstat abs] ++
                 trace (act (UnlinkFile abs);;
                        MAKEFS h (on_unlink fs) entry CHECKFS2_done) u
                 = Lstat abs :: call ++ trace (MAKEFS h er entry CHECKFS2_done) u
              /\ after (act (UnlinkFile abs);;
                        MAKEFS h (on_unlink fs) entry CHECKFS2_done) u
                 = after (MAKEFS h er entry CHECKFS2_done) u).
  { intros Hc Hd. exists [UnlinkFile abs], (on_unlink fs).
    split; [right; right; right; exists st; repeat split; auto |].
    split; [exact Hk |]. norm_M. split; reflexivity. }
  destruct (ISREUSABLE h u entry st).
  { destruct Plain as (call & er & H1 & H2 & H3). exists call, er. auto. }
  destruct (isDirectory st) eqn:Ed.
  - case_bool_decide as Ety.
    + destruct (needChmod u entry st).
      * exists [Chmod abs (default 0 (ReadEntry.mode entry))], (on_chmod fs).
        split; [right; left; exists st; repeat split; auto |]. split; [exact Hk |].
        norm_M. split; reflexivity.
      * destruct Plain as (call & er & H1 & H2 & H3). exists call, er. auto.
    + destruct (is_cwd u entry) eqn:Ec; simpl.
      * destruct Plain as (call & er & H1 & H2 & H3). exists call, er. auto.
      * exists [Rmdir abs], (on_rmdir fs).
        split; [right; right; left; exists st; repeat split; auto |]. split; [exact Hk |].
        norm_M. split; reflexivity.
  - destruct (is_cwd u entry) eqn:Ec.
    + destruct Plain as (call & er & H1 & H2 & H3). exists call, er. auto.
    + apply Unlink; [reflexivity | discriminate].
Qed.

(** The same for [UnpackSync.CHECKFS]. *)
Lemma UnpackSync_CHECKFS_cases h fs entry u :
  exists pre u' k,
    Forall is_setup pre
    /\ (u' = u \/ u' = set_CHECKED_CWD true u)
    /\ (k = UnpackSync.reconcile h fs entry \/ exists er, k = ONERROR er)
    /\ trace (UnpackSync.CHECKFS h fs entry) u = pre ++ trace k u'
    /\ after (UnpackSync.CHECKFS h fs entry) u = after k u'.
Proof.
  assert (Hmake : forall u',
            exists pre k,
              Forall is_setup pre
              /\ (k = UnpackSync.reconcile h fs entry \/ exists er, k = ONERROR er)
              /\ trace (UnpackSync.makeParent h fs entry) u' = pre ++ trace k u'
              /\ after (UnpackSync.makeParent h fs entry) u' = after k u').
  { intros u'. unfold UnpackSync.makeParent, MKDIR. norm_M.
    destruct (negb (is_cwd u' entry));
      [| exists [], (UnpackSync.reconcile h fs entry); repeat split; auto].
    destruct (negb (String.eqb _ _));
      [| exists [], (UnpackSync.reconcile h fs entry); repeat split; auto].
    norm_M.
    destruct (on_mkdir_parent fs) as [er |] eqn:Ep.
    - eexists [_], (ONERROR er).
      split; [constructor; [right; eauto | constructor] |].
      split; [right; eauto |]. split; reflexivity.
    - eexists [_], (UnpackSync.reconcile h fs entry).
      split; [constructor; [right; eauto | constructor] |].
      split; [left; reflexivity |]. split; reflexivity. }
  unfold UnpackSync.CHECKFS, MKDIR. norm_M.
  destruct (CHECKED_CWD u).
  - destruct (Hmake u) as (pre & k & Hpre & Hk & -> & ->).
    exists (PruneCache :: pre), u, k.
    split; [constructor; [left; reflexivity | exact Hpre] |].
    split; [left; reflexivity |]. split; [exact Hk |]. split; reflexivity.
  - norm_M. destruct (on_mkdir_cwd fs) as [er |] eqn:Ec.
    + eexists [_; _], u, (ONERROR er).
      split; [constructor; [left; reflexivity |];
              constructor; [right; eauto | constructor] |].
      split; [left; reflexivity |]. split; [right; eauto |].
      split; reflexivity.
    + norm_M.
      destruct (Hmake (set_CHECKED_CWD true u)) as (pre & k & Hpre & Hk & -> & ->).
      exists (PruneCache :: Mkdir (normalizeWindowsPath h (cwd u)) (dmode u) :: pre),
        (set_CHECKED_CWD true u), k.
      split; [constructor; [left; reflexivity |];
              constructor; [right; eauto | exact Hpre] |].
      split; [right; reflexivity |]. split; [exact Hk |]. split; reflexivity.
Qed.

(** *** Counting what a trace does *)

Lemma materializations_app tr1 tr2 :
  materializations (tr1 ++ tr2) = materializations tr1 + materializations tr2.
Proof.
  unfold materializations. rewrite List.filter_app, length_app. lia.
Qed.

Lemma setup_counts pre :
  Forall is_setup pre ->
  materializations pre = 0 /\ occ Release pre = 0%nat
  /\ Forall (fun e => alters e = false) pre.
Proof.
  induction 1 as [| e pre He _ (IH1 & IH2 & IH3)]; [repeat split; constructor |].
  change (e :: pre) with ([e] ++ pre).
  rewrite materializations_app, occ_app, IH1, IH2.
  destruct He as [-> | (d & m & ->)]; repeat split; try constructor; auto.
Qed.

Lemma UNPEND_counts u :
  materializations (trace UNPEND u) = 0 /\ occ Release (trace UNPEND u) = 0%nat
  /\ Forall (fun e => alters e = false) (trace UNPEND u)
  /\ PENDING (after UNPEND u) = PENDING u - 1.
Proof.
  destruct (UNPEND_spec u) as [-> ->].
  destruct (ENDED u && _); repeat split; repeat constructor.
Qed.

Lemma ONERROR_quiet er u :
  materializations (trace (ONERROR er) u) = 0
  /\ occ Release (trace (ONERROR er) u) = 0%nat
  /\ Forall (fun e => alters e = false) (trace (ONERROR er) u).
Proof.
  unfold ONERROR. destruct (String.eqb _ _); [repeat split; repeat constructor |].
  norm_M. destruct (UNPEND_counts u) as (H1 & H2 & H3 & _).
  rewrite !materializations_app, !occ_app, H1, H2.
  repeat split. repeat (apply Forall_app; split); auto; repeat constructor.
Qed.

Lemma ONERROR_counts er u :
  er_name er <> "CwdError" ->
  PENDING (after (ONERROR er) u) = PENDING u - 1
  /\ Warn "TAR_ENTRY_ERROR" (er_message er) ∈ trace (ONERROR er) u.
Proof.
  intros Hne. unfold ONERROR.
  apply String.eqb_neq in Hne. rewrite Hne. norm_M.
  split; [apply UNPEND_counts | left].
Qed.

Lemma done_counts u :
  trace CHECKFS2_done u = [PruneCache; Release] /\ after CHECKFS2_done u = u.
Proof. split; reflexivity. Qed.

Lemma closes_after (k : M unit) u :
  materializations (trace k u) = 0 -> occ Release (trace k u) = 0%nat ->
  PENDING (after k u) = PENDING u - 1 ->
  closed (k;; CHECKFS2_done) u.
Proof.
  intros H1 H2 H3. unfold closed. norm_M.
  rewrite materializations_app, occ_app, H1, H2.
  destruct (done_counts (after k u)) as [-> ->]. auto.
Qed.

Lemma MAKEFS_settles h er entry u :
  supported (ReadEntry.type entry) = true ->
  (forall e, er = Some e -> er_name e <> "CwdError") ->
  match er with
  | None => handed_over (MAKEFS h None entry CHECKFS2_done) u
  | Some e =>
      closed (MAKEFS h er entry CHECKFS2_done) u
      /\ Warn "TAR_ENTRY_ERROR" (er_message e)
         ∈ trace (MAKEFS h er entry CHECKFS2_done) u
  end.
Proof.
  intros Hty Her. unfold MAKEFS. destruct er as [e |].
  - destruct (ONERROR_quiet e u) as (H1 & H2 & _).
    destruct (ONERROR_counts e u (Her e eq_refl)) as (H3 & H4).
    split; [apply closes_after; assumption |].
    norm_M. apply elem_of_app. left. exact H4.
  - unfold handed_over. norm_M.
    destruct (ReadEntry.type entry); try discriminate Hty; repeat split.
Qed.

Lemma handed_over_after pre (k k' : M unit) u u' :
  Forall is_setup pre ->
  trace k' u = pre ++ trace k u' -> after k' u = after k u' ->
  PENDING u' = PENDING u ->
  (handed_over k u' -> handed_over k' u) /\ (closed k u' -> closed k' u).
Proof.
  intros (P1 & P2 & _)%setup_counts Ht Ha Hp.
  unfold handed_over, closed.
  rewrite Ht, Ha, materializations_app, occ_app, P1, P2, Hp. auto.
Qed.

(** *** One entry, one completion *)

Lemma recoverable_at fs o er :
  recoverable fs -> o = Some er ->
  o ∈ [on_mkdir_cwd fs; on_mkdir_parent fs; on_chmod fs; on_rmdir fs;
       on_unlink fs] ->
  er_name er <> "CwdError".
Proof. intros Hr -> Hin. apply Hr, Hin. Qed.

(** X13.  In the parallel profile, the reconciliation of a supported
    entry ends in exactly one of two ways, provided no call fails with a
    [CwdError]: the entry is handed to one materializer, with [PENDING]
    and the reservation left to it; or it is closed, with [PENDING]
    decremented once, the reservation released once and nothing
    materialized. *)
Theorem parallel_entry_settles h fs entry u :
  supported (ReadEntry.type entry) = true ->
  recoverable fs ->
  handed_over (CHECKFS2 h fs entry) u \/ closed (CHECKFS2 h fs entry) u.
Proof.
  intros Hty Hrec.
  destruct (CHECKFS2_cases h fs entry u) as (pre & u' & k & Hpre & Hu & Hk & Ht & Ha).
  assert (Hp : PENDING u' = PENDING u) by (destruct Hu as [-> | ->]; reflexivity).
  destruct (handed_over_after pre k (CHECKFS2 h fs entry) u u' Hpre Ht Ha Hp)
    as [Hover Hclosed].
  cut (handed_over k u' \/ closed k u'); [intros [H | H]; auto |].
  destruct Hk as [-> | (er & Her & ->)].
  - destruct (afterMakeParent_cases h fs entry u')
      as [(st & El & Ek & Ht' & Ha') | (call & er & Hd & _ & Ht' & Ha')].
    + right. unfold closed. rewrite Ht', Ha'.
      change (Lstat ?a :: ?t) with ([Lstat a] ++ t).
      rewrite materializations_app, occ_app.
      assert (C : closed (SKIP;; CHECKFS2_done) u').
      { unfold SKIP. destruct (UNPEND_counts u') as (H1 & H2 & _ & H4).
        apply closes_after; norm_M;
          rewrite ?materializations_app, ?occ_app, ?H1, ?H2; auto. }
      destruct C as (C1 & C2 & C3). rewrite C1, C2, C3. auto.
    + assert (Hcall : materializations call = 0 /\ occ Release call = 0%nat).
      { destruct Hd as [[-> _] | [(st & _ & _ & _ & -> & _)
                        | [(st & _ & _ & _ & _ & -> & _)
                          | (st & _ & _ & _ & -> & _)]]]; split; reflexivity. }
      assert (Her : forall e, er = Some e -> er_name e <> "CwdError").
      { intros e ->.
        destruct Hd as [[_ [=]] | [(st & _ & _ & _ & _ & E)
                        | [(st & _ & _ & _ & _ & _ & E)
                          | (st & _ & _ & _ & _ & E)]]];
          apply Hrec; rewrite E; repeat first [left | right]. }
      pose proof (MAKEFS_settles h er entry u' Hty Her) as HM.
      destruct Hcall as [M1 M2].
      unfold handed_over, closed. rewrite Ht', Ha'.
      change (Lstat ?a :: ?t) with ([Lstat a] ++ t).
      rewrite !materializations_app, !occ_app, M1, M2.
      destruct er as [e |].
      * right. destruct HM as [(C1 & C2 & C3) _]. rewrite C1, C2, C3. auto.
      * left. destruct HM as (C1 & C2 & C3). rewrite C1, C2, C3. auto.
  - right. destruct (ONERROR_quiet er u') as (H1 & H2 & _).
    apply closes_after; [assumption.. |].
    apply ONERROR_counts. destruct Her as [E | E]; apply Hrec; rewrite <- E;
      repeat first [left | right].
Qed.

Lemma parallel_entry_settles_witness :
  handed_over (CHECKFS2 posix (fs_with None) a_again) (unpack_at "/x")
  \/ closed (CHECKFS2 posix (fs_with None) a_again) (unpack_at "/x").
Proof.
  apply (parallel_entry_settles posix (fs_with None) a_again (unpack_at "/x")).
  - reflexivity.
  - intros er Hin. simpl in Hin.
    repeat (apply elem_of_cons in Hin as [Hin | Hin]; [discriminate Hin |]).
    inversion Hin.
Defined.

(** *** What is removed, and what is left alone *)

Lemma spares_elem tr e : spares tr -> e ∈ tr -> is_removal e = false.
Proof.
  unfold spares. rewrite forallb_forall. intros H Hin.
  apply negb_true_iff, H, list_elem_of_In, Hin.
Qed.

Lemma quiet_elem tr e :
  Forall (fun e => alters e = false) tr -> e ∈ tr -> alters e = false.
Proof. rewrite Forall_forall. auto. Qed.

Lemma quiet_spares tr : Forall (fun e => alters e = false) tr -> spares tr.
Proof.
  intros H. apply forallb_forall. intros e Hin%list_elem_of_In.
  apply (quiet_elem _ _ H) in Hin. destruct e; try discriminate; reflexivity.
Qed.

Lemma SKIP_quiet u :
  Forall (fun e => alters e = false) (trace (SKIP;; CHECKFS2_done) u).
Proof.
  unfold SKIP. norm_M. destruct (UNPEND_counts u) as (_ & _ & H & _).
  repeat (apply Forall_app; split); auto; repeat constructor.
Qed.

Lemma parallel_removes_only_entry_aux h fs entry u e :
  e ∈ trace (CHECKFS2 h fs entry) u -> is_removal e = true ->
  exists call er u',
    decided fs entry u' call er /\ e ∈ call.
Proof.
  destruct (CHECKFS2_cases h fs entry u) as (pre & u' & k & Hpre & Hu & Hk & -> & _).
  intros [Hin | Hin]%elem_of_app Hr.
  - apply setup_counts in Hpre as (_ & _ & Hq).
    apply (spares_elem _ _ (quiet_spares _ Hq)) in Hin. congruence.
  - destruct Hk as [-> | (er & _ & ->)].
    + destruct (afterMakeParent_cases h fs entry u')
        as [(st & _ & _ & Ht & _) | (call & er & Hd & _ & Ht & _)];
        rewrite Ht in Hin; apply elem_of_cons in Hin as [-> | Hin];
        try discriminate Hr.
      * apply (spares_elem _ _ (quiet_spares _ (SKIP_quiet u'))) in Hin.
        congruence.
      * apply elem_of_app in Hin as [Hin | Hin]; [eauto |].
        apply (spares_elem _ _ (spares_MAKEFS h er entry _ u' spares_done)) in Hin.
        congruence.
    + exfalso.
      assert (Hs : spares (trace (ONERROR er;; CHECKFS2_done) u')).
      { norm_M. apply spares_app; [apply spares_ONERROR | apply spares_done]. }
      apply (spares_elem _ _ Hs) in Hin. congruence.
Qed.

(** X14.  In the parallel profile, whatever the file system answers, a
    [rmdir] or [unlink] of the reconciler is on the entry's own absolute
    path, and that path is not [cwd]. *)
Theorem parallel_removes_only_entry h fs entry u p :
  Rmdir p ∈ trace (CHECKFS2 h fs entry) u
  \/ UnlinkFile p ∈ trace (CHECKFS2 h fs entry) u ->
  p = String_ (ReadEntry.absolute entry)
  /\ ReadEntry.absolute entry <> Some (cwd u).
Proof.
  destruct (CHECKFS2_cases h fs entry u) as (pre & u' & k & Hpre & Hu & Hk & -> & _).
  assert (Hcwd : cwd u' = cwd u) by (destruct Hu as [-> | ->]; reflexivity).
  assert (Hrem : forall e, e ∈ pre ++ trace k u' -> is_removal e = true ->
            exists call er,
              decided fs entry u' call er /\ e ∈ call).
  { intros e [Hin | Hin]%elem_of_app Hr.
    - apply setup_counts in Hpre as (_ & _ & Hq).
      apply (spares_elem _ _ (quiet_spares _ Hq)) in Hin. congruence.
    - destruct Hk as [-> | (er & _ & ->)].
      + destruct (afterMakeParent_cases h fs entry u')
          as [(st & _ & _ & Ht & _) | (call & er & Hd & _ & Ht & _)];
          rewrite Ht in Hin; apply elem_of_cons in Hin as [-> | Hin];
          try discriminate Hr.
        * apply (spares_elem _ _ (quiet_spares _ (SKIP_quiet u'))) in Hin.
          congruence.
        * apply elem_of_app in Hin as [Hin | Hin]; [eauto |].
          apply (spares_elem _ _ (spares_MAKEFS h er entry _ u' spares_done)) in Hin.
          congruence.
      + norm_M. exfalso.
        assert (Hs : spares (trace (ONERROR er;; CHECKFS2_done) u')).
        { norm_M. apply spares_app; [apply spares_ONERROR | apply spares_done]. }
        apply (spares_elem _ _ Hs) in Hin. congruence. }
  assert (Hown : forall e, e ∈ pre ++ trace k u' -> is_removal e = true ->
            (e = Rmdir (String_ (ReadEntry.absolute entry))
             \/ e = UnlinkFile (String_ (ReadEntry.absolute entry)))
            /\ is_cwd u' entry = false).
  { intros e Hin Hr. destruct (Hrem e Hin Hr) as (call & er & Hd & Hc).
    destruct Hd as [[-> _] | [(st & _ & _ & _ & -> & _)
                    | [(st & _ & _ & _ & Hc' & -> & _)
                      | (st & _ & _ & Hc' & -> & _)]]].
    - inversion Hc.
    - apply list_elem_of_singleton in Hc as ->. discriminate Hr.
    - apply list_elem_of_singleton in Hc as ->. auto.
    - apply list_elem_of_singleton in Hc as ->. auto. }
  intros Hin.
  assert (Hp : exists e, e ∈ pre ++ trace k u' /\ is_removal e = true
                         /\ (e = Rmdir p \/ e = UnlinkFile p)).
  { destruct Hin as [Hin | Hin]; eexists; (split; [exact Hin |]); auto. }
  destruct Hp as (e & He & Hr & Hep).
  destruct (Hown e He Hr) as [Habs Hc].
  split.
  - destruct Hep as [-> | ->], Habs as [E | E]; congruence.
  - unfold is_cwd in Hc. apply bool_decide_eq_false in Hc. congruence.
Qed.

Lemma parallel_removes_only_entry_witness :
  "/x/d" = String_ (ReadEntry.absolute
                      (ReadEntry.set_absolute (Some "/x/d")
                         (entry_of File "d" (Some 420))))
  /\ ReadEntry.absolute
       (ReadEntry.set_absolute (Some "/x/d") (entry_of File "d" (Some 420)))
     <> Some (cwd (unpack_at "/x")).
Proof.
  apply (parallel_removes_only_entry posix (fs_with (Some a_directory))
           (ReadEntry.set_absolute (Some "/x/d") (entry_of File "d" (Some 420)))
           (unpack_at "/x") "/x/d").
  left. vm_compute. do 3 right. left.
Defined.

(** X15.  In the parallel profile, when the [chmod], [rmdir] or [unlink]
    that the reconciler issues fails (not with a [CwdError]), the entry is
    not materialized and the error is reported as a [TAR_ENTRY_ERROR]
    warning. *)
Theorem parallel_failure_closes h fs entry u er :
  er_name er <> "CwdError" ->
  ((exists p m, Chmod p m ∈ trace (CHECKFS2 h fs entry) u)
   /\ on_chmod fs = Some er)
  \/ ((exists p, Rmdir p ∈ trace (CHECKFS2 h fs entry) u)
      /\ on_rmdir fs = Some er)
  \/ ((exists p, UnlinkFile p ∈ trace (CHECKFS2 h fs entry) u)
      /\ on_unlink fs = Some er) ->
  materializations (trace (CHECKFS2 h fs entry) u) = 0
  /\ Warn "TAR_ENTRY_ERROR" (er_message er) ∈ trace (CHECKFS2 h fs entry) u.
Proof.
  intros Hne.
  destruct (CHECKFS2_cases h fs entry u) as (pre & u' & k & Hpre & Hu & Hk & -> & _).
  pose proof (setup_counts pre Hpre) as (P1 & _ & Pq).
  intros Hcall.
  assert (Hin : exists e, e ∈ trace k u' /\ alters e = true
                  /\ ((exists p m, e = Chmod p m) /\ on_chmod fs = Some er
                      \/ (exists p, e = Rmdir p) /\ on_rmdir fs = Some er
                      \/ (exists p, e = UnlinkFile p) /\ on_unlink fs = Some er)).
  { destruct Hcall as [[(p & m & Hin) E] | [[(p & Hin) E] | [(p & Hin) E]]];
      apply elem_of_app in Hin as [Hin | Hin];
      try (apply (quiet_elem _ _ Pq) in Hin; discriminate Hin);
      eexists; (split; [exact Hin |]); (split; [reflexivity |]); eauto 6. }
  destruct Hin as (e & Hin & Ha & He).
  rewrite materializations_app, P1.
  destruct Hk as [-> | (er' & _ & ->)].
  2:{ exfalso. revert Hin. norm_M. intros [Hin | Hin]%elem_of_app.
      - destruct (ONERROR_quiet er' u') as (_ & _ & Hq).
        apply (quiet_elem _ _ Hq) in Hin. congruence.
      - apply elem_of_cons in Hin as [-> | Hin]; [discriminate Ha |].
        apply list_elem_of_singleton in Hin as ->. discriminate Ha. }
  destruct (afterMakeParent_cases h fs entry u')
    as [(st & _ & _ & Ht & _) | (call & er' & Hd & _ & Ht & _)];
    rewrite Ht in Hin |- *; apply elem_of_cons in Hin as [-> | Hin];
    try discriminate Ha.
  { apply (quiet_elem _ _ (SKIP_quiet u')) in Hin. congruence. }
  assert (Her : er' = Some er /\ materializations call = 0).
  { apply elem_of_app in Hin as [Hin | Hin].
    - destruct Hd as [[-> _] | [(st & _ & _ & _ & -> & ->)
                      | [(st & _ & _ & _ & _ & -> & ->)
                        | (st & _ & _ & _ & -> & ->)]]].
      + inversion Hin.
      + apply list_elem_of_singleton in Hin as ->.
        destruct He as [[_ E] | [[(p & [=]) _] | [(p & [=]) _]]]. auto.
      + apply list_elem_of_singleton in Hin as ->.
        destruct He as [[(p & m & [=]) _] | [[_ E] | [(p & [=]) _]]]. auto.
      + apply list_elem_of_singleton in Hin as ->.
        destruct He as [[(p & m & [=]) _] | [[(p & [=]) _] | [_ E]]]. auto.
    - exfalso. unfold MAKEFS in Hin. destruct er' as [e' |].
      + revert Hin. norm_M. intros [Hin | Hin]%elem_of_app.
        * destruct (ONERROR_quiet e' u') as (_ & _ & Hq).
          apply (quiet_elem _ _ Hq) in Hin. congruence.
        * apply elem_of_cons in Hin as [-> | Hin]; [discriminate Ha |].
          apply list_elem_of_singleton in Hin as ->. discriminate Ha.
      + revert Hin. norm_M.
        destruct (ReadEntry.type entry); simpl;
          intros Hin; try (inversion Hin; fail);
          apply list_elem_of_singleton in Hin as ->;
          destruct He as [[(p & m & [=]) _] | [[(p & [=]) _] | [(p & [=]) _]]]. }
  destruct Her as [-> Hc].
  change (Lstat ?a :: ?t) with ([Lstat a] ++ t).
  rewrite !materializations_app, Hc.
  unfold MAKEFS. norm_M.
  destruct (ONERROR_quiet er u') as (H1 & _ & _).
  destruct (ONERROR_counts er u' Hne) as (_ & H4).
  rewrite !materializations_app, H1. split; [reflexivity |].
  apply elem_of_app. right. apply elem_of_app. right.
  apply elem_of_app. right. apply elem_of_app. left. exact H4.
Qed.

Lemma parallel_failure_closes_witness :
  materializations
    (trace (CHECKFS2 posix (fs_rmdir_fails a_directory ENOTEMPTY) d_file)
       (unpack_at "/x"))
  = 0
  /\ Warn "TAR_ENTRY_ERROR" (er_message ENOTEMPTY)
     ∈ trace (CHECKFS2 posix (fs_rmdir_fails a_directory ENOTEMPTY) d_file)
         (unpack_at "/x").
Proof.
  apply (parallel_failure_closes posix (fs_rmdir_fails a_directory ENOTEMPTY)
           d_file (unpack_at "/x") ENOTEMPTY).
  - discriminate.
  - right. left. split; [| reflexivity].
    exists "/x/d". vm_compute. do 3 right. left.
Defined.

(** X16.  When [lstat] finds something and [keep] is set, or [newer] is
    set and what is there is newer than the entry, neither profile issues
    a [chmod], [rmdir], [unlink] or a materialization for the entry,
    whatever the other calls answer. *)
Theorem kept_target_is_left_alone h fs entry u st :
  on_lstat fs = Some st ->
  keep_existing u entry st = true ->
  Forall (fun e => alters e = false) (trace (CHECKFS2 h fs entry) u)
  /\ Forall (fun e => alters e = false) (trace (UnpackSync.CHECKFS h fs entry) u).
Proof.
  intros El Ek.
  assert (Hk : forall u', u' = u \/ u' = set_CHECKED_CWD true u ->
            keep_existing u' entry st = true).
  { intros u' [-> | ->]; exact Ek. }
  split.
  - destruct (CHECKFS2_cases h fs entry u) as (pre & u' & k & Hpre & Hu & Hk' & -> & _).
    apply Forall_app. split; [apply setup_counts, Hpre |].
    destruct Hk' as [-> | (er & _ & ->)].
    + destruct (afterMakeParent_cases h fs entry u')
        as [(st' & _ & _ & -> & _) | (call & er & _ & Hno & _)].
      * constructor; [reflexivity | apply SKIP_quiet].
      * specialize (Hk u' Hu). rewrite (Hno st El) in Hk. discriminate.
    + norm_M. apply Forall_app. split; [apply ONERROR_quiet | repeat constructor].
  - destruct (UnpackSync_CHECKFS_cases h fs entry u)
      as (pre & u' & k & Hpre & Hu & Hk' & -> & _).
    apply Forall_app. split; [apply setup_counts, Hpre |].
    destruct Hk' as [-> | (er & ->)]; [| apply ONERROR_quiet].
    unfold UnpackSync.reconcile. norm_M. rewrite El. cbv beta iota zeta.
    rewrite (Hk u' Hu). unfold SKIP. norm_M. destruct (UNPEND_counts u') as (_ & _ & H & _).
    repeat (apply Forall_app; split); auto; repeat constructor.
Qed.

Lemma kept_target_is_left_alone_witness :
  Forall (fun e => alters e = false)
    (trace (CHECKFS2 posix (fs_with (Some a_file)) a_again) (keeping_at "/x"))
  /\ Forall (fun e => alters e = false)
       (trace (UnpackSync.CHECKFS posix (fs_with (Some a_file)) a_again)
          (keeping_at "/x")).
Proof.
  apply (kept_target_is_left_alone posix (fs_with (Some a_file)) a_again
           (keeping_at "/x") a_file);
    reflexivity.
Defined.

(** X17.  A [Directory] entry that finds a directory at its path never
    removes it: in both profiles the reconciler issues no [rmdir] and no
    [unlink]. *)
Theorem directory_entry_keeps_directory h fs entry u st :
  on_lstat fs = Some st ->
  isDirectory st = true ->
  ReadEntry.type entry = Directory ->
  spares (trace (CHECKFS2 h fs entry) u)
  /\ spares (trace (UnpackSync.CHECKFS h fs entry) u).
Proof.
  intros El Ed Ety. split.
  - apply forallb_forall. intros e Hin%list_elem_of_In.
    destruct e; try reflexivity; exfalso.
    + destruct (parallel_removes_only_entry_aux h fs entry u (Rmdir p) Hin eq_refl)
        as (call & er & u' & Hd & Hc).
      destruct Hd as [[-> _] | [(st' & _ & _ & _ & -> & _)
                      | [(st' & _ & _ & Hne & _)
                        | (st' & El' & Hne & _ & -> & _)]]].
      * inversion Hc.
      * apply list_elem_of_singleton in Hc. discriminate Hc.
      * contradiction.
      * apply list_elem_of_singleton in Hc. discriminate Hc.
    + destruct (parallel_removes_only_entry_aux h fs entry u (UnlinkFile p) Hin eq_refl)
        as (call & er & u' & Hd & Hc).
      destruct Hd as [[-> _] | [(st' & _ & _ & _ & -> & _)
                      | [(st' & _ & _ & Hne & _)
                        | (st' & El' & Hne & _ & -> & _)]]].
      * inversion Hc.
      * apply list_elem_of_singleton in Hc. discriminate Hc.
      * contradiction.
      * rewrite El in El'. injection El' as <-. apply (Hne Ed Ety).
  - destruct (UnpackSync_CHECKFS_cases h fs entry u)
      as (pre & u' & k & Hpre & Hu & Hk' & -> & _).
    apply spares_app; [apply quiet_spares, setup_counts, Hpre |].
    destruct Hk' as [-> | (er & ->)]; [| apply spares_ONERROR].
    unfold UnpackSync.reconcile. norm_M. rewrite El. cbv beta iota zeta.
    rewrite Ed, bool_decide_true by exact Ety.
    apply spares_app; [reflexivity |].
    assert (HM : forall er u2, spares (trace (UnpackSync.MAKEFS h er entry) u2)).
    { intros er u2. apply spares_MAKEFS. reflexivity. }
    destruct (keep_existing u' entry st).
    { unfold SKIP. norm_M. apply spares_app; [apply spares_UNPEND | reflexivity]. }
    destruct (ISREUSABLE h u' entry st); [apply HM |].
    destruct (needChmod u' entry st); [| apply HM].
    norm_M. apply spares_app; [reflexivity | apply HM].
Qed.

Lemma directory_entry_keeps_directory_witness :
  spares (trace (CHECKFS2 posix (fs_with (Some a_directory))
                   (ReadEntry.set_absolute (Some "/x/d")
                      (entry_of Directory "d" (Some 448))))
            (unpack_at "/x"))
  /\ spares (trace (UnpackSync.CHECKFS posix (fs_with (Some a_directory))
                      (ReadEntry.set_absolute (Some "/x/d")
                         (entry_of Directory "d" (Some 448))))
               (unpack_at "/x")).
Proof.
  apply (directory_entry_keeps_directory posix (fs_with (Some a_directory))
           (ReadEntry.set_absolute (Some "/x/d")
              (entry_of Directory "d" (Some 448)))
           (unpack_at "/x") a_directory);
    reflexivity.
Defined.

Lemma profiles_agree_witness :
  fs_actions (trace (UnpackSync.CHECKFS posix (fs_with (Some a_file)) a_again)
                (unpack_at "/x"))
  = fs_actions (trace (CHECKFS2 posix (fs_with (Some a_file)) a_again)
                  (unpack_at "/x")).
Proof.
  apply (profiles_agree posix (fs_with (Some a_file)) a_again (unpack_at "/x")).
  reflexivity.
Defined.

End ReconcilerMore.

(** ** The constructor *)

Section Constructor.

(** The sample instance is what the constructor makes of no options. *)
Lemma new_Unpack_default :
  new_Unpack posix user_process Options.none = inr (unpack_at "/x").
Proof. vm_compute. reflexivity. Qed.

(** X19.  The constructor throws exactly when one of [uid] and [gid] is
    a number and the other is not, or when both are and [preserveOwner] is
    true; an instance it returns has both ids or neither, and does not
    preserve owners when it has them. *)
Theorem new_Unpack_owner h process opt :
  ((exists e, new_Unpack h process opt = inl e) <->
   is_number (Options.uid opt) <> is_number (Options.gid opt)
   \/ (is_number (Options.uid opt) = true
       /\ Options.preserveOwner opt = Some true))
  /\ (forall u,
        new_Unpack h process opt = inr u ->
        Unpack.uid u = Options.uid opt
        /\ Unpack.gid u = Options.gid opt
        /\ is_number (Unpack.uid u) = is_number (Unpack.gid u)
        /\ (is_number (Unpack.uid u) = true -> Unpack.preserveOwner u = false)).
Proof.
  unfold new_Unpack.
  destruct (Options.uid opt) as [a |], (Options.gid opt) as [b |];
    destruct (Options.preserveOwner opt) as [[|] |]; simpl; split;
    try (split; [intros _; auto; try (left; discriminate)
                | intros _; eexists; reflexivity]);
    try (split; [intros [e [=]] | intros [H | [H1 H2]]; congruence]);
    try (intros u [= <-]; simpl; repeat split; auto; discriminate);
    try (intros u [=]).
Qed.

(** X20.  An instance made without [uid], [gid] and [forceChown], with
    [preserveOwner] false, or undefined for a process that is not root,
    changes the owner of no entry: [DOCHOWN] is false for all of them. *)
Theorem ordinary_user_never_chowns h process opt u :
  new_Unpack h process opt = inr u ->
  Options.uid opt = None ->
  Options.gid opt = None ->
  Options.forceChown opt <> Some true ->
  Options.preserveOwner opt = Some false
  \/ (Options.preserveOwner opt = None /\ getuid process <> Some 0) ->
  forall entry, Unpack.DOCHOWN u entry = false.
Proof.
  unfold new_Unpack. intros H Hu Hg Hf Hp entry.
  rewrite Hu, Hg in H. simpl in H. injection H as <-.
  unfold Unpack.DOCHOWN. simpl.
  rewrite bool_decide_false by exact Hf. simpl.
  assert (E : match Options.preserveOwner opt with
              | Some _ => truthy_bool (Options.preserveOwner opt)
              | None => bool_decide (getuid process = Some 0)
              end = false).
  { destruct Hp as [-> | [-> Hr]]; [reflexivity |].
    apply bool_decide_false, Hr. }
  rewrite E. reflexivity.
Qed.

Lemma ordinary_user_never_chowns_witness :
  Unpack.DOCHOWN (unpack_at "/x") far_owner = false.
Proof.
  apply (ordinary_user_never_chowns posix user_process Options.none).
  - vm_compute. reflexivity.
  - reflexivity.
  - reflexivity.
  - discriminate.
  - right. split; [reflexivity | discriminate].
Defined.

(** X21.  With [uid] and [gid] options in the unsigned 32-bit range, the
    ids applied to every entry are the configured ones, and an entry is
    chowned exactly when [forceChown] is true or one of the ids differs
    from the process's own. *)
Theorem configured_owner_is_applied h process opt u a b :
  new_Unpack h process opt = inr u ->
  Options.uid opt = Some a -> Options.gid opt = Some b ->
  0 <= a < 2 ^ 32 -> 0 <= b < 2 ^ 32 ->
  forall entry,
    Unpack.UID u entry = Some a
    /\ Unpack.GID u entry = Some b
    /\ Unpack.DOCHOWN u entry
       = bool_decide (Options.forceChown opt = Some true)
         || negb (bool_decide (getuid process = Some a))
         || negb (bool_decide (getgid process = Some b)).
Proof.
  unfold new_Unpack. intros H Hu Hg Ha Hb entry.
  rewrite Hu, Hg in H.
  assert (Ea : (0 <=? a) && (a <? 2 ^ 32) = true)
    by (apply andb_true_iff; split; [apply Z.leb_le | apply Z.ltb_lt]; lia).
  assert (Eb : (0 <=? b) && (b <? 2 ^ 32) = true)
    by (apply andb_true_iff; split; [apply Z.leb_le | apply Z.ltb_lt]; lia).
  assert (Hd : forall (x : option Z) (y : Z),
            negb (bool_decide (Some y = x)) = negb (bool_decide (x = Some y))).
  { intros x y. f_equal. apply bool_decide_ext. split; congruence. }
  destruct (Options.preserveOwner opt) as [[|] |]; simpl in H;
    [discriminate | |]; injection H as <-;
    unfold Unpack.UID, Unpack.GID, Unpack.DOCHOWN;
    cbn [Unpack.uid Unpack.gid Unpack.processUid Unpack.processGid
         Unpack.preserveOwner Unpack.forceChown truthy_bool default andb orb];
    rewrite !uint32_first_valid; unfold first_valid, is_uint32;
    rewrite Ea, Eb, orb_false_r; unfold Unpack.number_differs;
    rewrite !Hd; auto.
Qed.

Lemma configured_owner_is_applied_witness :
  Unpack.UID (unpack_at_as "/x" 33) far_owner = Some 33
  /\ Unpack.GID (unpack_at_as "/x" 33) far_owner = Some 33
  /\ Unpack.DOCHOWN (unpack_at_as "/x" 33) far_owner
     = bool_decide (Options.forceChown owner_options = Some true)
       || negb (bool_decide (getuid user_process = Some 33))
       || negb (bool_decide (getgid user_process = Some 33)).
Proof.
  apply (configured_owner_is_applied posix user_process owner_options
           (unpack_at_as "/x" 33) 33 33).
  - vm_compute. reflexivity.
  - reflexivity.
  - reflexivity.
  - lia.
  - lia.
Defined.

(** *** Default modes and the umask *)

Lemma ToInt32_small x : 0 <= x < 2 ^ 31 -> JS.ToInt32 x = x.
Proof.
  intros Hx. unfold JS.ToInt32. cbv zeta.
  rewrite Z.mod_small by lia.
  destruct (Z.ltb_spec x (2 ^ 31)); [reflexivity | lia].
Qed.

Lemma low_bits x n :
  0 <= n -> (forall i, n <= i -> Z.testbit x i = false) -> 0 <= x < 2 ^ n.
Proof.
  intros Hn H.
  assert (E : x = x mod 2 ^ n).
  { apply Z.bits_inj'. intros i Hi. destruct (Z.ltb_spec i n).
    - rewrite Z.mod_pow2_bits_low by lia. reflexivity.
    - rewrite Z.mod_pow2_bits_high by lia. apply H. lia. }
  rewrite E. apply Z.mod_pos_bound. lia.
Qed.

Lemma high_bits c n i :
  0 <= n -> 0 <= c < 2 ^ n -> n <= i -> Z.testbit c i = false.
Proof.
  intros Hn Hc Hi. rewrite <- (Z.mod_small c (2 ^ n)) by lia.
  apply Z.mod_pow2_bits_high. lia.
Qed.

Lemma bitand_bitnot c m :
  0 <= c < 2 ^ 31 -> JS.bitand c (bitnot m) = Z.land c (Z.lnot m).
Proof.
  intros Hc. unfold JS.bitand, bitnot. rewrite (ToInt32_small c Hc).
  set (y := JS.ToInt32 (Z.lnot (JS.ToInt32 m))).
  rewrite ToInt32_small.
  - apply Z.bits_inj'. intros i Hi. rewrite !Z.land_spec.
    destruct (Z.ltb_spec i 32).
    + unfold y. rewrite ToInt32_testbit, !Z.lnot_spec, ToInt32_testbit by lia.
      reflexivity.
    + rewrite (high_bits c 31 i) by lia. reflexivity.
  - apply low_bits; [lia |]. intros i Hi.
    rewrite Z.land_spec, (high_bits c 31 i) by lia. reflexivity.
Qed.

(** X22.  When [dmode] (respectively [fmode]) is not given, or is 0, the
    mode is [0o777 & ~umask] ([0o666 & ~umask]), which as an integer is
    the bitwise and with the complement of the umask; it has no bit of the
    umask.  The umask is the [umask] option, else the process's, else 0
    under [noChmod]. *)
Theorem default_modes_respect_umask h process opt u :
  new_Unpack h process opt = inr u ->
  let umask :=
    default (if truthy_bool (Options.noChmod opt) then 0
             else process_umask process)
      (Options.umask opt) in
  (or_number (Options.dmode opt) 0 = 0 ->
   Unpack.dmode u = Z.land 511 (Z.lnot umask)
   /\ Z.land (Unpack.dmode u) umask = 0)
  /\ (or_number (Options.fmode opt) 0 = 0 ->
      Unpack.fmode u = Z.land 438 (Z.lnot umask)
      /\ Z.land (Unpack.fmode u) umask = 0).
Proof.
  intros H umask.
  assert (Hmask : forall c, Z.land (Z.land c (Z.lnot umask)) umask = 0).
  { intros c. apply Z.bits_inj'. intros i Hi.
    rewrite !Z.land_spec, Z.lnot_spec, Z.bits_0 by lia.
    destruct (Z.testbit umask i), (Z.testbit c i); reflexivity. }
  assert (Hor : forall x y, or_number x 0 = 0 -> or_number x y = y).
  { intros [v |] y; simpl; [| reflexivity].
    destruct (Z.eqb_spec v 0); [reflexivity | intros; contradiction]. }
  unfold new_Unpack in H.
  destruct (if is_number (Options.uid opt) || _ then _ else _)
    as [e | [[ui gi] so]]; [discriminate |].
  injection H as <-. cbn [Unpack.dmode Unpack.fmode]. fold umask.
  split; intros H0; rewrite (Hor _ _ H0), bitand_bitnot by lia;
    (split; [reflexivity | apply Hmask]).
Qed.

Lemma default_modes_respect_umask_witness :
  (or_number (Options.dmode Options.none) 0 = 0 ->
   Unpack.dmode (unpack_at "/x") = Z.land 511 (Z.lnot 18)
   /\ Z.land (Unpack.dmode (unpack_at "/x")) 18 = 0)
  /\ (or_number (Options.fmode Options.none) 0 = 0 ->
      Unpack.fmode (unpack_at "/x") = Z.land 438 (Z.lnot 18)
      /\ Z.land (Unpack.fmode (unpack_at "/x")) 18 = 0).
Proof.
  apply (default_modes_respect_umask posix user_process Options.none
           (unpack_at "/x")).
  vm_compute. reflexivity.
Defined.

End Constructor.

(** ** The directory cache *)

Section Cache.

Lemma lookup_pruneCache h cache abs k :
  pruneCache h cache abs !! k
  = if at_or_under (cacheKeyNormalize h abs) (cacheKeyNormalize h k)
    then None else cache !! k.
Proof.
  unfold pruneCache. cbv zeta.
  destruct (at_or_under _ (cacheKeyNormalize h k)) eqn:E.
  - apply map_lookup_filter_None. right. intros v _. simpl. congruence.
  - destruct (cache !! k) as [v |] eqn:Ek.
    + apply map_lookup_filter_Some. split; [exact Ek | exact E].
    + apply map_lookup_filter_None. left. exact Ek.
Qed.

Lemma lookup_dropCache cache k : dropCache cache !! k = None.
Proof.
  unfold dropCache. apply map_lookup_filter_None. right. intros v _ [].
Qed.

(** X23.  Before an entry is put in place, a [SymbolicLink] entry
    empties the directory cache; an entry of another type than
    [Directory] removes every key whose normalized form (Unicode form,
    separators, trailing slashes, lower case) is the normalized absolute
    path of the entry or lies under it, and leaves every other key as it
    was; a [Directory] entry leaves the cache as it is.  Pruning a second
    time changes nothing. *)
Theorem PRUNECACHE_forgets h entry dirCache :
  let abs := cacheKeyNormalize h (String_ (ReadEntry.absolute entry)) in
  let hit k :=
    cacheKeyNormalize h k = abs
    \/ JS.starts_with (abs +:+ "/") (cacheKeyNormalize h k) = true in
  (ReadEntry.type entry = SymbolicLink ->
   forall k, PRUNECACHE h entry dirCache !! k = None)
  /\ (ReadEntry.type entry <> Directory ->
      forall k, hit k -> PRUNECACHE h entry dirCache !! k = None)
  /\ (ReadEntry.type entry <> SymbolicLink ->
      forall k, ~ hit k -> PRUNECACHE h entry dirCache !! k = dirCache !! k)
  /\ (ReadEntry.type entry = Directory -> PRUNECACHE h entry dirCache = dirCache)
  /\ PRUNECACHE h entry (PRUNECACHE h entry dirCache)
     = PRUNECACHE h entry dirCache.
Proof.
  cbv zeta. unfold PRUNECACHE.
  destruct (decide (ReadEntry.type entry = SymbolicLink)) as [Hs | Hs].
  { repeat split.
    - intros _ k. apply lookup_dropCache.
    - intros _ k _. apply lookup_dropCache.
    - intros Hn. contradiction.
    - intros Hd. congruence.
    - apply map_eq. intros k. rewrite !lookup_dropCache. reflexivity. }
  destruct (decide (ReadEntry.type entry <> Directory)) as [Hd | Hd].
  2:{ repeat split; try reflexivity; intros; contradiction. }
  repeat split.
  - intros Hn. contradiction.
  - intros _ k Hk. rewrite lookup_pruneCache. unfold at_or_under.
    destruct Hk as [-> | ->]; [rewrite String.eqb_refl | rewrite orb_true_r];
      reflexivity.
  - intros _ k Hk. rewrite lookup_pruneCache. unfold at_or_under.
    destruct (String.eqb _ _) eqn:E1.
    + apply String.eqb_eq in E1. destruct Hk. left. exact E1.
    + destruct (JS.starts_with _ _) eqn:E2; [| reflexivity].
      destruct Hk. right. reflexivity.
  - intros Hn. contradiction.
  - apply map_eq. intros k. rewrite !lookup_pruneCache.
    destruct (at_or_under _ _); reflexivity.
Qed.

End Cache.

Section MaterializersFacts.
Import Unpack Materializers.

Lemma calls_bind {A B} (m : K A) (k : A -> K B) u :
  calls (m ≫= k) u = calls m u ++ calls (k (m u).1.1) (leaves m u).
Proof.
  unfold calls, leaves, mbind, K_bind.
  destruct (m u) as [[a u1] tr1]. simpl.
  destruct (k a u1) as [[b u2] tr2]. reflexivity.
Qed.

Lemma leaves_bind {A B} (m : K A) (k : A -> K B) u :
  leaves (m ≫= k) u = leaves (k (m u).1.1) (leaves m u).
Proof.
  unfold leaves, mbind, K_bind.
  destruct (m u) as [[a u1] tr1]. simpl.
  destruct (k a u1) as [[b u2] tr2]. reflexivity.
Qed.

Lemma result_bind {A B} (m : K A) (k : A -> K B) u :
  ((m ≫= k) u).1.1 = (k (m u).1.1 (leaves m u)).1.1.
Proof.
  unfold leaves, mbind, K_bind.
  destruct (m u) as [[a u1] tr1]. simpl.
  destruct (k a u1) as [[b u2] tr2]. reflexivity.
Qed.

Lemma UNPEND_leaves u : PENDING (after UNPEND u) = PENDING u - 1.
Proof. destruct (UNPEND_spec u) as [-> _]. reflexivity. Qed.

Lemma ONERROR_leaves er u :
  er_name er <> "CwdError" -> PENDING (after (ONERROR er) u) = PENDING u - 1.
Proof.
  intros Hne. unfold ONERROR. apply String.eqb_neq in Hne. rewrite Hne.
  autorewrite with unpack. apply UNPEND_leaves.
Qed.

Lemma completions_app tr1 tr2 :
  completions (tr1 ++ tr2) = (completions tr1 + completions tr2)%nat.
Proof. unfold completions. rewrite List.filter_app, length_app. reflexivity. Qed.

Lemma completions_Did tr : completions (Did <$> tr) = 0%nat.
Proof. induction tr as [| e tr IH]; [reflexivity | exact IH]. Qed.

Lemma completions_cons c tr :
  completions (c :: tr) = ((if is_done c then 1 else 0) + completions tr)%nat.
Proof. unfold completions. simpl. destruct (is_done c); reflexivity. Qed.

Ltac count_completions :=
  rewrite ?completions_cons, ?completions_app, ?completions_Did;
  cbn [is_done completions List.filter length Nat.add].

(** Closed comparisons are evaluated. *)
Ltac count_actions :=
  repeat match goal with
         | |- context [Z.eqb ?a ?b] =>
             let v := eval vm_compute in (Z.eqb a b) in
             lazymatch v with
             | true => change (Z.eqb a b) with true
             | false => change (Z.eqb a b) with false
             end
         end.

Ltac unfold_materializer :=
  cbv beta iota zeta delta
    [DIRECTORY_run DIRECTORY DIRECTORY_done LINK SYMLINK HARDLINK FILE_run
     FILE_finish FILE_done FILE_after_futimes FILE_after_fchown
     MaterializersSync.DIRECTORY MaterializersSync.LINK
     MaterializersSync.FILE_oner MaterializersSync.FILE_end fire calls
     leaves mbind K_bind self call mret K_ret lift act reverse rev_append
     app fst snd].

Ltac run_materializer :=
  unfold_materializer; repeat (progress count_actions; unfold_materializer).

Ltac tidy_calls :=
  fold (@app Call); cbn [app]; rewrite ?app_nil_r, <- ?app_assoc; cbn [app].

Lemma materializable_at o x er :
  materializable o -> x = Some er ->
  x ∈ [on_mkdir o; on_utimes o; on_chown o; on_futimes o; on_fchown o;
       on_close o; on_link o] ->
  er_name er <> "CwdError".
Proof. intros Hm -> Hin. apply Hm, Hin. Qed.

(** *** Directories *)

Lemma DIRECTORY_run_made h o entry u :
  on_mkdir o = None ->
  (DOCHOWN u entry = true ->
   is_Some (UID u entry) /\ is_Some (GID u entry)) ->
  let abs := String_ (ReadEntry.absolute entry) in
  calls (DIRECTORY_run h o entry) u
  = FsMkdir (normalizeWindowsPath h abs) (directory_mode u entry)
    :: match sets_times u entry with
       | Some mtime => [FsUtimes abs (atime_of o entry) mtime]
       | None => []
       end
    ++ (if DOCHOWN u entry then [FsChown abs (UID u entry) (GID u entry)]
        else [])
    ++ Done :: (Did <$> trace UNPEND u) ++ [Did Resume]
  /\ leaves (DIRECTORY_run h o entry) u = after UNPEND u.
Proof.
  intros Em Hids abs. unfold trace, after.
  run_materializer. rewrite Em.
  destruct (sets_times u entry) as [mtime |], (DOCHOWN u entry);
    try (destruct (Hids eq_refl) as [[uid Eu] [gid Eg]]; rewrite Eu, Eg);
    run_materializer; destruct (UNPEND u) as [[x1 u1] tr1]; tidy_calls;
    split; reflexivity.
Qed.

Lemma DIRECTORY_run_thrown h o entry u :
  on_mkdir o = None ->
  DOCHOWN u entry = true ->
  UID u entry = None \/ GID u entry = None ->
  let abs := String_ (ReadEntry.absolute entry) in
  calls (DIRECTORY_run h o entry) u
  = FsMkdir (normalizeWindowsPath h abs) (directory_mode u entry)
    :: match sets_times u entry with
       | Some mtime => [FsUtimes abs (atime_of o entry) mtime]
       | None => []
       end
    ++ [FsChownThrows abs (UID u entry) (GID u entry)]
  /\ leaves (DIRECTORY_run h o entry) u = u.
Proof.
  intros Em Ed Hno abs.
  run_materializer. rewrite Em, Ed.
  destruct (sets_times u entry) as [mtime |],
    (UID u entry) as [uid |] eqn:Eu, (GID u entry) as [gid |] eqn:Eg;
    try (destruct Hno; discriminate);
    run_materializer; tidy_calls; split; reflexivity.
Qed.

Lemma DIRECTORY_run_failed h o entry u er :
  on_mkdir o = Some er ->
  calls (DIRECTORY_run h o entry) u
  = FsMkdir (normalizeWindowsPath h (String_ (ReadEntry.absolute entry)))
      (directory_mode u entry)
    :: (Did <$> trace (ONERROR er) u) ++ [Done]
  /\ leaves (DIRECTORY_run h o entry) u = after (ONERROR er) u.
Proof.
  intros Em. unfold trace, after. run_materializer. rewrite Em.
  run_materializer. destruct (ONERROR er u) as [[x1 u1] tr1]. tidy_calls.
  split; reflexivity.
Qed.

(** X24.  In the parallel profile, when the [UID] and [GID] of the entry
    are numbers whenever [DOCHOWN] holds, [DIRECTORY] calls its completion
    callback exactly once and lowers [PENDING] by exactly one, provided no
    call fails with a [CwdError].  When [mkdir] succeeds the outcomes of
    [utimes] and [chown] are ignored: the calls are [mkdir], [utimes] if
    the entry has an [mtime] and [noMtime] is unset, [chown] if [DOCHOWN]
    holds, then the completion, [UNPEND] and the resumption of the
    entry. *)
Theorem DIRECTORY_completes_once h o entry u :
  materializable o ->
  (DOCHOWN u entry = true ->
   is_Some (UID u entry) /\ is_Some (GID u entry)) ->
  completions (calls (DIRECTORY_run h o entry) u) = 1%nat
  /\ PENDING (leaves (DIRECTORY_run h o entry) u) = PENDING u - 1
  /\ (on_mkdir o = None ->
      let abs := String_ (ReadEntry.absolute entry) in
      calls (DIRECTORY_run h o entry) u
      = FsMkdir (normalizeWindowsPath h abs) (directory_mode u entry)
        :: match sets_times u entry with
           | Some mtime => [FsUtimes abs (atime_of o entry) mtime]
           | None => []
           end
        ++ (if DOCHOWN u entry then [FsChown abs (UID u entry) (GID u entry)]
            else [])
        ++ Done :: (Did <$> trace UNPEND u) ++ [Did Resume]).
Proof.
  intros Hm Hids. destruct (on_mkdir o) as [er |] eqn:Em.
  - destruct (DIRECTORY_run_failed h o entry u er Em) as [-> ->].
    split; [count_completions; reflexivity |].
    split; [| discriminate].
    apply ONERROR_leaves. eapply materializable_at; [exact Hm | exact Em |].
    repeat first [left | right].
  - destruct (DIRECTORY_run_made h o entry u Em Hids) as [Hc ->].
    split; [| split; [apply UNPEND_leaves | intros _; exact Hc]].
    rewrite Hc.
    destruct (sets_times u entry), (DOCHOWN u entry); cbn [app];
      count_completions; reflexivity.
Qed.

Lemma DIRECTORY_completes_once_witness :
  completions (calls (DIRECTORY_run posix all_refused dated_file) (forcing_at "/x"))
  = 1%nat
  /\ PENDING (leaves (DIRECTORY_run posix all_refused dated_file) (forcing_at "/x"))
     = PENDING (forcing_at "/x") - 1
  /\ (on_mkdir all_refused = None ->
      let abs := String_ (ReadEntry.absolute dated_file) in
      calls (DIRECTORY_run posix all_refused dated_file) (forcing_at "/x")
      = FsMkdir (normalizeWindowsPath posix abs)
          (directory_mode (forcing_at "/x") dated_file)
        :: match sets_times (forcing_at "/x") dated_file with
           | Some mtime => [FsUtimes abs (atime_of all_refused dated_file) mtime]
           | None => []
           end
        ++ (if DOCHOWN (forcing_at "/x") dated_file
            then [FsChown abs (UID (forcing_at "/x") dated_file)
                    (GID (forcing_at "/x") dated_file)]
            else [])
        ++ Done :: (Did <$> trace UNPEND (forcing_at "/x")) ++ [Did Resume]).
Proof.
  apply (DIRECTORY_completes_once posix all_refused dated_file (forcing_at "/x")).
  - intros er Hin. simpl in Hin.
    repeat (apply elem_of_cons in Hin as [Hin | Hin];
            [first [discriminate Hin | injection Hin as ->; discriminate] |]).
    inversion Hin.
  - intros _. split; eexists; reflexivity.
Defined.

(** X30.  In the parallel profile, when [mkdir] succeeds and [DOCHOWN]
    holds for an entry whose [UID] or [GID] is not a number, [DIRECTORY]
    calls [fs.chown] with [NaN]; with [fs.chown] refusing such an id by
    an exception, this call is the last thing [DIRECTORY] does: the
    completion callback is never called and the instance, [PENDING]
    included, stays as it was. *)
Theorem DIRECTORY_without_ids_throws h o entry u :
  on_mkdir o = None ->
  DOCHOWN u entry = true ->
  UID u entry = None \/ GID u entry = None ->
  completions (calls (DIRECTORY_run h o entry) u) = 0%nat
  /\ leaves (DIRECTORY_run h o entry) u = u
  /\ last (calls (DIRECTORY_run h o entry) u)
     = Some (FsChownThrows (String_ (ReadEntry.absolute entry))
               (UID u entry) (GID u entry)).
Proof.
  intros Em Ed Hno.
  destruct (DIRECTORY_run_thrown h o entry u Em Ed Hno) as [-> ->].
  destruct (sets_times u entry); cbn [app];
    (split; [count_completions; reflexivity |]); split; reflexivity.
Qed.

Lemma DIRECTORY_without_ids_throws_witness :
  completions (calls (DIRECTORY_run posix all_well ownerless_dir) (forcing_at "/x"))
  = 0%nat
  /\ leaves (DIRECTORY_run posix all_well ownerless_dir) (forcing_at "/x")
     = forcing_at "/x"
  /\ last (calls (DIRECTORY_run posix all_well ownerless_dir) (forcing_at "/x"))
     = Some (FsChownThrows (String_ (ReadEntry.absolute ownerless_dir))
               (UID (forcing_at "/x") ownerless_dir)
               (GID (forcing_at "/x") ownerless_dir)).
Proof.
  apply (DIRECTORY_without_ids_throws posix all_well ownerless_dir (forcing_at "/x")).
  - reflexivity.
  - reflexivity.
  - left. reflexivity.
Defined.

(** X25.  In the parallel profile [SYMLINK] links [entry.linkpath] as it
    is given and [HARDLINK] links it resolved against [cwd]; each makes
    that one call, then reports its error, or unpends and resumes the
    entry, and then calls the completion callback, once.  [PENDING] is
    lowered by exactly one, provided the call does not fail with a
    [CwdError]. *)
Theorem LINK_completes_once h o entry u :
  materializable o ->
  (calls (SYMLINK o entry) u
   = FsLink "symlink" (String_ (ReadEntry.linkpath entry))
       (String_ (ReadEntry.absolute entry))
     :: match on_link o with
        | Some er => Did <$> trace (ONERROR er) u
        | None => (Did <$> trace UNPEND u) ++ [Did Resume]
        end
     ++ [Done]
   /\ PENDING (leaves (SYMLINK o entry) u) = PENDING u - 1)
  /\ (calls (HARDLINK h o entry) u
      = FsLink "link"
          (normalizeWindowsPath h
             (path_resolve h [cwd u; String_ (ReadEntry.linkpath entry)]))
          (String_ (ReadEntry.absolute entry))
        :: match on_link o with
           | Some er => Did <$> trace (ONERROR er) u
           | None => (Did <$> trace UNPEND u) ++ [Did Resume]
           end
        ++ [Done]
      /\ PENDING (leaves (HARDLINK h o entry) u) = PENDING u - 1).
Proof.
  intros Hm.
  pose proof (UNPEND_leaves u) as HU.
  assert (HE : forall er, on_link o = Some er ->
            PENDING (after (ONERROR er) u) = PENDING u - 1).
  { intros er E. apply ONERROR_leaves.
    eapply materializable_at; [exact Hm | exact E |]. repeat first [left | right]. }
  unfold trace, after in *. split; run_materializer.
  - destruct (on_link o) as [er |].
    + specialize (HE er eq_refl). destruct (ONERROR er u) as [[x1 u1] tr1].
      tidy_calls. split; [reflexivity | exact HE].
    + destruct (UNPEND u) as [[x1 u1] tr1]. tidy_calls.
      split; [reflexivity | exact HU].
  - destruct (on_link o) as [er |].
    + specialize (HE er eq_refl). destruct (ONERROR er u) as [[x1 u1] tr1].
      tidy_calls. split; [reflexivity | exact HE].
    + destruct (UNPEND u) as [[x1 u1] tr1]. tidy_calls.
      split; [reflexivity | exact HU].
Qed.

Lemma LINK_completes_once_witness :
  (calls (SYMLINK all_refused a_link) (forcing_at "/x")
   = FsLink "symlink" (String_ (ReadEntry.linkpath a_link))
       (String_ (ReadEntry.absolute a_link))
     :: match on_link all_refused with
        | Some er => Did <$> trace (ONERROR er) (forcing_at "/x")
        | None => (Did <$> trace UNPEND (forcing_at "/x")) ++ [Did Resume]
        end
     ++ [Done]
   /\ PENDING (leaves (SYMLINK all_refused a_link) (forcing_at "/x"))
      = PENDING (forcing_at "/x") - 1)
  /\ (calls (HARDLINK posix all_refused a_link) (forcing_at "/x")
      = FsLink "link"
          (normalizeWindowsPath posix
             (path_resolve posix
                [cwd (forcing_at "/x"); String_ (ReadEntry.linkpath a_link)]))
          (String_ (ReadEntry.absolute a_link))
        :: match on_link all_refused with
           | Some er => Did <$> trace (ONERROR er) (forcing_at "/x")
           | None => (Did <$> trace UNPEND (forcing_at "/x")) ++ [Did Resume]
           end
        ++ [Done]
      /\ PENDING (leaves (HARDLINK posix all_refused a_link) (forcing_at "/x"))
         = PENDING (forcing_at "/x") - 1).
Proof.
  apply (LINK_completes_once posix all_refused a_link (forcing_at "/x")).
  intros er Hin. simpl in Hin.
  repeat (apply elem_of_cons in Hin as [Hin | Hin];
          [first [discriminate Hin | injection Hin as ->; discriminate] |]).
  inversion Hin.
Defined.

(** *** Files *)

Lemma comes_to_bind {A B} (m : K A) (k : A -> K B) u d1 p1 r1 d2 p2 r2 :
  comes_to m u d1 p1 r1 ->
  comes_to (k r1) (leaves m u) d2 p2 r2 ->
  comes_to (m ≫= k) u (d1 + d2) (p1 + p2) r2.
Proof.
  unfold comes_to. rewrite calls_bind, leaves_bind, result_bind.
  intros (H1 & H2 & ->) (H3 & H4 & H5).
  rewrite completions_app, H1, H3, H4, H2, H5. repeat split. lia.
Qed.

Lemma comes_to_ret {A B} (a : A) (k : A -> K B) u d p r :
  comes_to (k a) u d p r -> comes_to (mret a ≫= k) u d p r.
Proof.
  intros H. apply (comes_to_bind (mret a) k u 0 0 a d p r); [| exact H].
  split; [reflexivity | split; [change (PENDING u = PENDING u - 0); lia | reflexivity]].
Qed.

Lemma comes_to_self {B} (k : Unpack.t -> K B) u d p r :
  comes_to (k u) u d p r -> comes_to (self ≫= k) u d p r.
Proof.
  intros H. apply (comes_to_bind self k u 0 0 u d p r); [| exact H].
  split; [reflexivity | split; [change (PENDING u = PENDING u - 0); lia | reflexivity]].
Qed.

Lemma comes_to_call {B} c (k : unit -> K B) u d p r :
  is_done c = false ->
  comes_to (k tt) u d p r -> comes_to (call c ≫= k) u d p r.
Proof.
  intros Hc H. apply (comes_to_bind (call c) k u 0 0 tt d p r); [| exact H].
  unfold comes_to, calls, leaves, call. simpl.
  rewrite completions_cons, Hc. split; [reflexivity | split; [lia | reflexivity]].
Qed.

Lemma comes_to_end {A} (a : A) u : comes_to (mret a) u 0 0 a.
Proof. split; [reflexivity | split; [change (PENDING u = PENDING u - 0); lia | reflexivity]]. Qed.

Lemma FILE_done_failed o fd er actions u :
  er_name er <> "CwdError" ->
  comes_to (FILE_done o fd (Some er) actions) u 1 1 actions.
Proof.
  intros Hne. pose proof (ONERROR_leaves er u Hne) as HE.
  unfold comes_to, after in *.
  destruct fd as [n |]; [destruct (n =? 0) eqn:En |]; run_materializer;
    rewrite ?En; run_materializer;
    destruct (ONERROR er u) as [[x1 u1] tr1];
    tidy_calls; count_completions; repeat split; auto.
Qed.

Lemma FILE_done_waits o fd actions u :
  actions - 1 <> 0 ->
  comes_to (FILE_done o fd None actions) u 0 0 (actions - 1).
Proof.
  intros Hne. unfold comes_to. unfold_materializer.
  apply Z.eqb_neq in Hne. rewrite Hne.
  split; [reflexivity | split; [change (PENDING u = PENDING u - 0); lia | reflexivity]].
Qed.

Lemma FILE_done_closes o n u :
  materializable o ->
  comes_to (FILE_done o (Some n) None 1) u 1 1 0.
Proof.
  intros Hm. pose proof (UNPEND_leaves u) as HU.
  assert (HE : forall er, on_close o = Some er ->
            PENDING (after (ONERROR er) u) = PENDING u - 1).
  { intros er E. apply ONERROR_leaves.
    eapply materializable_at; [exact Hm | exact E |]. repeat first [left | right]. }
  unfold comes_to, after in *. run_materializer.
  destruct (on_close o) as [er |].
  - specialize (HE er eq_refl). destruct (ONERROR er u) as [[x1 u1] tr1].
    tidy_calls. count_completions. repeat split; auto.
  - destruct (UNPEND u) as [[x1 u1] tr1]. tidy_calls. count_completions.
    repeat split; auto.
Qed.

Lemma FILE_after_futimes_failed o entry fd atime mtime actions u :
  materializable o ->
  chain_fails (on_futimes o) (on_utimes o) = true ->
  comes_to (FILE_after_futimes o entry fd atime mtime actions) u 1 1 actions.
Proof.
  intros Hm Hf. unfold FILE_after_futimes.
  destruct (on_futimes o) as [er |] eqn:E1; [| discriminate].
  destruct (on_utimes o) as [er2 |] eqn:E2; [| discriminate].
  apply comes_to_call; [reflexivity |]. apply FILE_done_failed.
  eapply materializable_at; [exact Hm | exact E1 |]. repeat first [left | right].
Qed.

Lemma FILE_after_fchown_failed o entry fd uid gid actions u :
  materializable o ->
  chain_fails (on_fchown o) (on_chown o) = true ->
  comes_to (FILE_after_fchown o entry fd uid gid actions) u 1 1 actions.
Proof.
  intros Hm Hf. unfold FILE_after_fchown.
  destruct (on_fchown o) as [er |] eqn:E1; [| discriminate].
  destruct (on_chown o) as [er2 |] eqn:E2; [| discriminate].
  apply comes_to_call; [reflexivity |]. apply FILE_done_failed.
  eapply materializable_at; [exact Hm | exact E1 |]. repeat first [left | right].
Qed.

Lemma FILE_after_futimes_done o entry fd atime mtime actions u d p r :
  chain_fails (on_futimes o) (on_utimes o) = false ->
  comes_to (FILE_done o fd None actions) u d p r ->
  comes_to (FILE_after_futimes o entry fd atime mtime actions) u d p r.
Proof.
  intros Hf H. unfold FILE_after_futimes.
  destruct (on_futimes o) as [er |]; [| exact H].
  destruct (on_utimes o) as [er2 |]; [discriminate |].
  apply comes_to_call; [reflexivity | exact H].
Qed.

Lemma FILE_after_fchown_done o entry fd uid gid actions u d p r :
  chain_fails (on_fchown o) (on_chown o) = false ->
  comes_to (FILE_done o fd None actions) u d p r ->
  comes_to (FILE_after_fchown o entry fd uid gid actions) u d p r.
Proof.
  intros Hf H. unfold FILE_after_fchown.
  destruct (on_fchown o) as [er |]; [| exact H].
  destruct (on_chown o) as [er2 |]; [discriminate |].
  apply comes_to_call; [reflexivity | exact H].
Qed.

Lemma bind_assoc_at {A B C} (m : K A) (f : A -> K B) (g : B -> K C) u :
  ((m ≫= f) ≫= g) u = (m ≫= (fun x => f x ≫= g)) u.
Proof.
  unfold mbind, K_bind. destruct (m u) as [[a u1] tr1].
  destruct (f a u1) as [[b u2] tr2]. destruct (g b u2) as [[c u3] tr3].
  rewrite app_assoc. reflexivity.
Qed.

Lemma comes_to_assoc {A B C} (m : K A) (f : A -> K B) (g : B -> K C) u d p r :
  comes_to (m ≫= (fun x => f x ≫= g)) u d p r ->
  comes_to ((m ≫= f) ≫= g) u d p r.
Proof.
  unfold comes_to, calls, leaves. rewrite bind_assoc_at. auto.
Qed.

Lemma comes_to_as {A} (k : K A) u d p r d' p' :
  comes_to k u d p r -> d = d' -> p = p' -> comes_to k u d' p' r.
Proof. intros H <- <-. exact H. Qed.

(** The handler of ['finish'], by what it sends out. *)
Lemma FILE_finish_spec o entry n u :
  materializable o ->
  let fd := Some n in
  let times := FILE_after_futimes o entry fd (atime_of o entry) in
  match sets_times u entry, DOCHOWN u entry with
  | None, false => comes_to (FILE_finish o entry fd) u 1 1 (0, [])
  | Some mtime, false =>
      comes_to (FILE_finish o entry fd) u 0 0 (1, [times mtime])
  | None, true =>
      match UID u entry, GID u entry with
      | Some uid, Some gid =>
          comes_to (FILE_finish o entry fd) u 0 0
            (1, [FILE_after_fchown o entry fd uid gid])
      | _, _ => comes_to (FILE_finish o entry fd) u 0 0 (1, [])
      end
  | Some mtime, true =>
      match UID u entry, GID u entry with
      | Some uid, Some gid =>
          comes_to (FILE_finish o entry fd) u 0 0
            (2, [times mtime; FILE_after_fchown o entry fd uid gid])
      | _, _ => comes_to (FILE_finish o entry fd) u 0 0 (2, [times mtime])
      end
  end.
Proof.
  intros Hm fd times. unfold FILE_finish.
  assert (Hlast : forall (a : Z) (cbs : list Callback) d p r,
            comes_to (FILE_done o fd None a) u d p r ->
            comes_to (FILE_done o fd None a ≫= λ a' : Z, mret (a', cbs)) u
              d p (r, cbs)).
  { intros a cbs d p r H.
    eapply comes_to_as;
      [eapply comes_to_bind; [exact H | apply comes_to_end] | lia..]. }
  destruct (sets_times u entry) as [mtime |] eqn:Et,
    (DOCHOWN u entry) eqn:Ed;
    [destruct (UID u entry) as [uid |] eqn:Eu;
       [destruct (GID u entry) as [gid |] eqn:Eg |]
    | | destruct (UID u entry) as [uid |] eqn:Eu;
       [destruct (GID u entry) as [gid |] eqn:Eg |]
    | ];
    apply comes_to_self; cbv beta; rewrite ?Et, ?Ed, ?Eu, ?Eg;
    cbv beta iota zeta.
  8:{ do 2 (apply comes_to_ret; cbv beta iota zeta).
      apply Hlast, FILE_done_closes, Hm. }
  all: repeat first
         [ apply comes_to_ret; cbv beta iota zeta
         | apply comes_to_call; [reflexivity |]; cbv beta iota zeta
         | apply comes_to_assoc; cbv beta iota zeta ];
    exact (comes_to_end _ u).
Qed.

Lemma comes_to_then {A B} (m : K A) (k : A -> K B) u r1 d p r2 :
  comes_to m u 0 0 r1 ->
  comes_to (k r1) (leaves m u) d p r2 ->
  comes_to (m ≫= k) u d p r2.
Proof.
  intros H1 H2. eapply comes_to_as; [eapply comes_to_bind; eassumption | |].
  - reflexivity.
  - lia.
Qed.

Lemma comes_to_fire_one (cb : Callback) a u d p r :
  comes_to (cb a) u d p r -> comes_to (fire [cb] a) u d p r.
Proof.
  intros H. cbn [fire].
  eapply comes_to_as; [eapply comes_to_bind; [exact H | apply comes_to_end] | |]; lia.
Qed.

Lemma comes_to_fire_two (cb1 cb2 : Callback) a u d1 p1 r1 d2 p2 r2 :
  comes_to (cb1 a) u d1 p1 r1 ->
  comes_to (cb2 r1) (leaves (cb1 a) u) d2 p2 r2 ->
  comes_to (fire [cb1; cb2] a) u (d1 + d2) (p1 + p2) r2.
Proof.
  intros H1 H2. cbn [fire]. eapply comes_to_bind; [exact H1 |].
  apply comes_to_fire_one, H2.
Qed.

(** One callback of the two chains, by whether its chain fails. *)
Lemma FILE_after_futimes_spec o entry n atime mtime a u :
  materializable o ->
  comes_to (FILE_after_futimes o entry (Some n) atime mtime a) u
    (if chain_fails (on_futimes o) (on_utimes o) then 1
     else if (a - 1 =? 0)%Z then 1 else 0)%nat
    (if chain_fails (on_futimes o) (on_utimes o) then 1
     else if a - 1 =? 0 then 1 else 0)
    (if chain_fails (on_futimes o) (on_utimes o) then a else a - 1).
Proof.
  intros Hm. destruct (chain_fails _ _) eqn:Ef.
  - apply FILE_after_futimes_failed; assumption.
  - apply FILE_after_futimes_done; [assumption |].
    destruct (a - 1 =? 0) eqn:Ea.
    + apply Z.eqb_eq in Ea. replace a with 1 by lia. apply FILE_done_closes, Hm.
    + apply Z.eqb_neq in Ea. apply FILE_done_waits, Ea.
Qed.

Lemma FILE_after_fchown_spec o entry n uid gid a u :
  materializable o ->
  comes_to (FILE_after_fchown o entry (Some n) uid gid a) u
    (if chain_fails (on_fchown o) (on_chown o) then 1
     else if (a - 1 =? 0)%Z then 1 else 0)%nat
    (if chain_fails (on_fchown o) (on_chown o) then 1
     else if a - 1 =? 0 then 1 else 0)
    (if chain_fails (on_fchown o) (on_chown o) then a else a - 1).
Proof.
  intros Hm. destruct (chain_fails _ _) eqn:Ef.
  - apply FILE_after_fchown_failed; assumption.
  - apply FILE_after_fchown_done; [assumption |].
    destruct (a - 1 =? 0) eqn:Ea.
    + apply Z.eqb_eq in Ea. replace a with 1 by lia. apply FILE_done_closes, Hm.
    + apply Z.eqb_neq in Ea. apply FILE_done_waits, Ea.
Qed.

Lemma FILE_run_reports o entry n swapped u :
  materializable o ->
  exists r,
    comes_to (FILE_run o entry (Some n) swapped) u
      (FILE_reports u entry o) (Z.of_nat (FILE_reports u entry o)) r.
Proof.
  intros Hm.
  pose proof (FILE_finish_spec o entry n u Hm) as Hfin. cbv zeta in Hfin.
  unfold FILE_run, FILE_reports.
  pose proof (FILE_after_futimes_spec o entry n (atime_of o entry)) as HT.
  pose proof (FILE_after_fchown_spec o entry n) as HC.
  destruct (sets_times u entry) as [mtime |] eqn:Et,
    (DOCHOWN u entry) eqn:Ed;
    [destruct (UID u entry) as [uid |] eqn:Eu;
       [destruct (GID u entry) as [gid |] eqn:Eg |]
    | | destruct (UID u entry) as [uid |] eqn:Eu;
       [destruct (GID u entry) as [gid |] eqn:Eg |]
    | ].
  - (* both chains *)
    destruct swapped; eexists;
      (eapply comes_to_as;
       [eapply comes_to_then; [exact Hfin |]; cbv beta iota;
        cbn [reverse rev_append];
        eapply comes_to_fire_two; [first [apply HT | apply HC] |
                                   first [apply HT | apply HC]]; exact Hm
       | |]);
      destruct (chain_fails (on_futimes o) (on_utimes o)),
        (chain_fails (on_fchown o) (on_chown o)); reflexivity.
  - destruct swapped; eexists;
      (eapply comes_to_as;
       [eapply comes_to_then; [exact Hfin |]; cbv beta iota;
        cbn [reverse rev_append];
        eapply comes_to_fire_one; apply HT; exact Hm
       | |]);
      destruct (chain_fails (on_futimes o) (on_utimes o)); reflexivity.
  - destruct swapped; eexists;
      (eapply comes_to_as;
       [eapply comes_to_then; [exact Hfin |]; cbv beta iota;
        cbn [reverse rev_append];
        eapply comes_to_fire_one; apply HT; exact Hm
       | |]);
      destruct (chain_fails (on_futimes o) (on_utimes o)); reflexivity.
  - destruct swapped; eexists;
      (eapply comes_to_as;
       [eapply comes_to_then; [exact Hfin |]; cbv beta iota;
        cbn [reverse rev_append];
        eapply comes_to_fire_one; apply HT; exact Hm
       | |]);
      destruct (chain_fails (on_futimes o) (on_utimes o)); reflexivity.
  - destruct swapped; eexists;
      (eapply comes_to_as;
       [eapply comes_to_then; [exact Hfin |]; cbv beta iota;
        cbn [reverse rev_append];
        eapply comes_to_fire_one; apply HC; exact Hm
       | |]);
      destruct (chain_fails (on_fchown o) (on_chown o)); reflexivity.
  - destruct swapped; eexists;
      (eapply comes_to_then; [exact Hfin |]; cbv beta iota;
       cbn [reverse rev_append fire]; apply comes_to_end).
  - destruct swapped; eexists;
      (eapply comes_to_then; [exact Hfin |]; cbv beta iota;
       cbn [reverse rev_append fire]; apply comes_to_end).
  - destruct swapped; eexists;
      (eapply comes_to_as;
       [eapply comes_to_bind; [exact Hfin |]; cbv beta iota;
        cbn [reverse rev_append fire]; apply comes_to_end
       | |]); reflexivity.
Qed.

(** X26.  In the parallel profile, from the ['finish'] of the write
    stream with a numeric descriptor: when the [UID] and [GID] of the
    entry are numbers whenever [DOCHOWN] holds, and at most one of the two
    chains ([futimes] then [utimes], [fchown] then [chown]) fails, [FILE]
    calls its completion callback exactly once and lowers [PENDING] by
    exactly one, in whichever order the two callbacks come back, provided
    no call fails with a [CwdError]. *)
Theorem FILE_completes_once o entry n swapped u :
  materializable o ->
  (DOCHOWN u entry = true ->
   is_Some (UID u entry) /\ is_Some (GID u entry)) ->
  chain_fails (on_futimes o) (on_utimes o)
  && chain_fails (on_fchown o) (on_chown o) = false ->
  completions (calls (FILE_run o entry (Some n) swapped) u) = 1%nat
  /\ PENDING (leaves (FILE_run o entry (Some n) swapped) u) = PENDING u - 1.
Proof.
  intros Hm Hids Hone.
  destruct (FILE_run_reports o entry n swapped u Hm) as (r & H1 & H2 & _).
  assert (E : FILE_reports u entry o = 1%nat).
  { unfold FILE_reports. rewrite Hone.
    destruct (sets_times u entry), (DOCHOWN u entry); try reflexivity;
      destruct (Hids eq_refl) as [[uid ->] [gid ->]]; reflexivity. }
  rewrite E in H1, H2. split; [exact H1 | exact H2].
Qed.

Lemma FILE_completes_once_witness :
  completions (calls (FILE_run late_utimes dated_file (Some 7) true)
                 (forcing_at "/x")) = 1%nat
  /\ PENDING (leaves (FILE_run late_utimes dated_file (Some 7) true)
                (forcing_at "/x"))
     = PENDING (forcing_at "/x") - 1.
Proof.
  apply (FILE_completes_once late_utimes dated_file 7 true (forcing_at "/x")).
  - intros er Hin. simpl in Hin.
    repeat (apply elem_of_cons in Hin as [Hin | Hin];
            [first [discriminate Hin | injection Hin as ->; discriminate] |]).
    inversion Hin.
  - intros _. split; eexists; reflexivity.
  - reflexivity.
Defined.

(** X27.  When [DOCHOWN] holds for an entry whose [UID] or [GID] is not
    a number, [FILE] counts an action that it never starts: unless the
    chain that sets the times fails, the completion callback is never
    called and [PENDING] stays as it was. *)
Theorem FILE_without_ids_never_completes o entry n swapped u :
  materializable o ->
  DOCHOWN u entry = true ->
  UID u entry = None \/ GID u entry = None ->
  chain_fails (on_futimes o) (on_utimes o) = false ->
  completions (calls (FILE_run o entry (Some n) swapped) u) = 0%nat
  /\ PENDING (leaves (FILE_run o entry (Some n) swapped) u) = PENDING u.
Proof.
  intros Hm Hd Hno Hf.
  destruct (FILE_run_reports o entry n swapped u Hm) as (r & H1 & H2 & _).
  assert (E : FILE_reports u entry o = 0%nat).
  { unfold FILE_reports. rewrite Hd, Hf.
    destruct (sets_times u entry), (UID u entry), (GID u entry);
      try reflexivity; destruct Hno; discriminate. }
  rewrite E in H1, H2. split; [exact H1 | rewrite H2; simpl; lia].
Qed.

Lemma FILE_without_ids_never_completes_witness :
  completions (calls (FILE_run all_well ownerless_file (Some 7) false)
                 (forcing_at "/x")) = 0%nat
  /\ PENDING (leaves (FILE_run all_well ownerless_file (Some 7) false)
                (forcing_at "/x"))
     = PENDING (forcing_at "/x").
Proof.
  apply (FILE_without_ids_never_completes all_well ownerless_file 7 false
           (forcing_at "/x")).
  - intros er Hin. simpl in Hin.
    repeat (apply elem_of_cons in Hin as [Hin | Hin];
            [first [discriminate Hin | injection Hin as ->; discriminate] |]).
    inversion Hin.
  - reflexivity.
  - left. reflexivity.
  - reflexivity.
Defined.

(** X28.  When [FILE] sets the times and the owner and both chains fail,
    the entry is reported twice: the completion callback is called twice
    and [PENDING] is lowered by two, in whichever order the callbacks come
    back. *)
Theorem FILE_two_failures_report_twice o entry n swapped u :
  materializable o ->
  is_Some (sets_times u entry) ->
  DOCHOWN u entry = true ->
  is_Some (UID u entry) -> is_Some (GID u entry) ->
  chain_fails (on_futimes o) (on_utimes o) = true ->
  chain_fails (on_fchown o) (on_chown o) = true ->
  completions (calls (FILE_run o entry (Some n) swapped) u) = 2%nat
  /\ PENDING (leaves (FILE_run o entry (Some n) swapped) u) = PENDING u - 2.
Proof.
  intros Hm [mtime Et] Hd [uid Eu] [gid Eg] Hf1 Hf2.
  destruct (FILE_run_reports o entry n swapped u Hm) as (r & H1 & H2 & _).
  assert (E : FILE_reports u entry o = 2%nat).
  { unfold FILE_reports. rewrite Et, Hd, Eu, Eg, Hf1, Hf2. reflexivity. }
  rewrite E in H1, H2. split; [exact H1 | exact H2].
Qed.

Lemma FILE_two_failures_report_twice_witness :
  completions (calls (FILE_run all_refused dated_file (Some 7) false)
                 (forcing_at "/x")) = 2%nat
  /\ PENDING (leaves (FILE_run all_refused dated_file (Some 7) false)
                (forcing_at "/x"))
     = PENDING (forcing_at "/x") - 2.
Proof.
  apply (FILE_two_failures_report_twice all_refused dated_file 7 false
           (forcing_at "/x")).
  - intros er Hin. simpl in Hin.
    repeat (apply elem_of_cons in Hin as [Hin | Hin];
            [first [discriminate Hin | injection Hin as ->; discriminate] |]).
    inversion Hin.
  - eexists; reflexivity.
  - reflexivity.
  - eexists; reflexivity.
  - eexists; reflexivity.
  - reflexivity.
  - reflexivity.
Defined.

(** X29.  In the sync profile, at the ['end'] of the data, [FILE] closes
    the descriptor and then calls [done], each once and after every call
    that sets times or owner.  It reports at most one error, between the
    two: that of [futimesSync] if the times chain fails, else that of
    [fchownSync] if the owner chain fails, else that of [closeSync]; with
    no error the instance is left as it was. *)
Theorem sync_FILE_reports_first_error o entry fd u :
  let run := MaterializersSync.FILE_end o entry fd in
  let times_fail :=
    bool_decide (is_Some (sets_times u entry))
    && chain_fails (on_futimes o) (on_utimes o) in
  let owner_fail :=
    DOCHOWN u entry && chain_fails (on_fchown o) (on_chown o) in
  let reported :=
    if times_fail then on_futimes o
    else if owner_fail then on_fchown o
    else on_close o in
  completions (calls run u) = 1%nat
  /\ (exists pre,
        calls run u
        = pre ++ FsClose fd
            :: match reported with
               | Some e => Did <$> trace (ONERROR e) u
               | None => []
               end
            ++ [Done]
        /\ forall c, c ∈ pre -> forall e, c <> Did e)
  /\ leaves run u
     = match reported with
       | Some e => after (ONERROR e) u
       | None => u
       end.
Proof.
  cbv zeta. unfold trace, after.
  destruct (sets_times u entry) as [mtime |] eqn:Et, (DOCHOWN u entry) eqn:Ed,
    (on_futimes o) as [e1 |] eqn:E1, (on_utimes o) as [e2 |] eqn:E2,
    (on_fchown o) as [e3 |] eqn:E3, (on_chown o) as [e4 |] eqn:E4,
    (on_close o) as [e5 |] eqn:E5;
    run_materializer; rewrite ?Et, ?Ed, ?E1, ?E2, ?E3, ?E4, ?E5;
    run_materializer; rewrite ?Et, ?Ed, ?E1, ?E2, ?E3, ?E4, ?E5;
    run_materializer.
  all: rewrite ?(bool_decide_true (is_Some (Some mtime))) by eauto;
    rewrite ?(bool_decide_false (is_Some (@None Z)))
      by (intros [? ?]; discriminate);
    cbn [andb chain_fails];
    repeat match goal with
           | |- context [ONERROR ?e ?w] =>
               destruct (ONERROR e w) as [[?x ?v] ?tr]
           end;
    tidy_calls;
    (split; [count_completions; try reflexivity |]);
    (split; [| reflexivity]);
    first [ exists []; split; [reflexivity |]
          | eexists [_]; split; [reflexivity |]
          | eexists [_; _]; split; [reflexivity |]
          | eexists [_; _; _]; split; [reflexivity |]
          | eexists [_; _; _; _]; split; [reflexivity |] ];
    intros c Hin e ->;
    repeat (apply elem_of_cons in Hin as [Hin | Hin]; [discriminate |]);
    inversion Hin.
Qed.

End MaterializersFacts.
